(** * ts-cache: the in-process cache engine

    A shallow embedding of the three in-memory engines of the repository

    - [MemoryDriver]     (src/drivers/memory.ts),
    - [MemoryLRUDriver]  (src/drivers/memory-lru.ts),
    - [Cache]            (the synchronous engine, a port of node-cache),

    followed by the properties of the specification that concern them.

    Modelling conventions.
    - Every operation takes the value [now] that [Date.now()] returns
      while it runs (milliseconds); an operation runs to completion
      without suspension, so one reading per call is used.
    - A JS object used as a dictionary, a [Map] and a [Set] are finite
      maps and sets ([gmap], [gset]); enumeration order is therefore not
      the insertion order of JS, and every enumerated result is to be
      read up to permutation.
    - The stores of [MemoryDriver] and [Cache] are plain objects, so
      reading [this.data[name]] also finds the names every object
      inherits from [Object.prototype]; [read_slot] is that reading.
      Writing under a name makes an own property, which is what the
      code does for every name but [__proto__], whose assignment
      replaces the prototype of the store: once the code has written
      under that name the model no longer follows it.
    - [clone] (the package the drivers use) copies every value of the
      model to an equal value.  [structuredClone] (the [Cache] engine)
      rejects promises and turns a [Buffer] into a [Uint8Array]; it is
      the partial function [structuredClone].
    - Numbers are integers ([Z]); counters may become negative, as in JS.
    - Event emission has no effect on the engine state and is omitted. *)

From Stdlib Require Import ZArith String Ascii List Lia DecimalString.
From stdpp Require Import gmap strings list fin_maps.

Open Scope Z_scope.
#[local] Set Warnings "-register-all".

(** ** Values, keys and wrapped values *)

(** The values a cache can hold, by the shape the size estimators
    distinguish. *)
Inductive JsValue : Type :=
| JUndefined
| JNull
| JBool (b : bool)
| JNumber (n : Z)
| JString (s : string)
| JArray (items : list JsValue)
| JObject (fields : list (string * JsValue))
| JPromise
| JBuffer (bytes : list Z)
| JUint8Array (bytes : list Z).

(** [Number.MAX_SAFE_INTEGER] *)
Definition MAX_SAFE_INTEGER : Z := 9007199254740991.

(** [type Key = string | number]; the number keys of the model are the
    safe integers, which [toString] prints digit by digit. *)
Inductive Key : Type :=
| KStr (s : string)
| KNum (n : Z) (safe : Z.abs n <= MAX_SAFE_INTEGER).

(** [key.toString()] *)
Definition key_toString (key : Key) : string :=
  match key with
  | KStr s => s
  | KNum n _ => NilZero.string_of_int (Z.to_int n)
  end.

(** JS truthiness of a key: [!key] holds for [""] and [0]. *)
Definition key_truthy (key : Key) : bool :=
  match key with
  | KStr s => negb (String.eqb s "")
  | KNum n _ => negb (n =? 0)
  end.

Definition strlen (s : string) : Z := Z.of_nat (String.length s).
Definition len {A} (l : list A) : Z := Z.of_nat (List.length l).

(** [interface WrappedValue<T> { t: number, v: T }] *)
Record WrappedValue : Type := { t : Z; v : JsValue }.

Module Stats.
(** [interface Stats { hits, misses, keys, ksize, vsize }] *)
Record Stats : Type :=
  { hits : Z; misses : Z; keys : Z; ksize : Z; vsize : Z }.

Definition zero : Stats :=
  {| hits := 0; misses := 0; keys := 0; ksize := 0; vsize := 0 |}.

Definition hit (s : Stats) : Stats :=
  {| hits := hits s + 1; misses := misses s; keys := keys s;
     ksize := ksize s; vsize := vsize s |}.
Definition miss (s : Stats) : Stats :=
  {| hits := hits s; misses := misses s + 1; keys := keys s;
     ksize := ksize s; vsize := vsize s |}.
Definition add_keys (n : Z) (s : Stats) : Stats :=
  {| hits := hits s; misses := misses s; keys := keys s + n;
     ksize := ksize s; vsize := vsize s |}.
Definition add_ksize (n : Z) (s : Stats) : Stats :=
  {| hits := hits s; misses := misses s; keys := keys s;
     ksize := ksize s + n; vsize := vsize s |}.
Definition add_vsize (n : Z) (s : Stats) : Stats :=
  {| hits := hits s; misses := misses s; keys := keys s;
     ksize := ksize s; vsize := vsize s + n |}.
End Stats.
Export Stats(Stats).

(** What a call that may throw leaves behind: its result and the state,
    or the error and the state at the point of the throw. *)
Inductive CacheErr : Type := ECACHEFULL | EKEYTYPE | DataCloneError.

Inductive Outcome (A S : Type) : Type :=
| Returned (a : A) (s : S)
| Thrown (e : CacheErr) (s : S).
Arguments Returned {A S} a s.
Arguments Thrown {A S} e s.

Definition outcome_state {A S} (r : Outcome A S) : S :=
  match r with Returned _ s => s | Thrown _ s => s end.

Definition is_thrown {A S} (r : Outcome A S) : bool :=
  match r with Returned _ _ => false | Thrown _ _ => true end.

(** [data.t !== 0 && data.t < Date.now()] *)
Definition expired (now : Z) (d : WrappedValue) : bool :=
  negb (t d =? 0) && (t d <? now).

(** ** Plain objects used as stores *)

(** The property names of [Object.prototype], which every plain object
    inherits. *)
Definition object_prototype_names : list string :=
  ["constructor"; "hasOwnProperty"; "isPrototypeOf"; "propertyIsEnumerable";
   "toLocaleString"; "toString"; "valueOf"; "__defineGetter__";
   "__defineSetter__"; "__lookupGetter__"; "__lookupSetter__";
   "__proto__"]%string.

Definition inherited (name : string) : bool :=
  existsb (String.eqb name) object_prototype_names.

(** What [this.data[name]] reads when the store is a plain object: the
    entry stored under the name; or, when none is stored, what the name
    inherits, a function (for [__proto__] the prototype itself), which
    is truthy and has neither [t] nor [v]; or [undefined]. *)
Inductive Slot : Type :=
| Own (d : WrappedValue)
| Inherited
| Missing.

Definition read_slot (data : gmap string WrappedValue) (name : string)
    : Slot :=
  match data !! name with
  | Some d => Own d
  | None => if inherited name then Inherited else Missing
  end.

(** The [v] of what a reading of the store found. *)
Definition slot_v (slot : Slot) : JsValue :=
  match slot with
  | Own d => v d
  | Inherited | Missing => JUndefined
  end.

(** A reading of the store is truthy, and so not [undefined]. *)
Definition found (slot : Slot) : bool :=
  match slot with
  | Own _ | Inherited => true
  | Missing => false
  end.

(** ** Glob patterns ([patternToRegex] of both drivers) *)

Module Glob.

(** The first replacement, [/[.+^${}()|[\]\\]/g -> '\\$&']: the
    characters that receive a backslash. *)
Definition is_special (c : ascii) : bool :=
  existsb (Ascii.eqb c)
    ["."; "+"; "^"; "$"; "{"; "}"; "("; ")"; "|"; "["; "]"; "\"]%char.

(** A global [String.replace] whose pattern matches single characters:
    every character is rewritten on its own. *)
Fixpoint replace_chars (f : ascii -> string) (s : string) : string :=
  match s with
  | EmptyString => EmptyString
  | String c rest => (f c ++ replace_chars f rest)%string
  end.

Definition escape_specials (c : ascii) : string :=
  if is_special c then String "\" (String c EmptyString)
  else String c EmptyString.
Definition star_to_dotstar (c : ascii) : string :=
  if Ascii.eqb c "*" then ".*"%string else String c EmptyString.
Definition question_to_dot (c : ascii) : string :=
  if Ascii.eqb c "?" then "."%string else String c EmptyString.

(** The source text handed to [new RegExp], without the anchors. *)
Definition escaped (pattern : string) : string :=
  replace_chars question_to_dot
    (replace_chars star_to_dotstar
       (replace_chars escape_specials pattern)).

(** The regular expressions that text can denote: a sequence of atoms. *)
Inductive Atom : Type :=
| Lit (c : ascii)     (* a plain or an escaped character *)
| AnyChar             (* [.]  *)
| AnyRun.             (* [.*] *)

(** Reading the source text as [RegExp] does, on the fragment
    [escaped] produces: [\c] is the character [c], [.*] a run, [.] one
    character, anything else itself. *)
Fixpoint parse (src : string) : list Atom :=
  match src with
  | EmptyString => []
  | String c rest =>
      if Ascii.eqb c "\" then
        match rest with
        | String c' rest' => Lit c' :: parse rest'
        | EmptyString => [Lit c]
        end
      else if Ascii.eqb c "." then
        match rest with
        | String c' rest' =>
            if Ascii.eqb c' "*" then AnyRun :: parse rest'
            else AnyChar :: parse rest
        | EmptyString => [AnyChar]
        end
      else Lit c :: parse rest
  end.

(** Without the [s] flag, [.] matches no line terminator. *)
Definition is_line_terminator (c : ascii) : bool :=
  Ascii.eqb c "010" || Ascii.eqb c "013".

(** [.*] followed by the rest of the expression [k]: the run ends here,
    or takes one more character that is no line terminator. *)
Fixpoint match_run (k : string -> bool) (s : string) : bool :=
  k s
  || match s with
     | String c s' => negb (is_line_terminator c) && match_run k s'
     | EmptyString => false
     end.

(** [^atoms$] against the whole of [s], by backtracking. *)
Fixpoint matches (atoms : list Atom) (s : string) : bool :=
  match atoms with
  | [] => match s with EmptyString => true | _ => false end
  | Lit c :: rest =>
      match s with
      | String c' s' => Ascii.eqb c c' && matches rest s'
      | EmptyString => false
      end
  | AnyChar :: rest =>
      match s with
      | String c' s' => negb (is_line_terminator c') && matches rest s'
      | EmptyString => false
      end
  | AnyRun :: rest => match_run (matches rest) s
  end.

(** [patternToRegex(pattern).test(key)] *)
Definition patternToRegex (pattern : string) : list Atom :=
  parse (escaped pattern).

Definition test (regex : list Atom) (key : string) : bool :=
  matches regex key.

End Glob.

(** ** Options and helpers shared by the two drivers *)

(** [MemoryDriverOptions], after the constructor has filled in the
    defaults.  The serializer and the compressor are stored but never
    used by the in-memory drivers. *)
Record MemoryDriverOptions : Type :=
  { stdTTL : Z;
    prefix : string;
    checkPeriod : Z;
    deleteOnExpire : bool;
    maxKeys : Z;
    useClones : bool }.

(** [getFullKey]: [prefix ? `${prefix}:${key}` : key.toString()] *)
Definition getFullKey (o : MemoryDriverOptions) (key : Key) : string :=
  if String.eqb (prefix o) "" then key_toString key
  else (prefix o ++ ":" ++ key_toString key)%string.

(** [fullKey.slice(n)] *)
Fixpoint slice (n : nat) (s : string) : string :=
  match n, s with
  | O, _ => s
  | S n', String _ rest => slice n' rest
  | S _, EmptyString => EmptyString
  end.

(** [stripPrefix] *)
Definition stripPrefix (o : MemoryDriverOptions) (fullKey : string) : string :=
  if negb (String.eqb (prefix o) "")
     && String.prefix (prefix o ++ ":") fullKey
  then slice (String.length (prefix o) + 1) fullKey
  else fullKey.

(** [wrap(value, ttl, asClone)] of the drivers; [ttl] is [None] when the
    argument is [undefined]. *)
Definition wrap (o : MemoryDriverOptions) (now : Z) (value : JsValue)
    (ttl : option Z) : WrappedValue :=
  let expiry :=
    match ttl with
    | Some 0 => 0
    | Some n => now + n * 1000
    | None => if stdTTL o =? 0 then 0 else now + stdTTL o * 1000
    end in
  {| t := expiry; v := value |}.

(** [unwrap(wrapped, asClone)] of the drivers. *)
Definition unwrap (wrapped : WrappedValue) : JsValue :=
  match v wrapped with
  | JUndefined => JNull
  | x => x
  end.

(** [getKeySize] *)
Definition getKeySize (key : string) : Z := strlen key.

(** [getValueSize] of the drivers. *)
Definition getValueSize (value : JsValue) : Z :=
  match value with
  | JString s => strlen s
  | JNumber _ | JBool _ => 8
  | JArray items => 40 * len items
  | JObject fields => 80 * len fields
  | JBuffer bytes | JUint8Array bytes =>
      80 * len bytes                   (* one own property per index *)
  | JPromise => 80 * 0                 (* no own enumerable property *)
  | JUndefined | JNull => 0
  end.

(** The tag index: [Map<string, Set<string>>]. *)
Abbreviation TagIndex := (gmap string (gset string)).

(** [this.tags.forEach(keySet => keySet.delete(fullKey))] *)
Definition untag_everywhere (fullKey : string) (tags : TagIndex) : TagIndex :=
  (fun keySet => keySet ∖ {[fullKey]}) <$> tags.

(** The body of the loop of [tag]: create the set on first use, then add. *)
Definition tag_add (fullKey : string) (tags : TagIndex) (tag : string)
    : TagIndex :=
  let tags1 :=
    match tags !! tag with
    | None => <[tag := ∅]> tags
    | Some _ => tags
    end in
  match tags1 !! tag with
  | Some keySet => <[tag := keySet ∪ {[fullKey]}]> tags1
  | None => tags1
  end.

(** ** MemoryDriver (src/drivers/memory.ts) *)

Module MemoryDriver.

Record State : Type :=
  { data : gmap string WrappedValue;
    stats : Stats;
    tags : TagIndex }.

Definition init : State :=
  {| data := ∅; stats := Stats.zero; tags := ∅ |}.

Definition with_stats (f : Stats -> Stats) (st : State) : State :=
  {| data := data st; stats := f (stats st); tags := tags st |}.
Definition with_data (f : gmap string WrappedValue -> gmap string WrappedValue)
    (st : State) : State :=
  {| data := f (data st); stats := stats st; tags := tags st |}.
Definition with_tags (f : TagIndex -> TagIndex) (st : State) : State :=
  {| data := data st; stats := stats st; tags := f (tags st) |}.

(** [checkExpiry(key, data)] *)
Definition checkExpiry (o : MemoryDriverOptions) (now : Z) (key : string)
    (d : WrappedValue) (st : State) : bool * State :=
  if expired now d then
    if deleteOnExpire o then
      (false, with_stats (Stats.add_keys (-1)) (with_data (delete key) st))
    else (true, st)
  else (true, st).

(** [this.data[fullKey] && this.checkExpiry(fullKey, this.data[fullKey])],
    the test [get], [mget], [has], [getTtl], [ttl] and [getKeysByTag]
    share.  For an inherited name [checkExpiry] reads [data.t] as
    [undefined], which is neither [0] nor less than the clock, and
    answers true.  When the test holds the second reading of
    [this.data[fullKey]] that follows it in [get], [mget], [getTtl] and
    [ttl] finds what the first one found. *)
Definition present (o : MemoryDriverOptions) (now : Z) (fullKey : string)
    (st : State) : bool * State :=
  match read_slot (data st) fullKey with
  | Own d => checkExpiry o now fullKey d st
  | Inherited => (true, st)
  | Missing => (false, st)
  end.

(** [get(key)]; [JUndefined] is the miss.  What an inherited name reads
    has no [v], so [unwrap] gives [null]. *)
Definition get (o : MemoryDriverOptions) (now : Z) (key : Key) (st : State)
    : JsValue * State :=
  let fullKey := getFullKey o key in
  let '(ok, st1) := present o now fullKey st in
  if ok then
    match read_slot (data st1) fullKey with
    | Own d => (unwrap d, with_stats Stats.hit st1)
    | Inherited => (JNull, with_stats Stats.hit st1)
    | Missing => (JUndefined, with_stats Stats.hit st1)
    end
  else (JUndefined, with_stats Stats.miss st1).

(** One iteration of the loop of [mget]. *)
Definition mget_step (o : MemoryDriverOptions) (now : Z)
    (acc : gmap string JsValue * State) (key : Key)
    : gmap string JsValue * State :=
  let '(result, st) := acc in
  let fullKey := getFullKey o key in
  let '(ok, st1) := present o now fullKey st in
  if ok then
    match read_slot (data st1) fullKey with
    | Own d => (<[key_toString key := unwrap d]> result,
                with_stats Stats.hit st1)
    | Inherited => (<[key_toString key := JNull]> result,
                    with_stats Stats.hit st1)
    | Missing => (result, with_stats Stats.hit st1)
    end
  else (result, with_stats Stats.miss st1).

(** [mget(keys)] *)
Definition mget (o : MemoryDriverOptions) (now : Z) (keys : list Key)
    (st : State) : gmap string JsValue * State :=
  foldl (mget_step o now) (∅, st) keys.

(** [set(key, value, ttl)]; [existed] holds for an inherited name too,
    whose [unwrap] is [null]. *)
Definition set (o : MemoryDriverOptions) (now : Z) (key : Key)
    (value : JsValue) (ttl : option Z) (st : State) : Outcome bool State :=
  if (maxKeys o >? -1) && (Stats.keys (stats st) >=? maxKeys o) then
    Thrown ECACHEFULL st
  else
    let fullKey := getFullKey o key in
    let existed := read_slot (data st) fullKey in
    let st1 :=
      match existed with
      | Own d => with_stats (Stats.add_vsize (- getValueSize (unwrap d))) st
      | Inherited => with_stats (Stats.add_vsize (- getValueSize JNull)) st
      | Missing => st
      end in
    let st2 := with_data <[fullKey := wrap o now value ttl]> st1 in
    let st3 := with_stats (Stats.add_vsize (getValueSize value)) st2 in
    let st4 :=
      match existed with
      | Own _ | Inherited => st3
      | Missing =>
          with_stats (Stats.add_keys 1)
            (with_stats (Stats.add_ksize (getKeySize (key_toString key))) st3)
      end in
    Returned true st4.

(** The loop of [mset]: the first [set] that throws ends it. *)
Fixpoint mset_loop (o : MemoryDriverOptions) (now : Z)
    (entries : list (Key * JsValue * option Z)) (st : State)
    : Outcome bool State :=
  match entries with
  | [] => Returned true st
  | (key, value, ttl) :: rest =>
      match set o now key value ttl st with
      | Returned _ st1 => mset_loop o now rest st1
      | Thrown e st1 => Thrown e st1
      end
  end.

(** [mset(entries)] *)
Definition mset (o : MemoryDriverOptions) (now : Z)
    (entries : list (Key * JsValue * option Z)) (st : State)
    : Outcome bool State :=
  if (maxKeys o >? -1)
     && (Stats.keys (stats st) + len entries >=? maxKeys o) then
    Thrown ECACHEFULL st
  else mset_loop o now entries st.

(** What the body of the loop of [del] does once [this.data[fullKey]]
    is truthy, [old] being the value it unwraps. *)
Definition del_found (o : MemoryDriverOptions) (key : Key) (old : JsValue)
    (st : State) : State :=
  let fullKey := getFullKey o key in
  let st1 := with_stats (Stats.add_vsize (- getValueSize old)) st in
  let st2 :=
    with_stats (Stats.add_ksize (- getKeySize (key_toString key))) st1 in
  let st3 := with_stats (Stats.add_keys (-1)) st2 in
  let st4 := with_data (delete fullKey) st3 in
  with_tags (untag_everywhere fullKey) st4.

(** One iteration of the loop of [del].  An inherited name is truthy
    as well: the counters are lowered and the deletion is counted,
    although [delete] finds no own property to remove. *)
Definition del_step (o : MemoryDriverOptions) (acc : Z * State) (key : Key)
    : Z * State :=
  let '(deletedCount, st) := acc in
  let fullKey := getFullKey o key in
  match read_slot (data st) fullKey with
  | Own d => (deletedCount + 1, del_found o key (unwrap d) st)
  | Inherited => (deletedCount + 1, del_found o key JNull st)
  | Missing => (deletedCount, st)
  end.

(** [del(keys)]; a single key is the one-element list. *)
Definition del (o : MemoryDriverOptions) (keys : list Key) (st : State)
    : Z * State :=
  foldl (del_step o) (0, st) keys.

(** [has(key)] *)
Definition has (o : MemoryDriverOptions) (now : Z) (key : Key) (st : State)
    : bool * State :=
  present o now (getFullKey o key) st.

(** The [filter] callback of [keys], run over the keys [Object.keys]
    listed before the filter began: own keys, each still stored when
    the filter reaches it, so that the last two cases do not arise. *)
Definition keys_filter_step (o : MemoryDriverOptions) (now : Z)
    (acc : list string * State) (fullKey : string) : list string * State :=
  let '(kept, st) := acc in
  match read_slot (data st) fullKey with
  | Own d =>
      let '(ok, st1) := checkExpiry o now fullKey d st in
      if ok then (kept ++ [fullKey], st1) else (kept, st1)
  | Inherited => (kept ++ [fullKey], st)
  | Missing => (kept, st)
  end.

(** [keys(pattern)] *)
Definition keys (o : MemoryDriverOptions) (now : Z) (pattern : option string)
    (st : State) : list string * State :=
  let '(kept, st1) :=
    foldl (keys_filter_step o now) ([], st) (map fst (map_to_list (data st))) in
  let allKeys := map (stripPrefix o) kept in
  match pattern with
  | Some p =>
      if String.eqb p "" then (allKeys, st1)
      else
        let regex := Glob.patternToRegex p in
        (filter (fun key => Glob.test regex key = true) allKeys, st1)
  | None => (allKeys, st1)
  end.

(** [getTtl(key)]; [None] is [undefined], which is also the [t] of what
    an inherited name reads. *)
Definition getTtl (o : MemoryDriverOptions) (now : Z) (key : Key)
    (st : State) : option Z * State :=
  let fullKey := getFullKey o key in
  let '(ok, st1) := present o now fullKey st in
  if ok then (t <$> data st1 !! fullKey, st1) else (None, st1).

(** [ttl(key, ttl)]; for an inherited name it wraps the [v] it reads,
    [undefined], and so stores an entry where there was none. *)
Definition ttl (o : MemoryDriverOptions) (now : Z) (key : Key) (ttl : Z)
    (st : State) : bool * State :=
  let fullKey := getFullKey o key in
  let '(ok, st1) := present o now fullKey st in
  if ok then
    match read_slot (data st1) fullKey with
    | Own d => (true, with_data <[fullKey := wrap o now (v d) (Some ttl)]> st1)
    | Inherited =>
        (true, with_data <[fullKey := wrap o now JUndefined (Some ttl)]> st1)
    | Missing => (true, st1)
    end
  else (false, st1).

(** [flush()] *)
Definition flush (st : State) : State := init.

(** [getStats()] *)
Definition getStats (st : State) : Stats := stats st.

(** The [filter] callback of [getKeysByTag]. *)
Definition tagged_filter_step (o : MemoryDriverOptions) (now : Z)
    (acc : list string * State) (fullKey : string) : list string * State :=
  let '(kept, st) := acc in
  let '(ok, st1) := present o now fullKey st in
  if ok then (kept ++ [fullKey], st1) else (kept, st1).

(** [getKeysByTag(tag)] *)
Definition getKeysByTag (o : MemoryDriverOptions) (now : Z) (tag : string)
    (st : State) : list string * State :=
  match tags st !! tag with
  | None => ([], st)
  | Some keySet =>
      let '(kept, st1) :=
        foldl (tagged_filter_step o now) ([], st) (elements keySet) in
      (map (stripPrefix o) kept, st1)
  end.

(** [tag(key, tags)] *)
Definition tag (o : MemoryDriverOptions) (key : Key) (tagNames : list string)
    (st : State) : bool * State :=
  let fullKey := getFullKey o key in
  match read_slot (data st) fullKey with
  | Missing => (false, st)
  | Own _ | Inherited =>
      (true, with_tags (fun tg => foldl (tag_add fullKey) tg tagNames) st)
  end.

(** [deleteByTag(tag)] *)
Definition deleteByTag (o : MemoryDriverOptions) (now : Z) (tag : string)
    (st : State) : Z * State :=
  let '(keys, st1) := getKeysByTag o now tag st in
  match keys with
  | [] => (0, st1)
  | _ =>
      let '(result, st2) := del o (map KStr keys) st1 in
      (result, with_tags (delete tag) st2)
  end.

(** [checkAllData()], the periodic sweep. *)
Definition checkAllData (o : MemoryDriverOptions) (now : Z) (st : State)
    : State :=
  foldl (fun st1 '(key, d) => snd (checkExpiry o now key d st1))
        st (map_to_list (data st)).

End MemoryDriver.

(** ** MemoryLRUDriver (src/drivers/memory-lru.ts) *)

Module MemoryLRUDriver.

(** [interface LRUNode<T>]: nodes are objects on the heap, named here
    by the number they received when they were created; [prev] and
    [next] are references to nodes. *)
Module Node.
Record LRUNode : Type :=
  { key : string;
    value : WrappedValue;
    prev : option nat;
    next : option nat }.

Definition set_prev (p : option nat) (nd : LRUNode) : LRUNode :=
  {| key := key nd; value := value nd; prev := p; next := next nd |}.
Definition set_next (n : option nat) (nd : LRUNode) : LRUNode :=
  {| key := key nd; value := value nd; prev := prev nd; next := n |}.
Definition set_value (w : WrappedValue) (nd : LRUNode) : LRUNode :=
  {| key := key nd; value := w; prev := prev nd; next := next nd |}.
End Node.
Export Node(LRUNode).

(** [data] maps a key to its node (a reference); [heap] holds the
    nodes; [fresh] is the name the next [new] node receives. *)
Record State : Type :=
  { data : gmap string nat;
    heap : gmap nat LRUNode;
    fresh : nat;
    head : option nat;
    tail : option nat;
    stats : Stats;
    tags : TagIndex }.

Definition init : State :=
  {| data := ∅; heap := ∅; fresh := 0%nat; head := None; tail := None;
     stats := Stats.zero; tags := ∅ |}.

Definition with_data (f : gmap string nat -> gmap string nat) (st : State)
    : State :=
  {| data := f (data st); heap := heap st; fresh := fresh st;
     head := head st; tail := tail st; stats := stats st; tags := tags st |}.
Definition with_heap (f : gmap nat LRUNode -> gmap nat LRUNode) (st : State)
    : State :=
  {| data := data st; heap := f (heap st); fresh := fresh st;
     head := head st; tail := tail st; stats := stats st; tags := tags st |}.
Definition with_head (h : option nat) (st : State) : State :=
  {| data := data st; heap := heap st; fresh := fresh st;
     head := h; tail := tail st; stats := stats st; tags := tags st |}.
Definition with_tail (tl : option nat) (st : State) : State :=
  {| data := data st; heap := heap st; fresh := fresh st;
     head := head st; tail := tl; stats := stats st; tags := tags st |}.
Definition with_stats (f : Stats -> Stats) (st : State) : State :=
  {| data := data st; heap := heap st; fresh := fresh st;
     head := head st; tail := tail st; stats := f (stats st); tags := tags st |}.
Definition with_tags (f : TagIndex -> TagIndex) (st : State) : State :=
  {| data := data st; heap := heap st; fresh := fresh st;
     head := head st; tail := tail st; stats := stats st; tags := f (tags st) |}.

(** [this.data.get(fullKey)]: the node, as its name and its fields.  A
    key of [data] always refers to a node of the heap. *)
Definition lookup_node (st : State) (fullKey : string)
    : option (nat * LRUNode) :=
  match data st !! fullKey with
  | Some n =>
      match heap st !! n with
      | Some nd => Some (n, nd)
      | None => None
      end
  | None => None
  end.

(** [addToHead(node)] *)
Definition addToHead (n : nat) (st : State) : State :=
  let st1 :=
    with_heap (alter (fun nd => Node.set_prev None (Node.set_next (head st) nd)) n)
      st in
  let st2 :=
    match head st1 with
    | Some h => with_heap (alter (Node.set_prev (Some n)) h) st1
    | None => st1
    end in
  let st3 := with_head (Some n) st2 in
  match tail st3 with
  | None => with_tail (Some n) st3
  | Some _ => st3
  end.

(** [removeNode(node)] *)
Definition removeNode (n : nat) (st : State) : State :=
  match heap st !! n with
  | None => st
  | Some nd =>
      let st1 :=
        match Node.prev nd with
        | Some p => with_heap (alter (Node.set_next (Node.next nd)) p) st
        | None => with_head (Node.next nd) st
        end in
      match Node.next nd with
      | Some x => with_heap (alter (Node.set_prev (Node.prev nd)) x) st1
      | None => with_tail (Node.prev nd) st1
      end
  end.

(** [moveToHead(node)] *)
Definition moveToHead (n : nat) (st : State) : State :=
  addToHead n (removeNode n st).

(** [removeTail()] *)
Definition removeTail (st : State) : option (nat * LRUNode) * State :=
  match tail st with
  | None => (None, st)
  | Some n =>
      match heap st !! n with
      | Some nd => (Some (n, nd), removeNode n st)
      | None => (None, st)
      end
  end.

(** [evictLRU()] *)
Definition evictLRU (st : State) : State :=
  match removeTail st with
  | (Some (_, removed), st1) =>
      let st2 := with_data (delete (Node.key removed)) st1 in
      let st3 :=
        with_stats
          (Stats.add_vsize (- getValueSize (unwrap (Node.value removed)))) st2 in
      let st4 :=
        with_stats (Stats.add_ksize (- getKeySize (Node.key removed))) st3 in
      with_stats (Stats.add_keys (-1)) st4
  | (None, st1) => st1
  end.

(** [checkExpiry(key, data)] *)
Definition checkExpiry (o : MemoryDriverOptions) (now : Z) (key : string)
    (d : WrappedValue) (st : State) : bool * State :=
  if expired now d then
    if deleteOnExpire o then
      match lookup_node st key with
      | Some (n, _) =>
          (false,
           with_stats (Stats.add_keys (-1))
             (with_data (delete key) (removeNode n st)))
      | None => (false, st)
      end
    else (true, st)
  else (true, st).

(** [node && this.checkExpiry(fullKey, node.value)], with the node. *)
Definition present (o : MemoryDriverOptions) (now : Z) (fullKey : string)
    (st : State) : option (nat * LRUNode) * State :=
  match lookup_node st fullKey with
  | Some (n, nd) =>
      let '(ok, st1) := checkExpiry o now fullKey (Node.value nd) st in
      if ok then (Some (n, nd), st1) else (None, st1)
  | None => (None, st)
  end.

(** [get(key)]; [JUndefined] is the miss. *)
Definition get (o : MemoryDriverOptions) (now : Z) (key : Key) (st : State)
    : JsValue * State :=
  let fullKey := getFullKey o key in
  match present o now fullKey st with
  | (Some (n, nd), st1) =>
      (unwrap (Node.value nd), moveToHead n (with_stats Stats.hit st1))
  | (None, st1) => (JUndefined, with_stats Stats.miss st1)
  end.

(** One iteration of the loop of [mget]. *)
Definition mget_step (o : MemoryDriverOptions) (now : Z)
    (acc : gmap string JsValue * State) (key : Key)
    : gmap string JsValue * State :=
  let '(result, st) := acc in
  let fullKey := getFullKey o key in
  match present o now fullKey st with
  | (Some (n, nd), st1) =>
      (<[key_toString key := unwrap (Node.value nd)]> result,
       moveToHead n (with_stats Stats.hit st1))
  | (None, st1) => (result, with_stats Stats.miss st1)
  end.

(** [mget(keys)] *)
Definition mget (o : MemoryDriverOptions) (now : Z) (keys : list Key)
    (st : State) : gmap string JsValue * State :=
  foldl (mget_step o now) (∅, st) keys.

(** [new] node: it takes the next free name. *)
Definition alloc (nd : LRUNode) (st : State) : nat * State :=
  (fresh st,
   {| data := data st; heap := <[fresh st := nd]> (heap st);
      fresh := S (fresh st); head := head st; tail := tail st;
      stats := stats st; tags := tags st |}).

(** [set(key, value, ttl)] *)
Definition set (o : MemoryDriverOptions) (now : Z) (key : Key)
    (value : JsValue) (ttl : option Z) (st : State) : bool * State :=
  let fullKey := getFullKey o key in
  let existingNode := lookup_node st fullKey in
  let st1 :=
    match existingNode with
    | Some (n, nd) =>
        removeNode n
          (with_stats
             (Stats.add_vsize (- getValueSize (unwrap (Node.value nd)))) st)
    | None =>
        if (maxKeys o >? 0) && (Stats.keys (stats st) >=? maxKeys o)
        then evictLRU st else st
    end in
  let wrapped := wrap o now value ttl in
  let '(n, st2) :=
    alloc {| Node.key := fullKey; Node.value := wrapped;
             Node.prev := None; Node.next := None |} st1 in
  let st3 := addToHead n st2 in
  let st4 := with_data <[fullKey := n]> st3 in
  let st5 := with_stats (Stats.add_vsize (getValueSize value)) st4 in
  let st6 :=
    match existingNode with
    | Some _ => st5
    | None =>
        with_stats (Stats.add_keys 1)
          (with_stats (Stats.add_ksize (getKeySize (key_toString key))) st5)
    end in
  (true, st6).

(** [mset(entries)] *)
Definition mset (o : MemoryDriverOptions) (now : Z)
    (entries : list (Key * JsValue * option Z)) (st : State) : bool * State :=
  (true,
   foldl (fun st1 '(key, value, ttl) => snd (set o now key value ttl st1))
         st entries).

(** One iteration of the loop of [del]. *)
Definition del_step (o : MemoryDriverOptions) (acc : Z * State) (key : Key)
    : Z * State :=
  let '(deletedCount, st) := acc in
  let fullKey := getFullKey o key in
  match lookup_node st fullKey with
  | Some (n, nd) =>
      let st1 :=
        with_stats
          (Stats.add_vsize (- getValueSize (unwrap (Node.value nd)))) st in
      let st2 :=
        with_stats (Stats.add_ksize (- getKeySize (key_toString key))) st1 in
      let st3 := with_stats (Stats.add_keys (-1)) st2 in
      let st4 := removeNode n st3 in
      let st5 := with_data (delete fullKey) st4 in
      (deletedCount + 1, with_tags (untag_everywhere fullKey) st5)
  | None => (deletedCount, st)
  end.

(** [del(keys)]; a single key is the one-element list. *)
Definition del (o : MemoryDriverOptions) (keys : list Key) (st : State)
    : Z * State :=
  foldl (del_step o) (0, st) keys.

(** [has(key)] *)
Definition has (o : MemoryDriverOptions) (now : Z) (key : Key) (st : State)
    : bool * State :=
  match present o now (getFullKey o key) st with
  | (Some _, st1) => (true, st1)
  | (None, st1) => (false, st1)
  end.

(** The [filter] callback of [keys], run over the nodes
    [this.data.values()] listed before the filter began. *)
Definition keys_filter_step (o : MemoryDriverOptions) (now : Z)
    (acc : list string * State) (n : nat) : list string * State :=
  let '(kept, st) := acc in
  match heap st !! n with
  | Some nd =>
      let '(ok, st1) := checkExpiry o now (Node.key nd) (Node.value nd) st in
      if ok then (kept ++ [Node.key nd], st1) else (kept, st1)
  | None => (kept, st)
  end.

(** [keys(pattern)] *)
Definition keys (o : MemoryDriverOptions) (now : Z) (pattern : option string)
    (st : State) : list string * State :=
  let '(kept, st1) :=
    foldl (keys_filter_step o now) ([], st) (map snd (map_to_list (data st))) in
  let allKeys := map (stripPrefix o) kept in
  match pattern with
  | Some p =>
      if String.eqb p "" then (allKeys, st1)
      else
        let regex := Glob.patternToRegex p in
        (filter (fun key => Glob.test regex key = true) allKeys, st1)
  | None => (allKeys, st1)
  end.

(** [getTtl(key)] *)
Definition getTtl (o : MemoryDriverOptions) (now : Z) (key : Key)
    (st : State) : option Z * State :=
  match present o now (getFullKey o key) st with
  | (Some (_, nd), st1) => (Some (t (Node.value nd)), st1)
  | (None, st1) => (None, st1)
  end.

(** [ttl(key, ttl)] *)
Definition ttl (o : MemoryDriverOptions) (now : Z) (key : Key) (ttl : Z)
    (st : State) : bool * State :=
  match present o now (getFullKey o key) st with
  | (Some (n, nd), st1) =>
      let w := wrap o now (v (Node.value nd)) (Some ttl) in
      (true, moveToHead n (with_heap (alter (Node.set_value w) n) st1))
  | (None, st1) => (false, st1)
  end.

(** [flush()] *)
Definition flush (st : State) : State :=
  {| data := ∅; heap := heap st; fresh := fresh st; head := None;
     tail := None; stats := Stats.zero; tags := ∅ |}.

(** [getStats()] *)
Definition getStats (st : State) : Stats := stats st.

(** The [map] callback of [getKeysByTag]. *)
Definition tagged_filter_step (o : MemoryDriverOptions) (now : Z)
    (acc : list string * State) (fullKey : string) : list string * State :=
  let '(kept, st) := acc in
  match present o now fullKey st with
  | (Some _, st1) => (kept ++ [stripPrefix o fullKey], st1)
  | (None, st1) => (kept, st1)
  end.

(** [getKeysByTag(tag)] *)
Definition getKeysByTag (o : MemoryDriverOptions) (now : Z) (tag : string)
    (st : State) : list string * State :=
  match tags st !! tag with
  | None => ([], st)
  | Some keySet => foldl (tagged_filter_step o now) ([], st) (elements keySet)
  end.

(** [tag(key, tags)] *)
Definition tag (o : MemoryDriverOptions) (key : Key) (tagNames : list string)
    (st : State) : bool * State :=
  let fullKey := getFullKey o key in
  match data st !! fullKey with
  | None => (false, st)
  | Some _ => (true, with_tags (fun tg => foldl (tag_add fullKey) tg tagNames) st)
  end.

(** [deleteByTag(tag)] *)
Definition deleteByTag (o : MemoryDriverOptions) (now : Z) (tag : string)
    (st : State) : Z * State :=
  let '(keys, st1) := getKeysByTag o now tag st in
  match keys with
  | [] => (0, st1)
  | _ =>
      let '(result, st2) := del o (map KStr keys) st1 in
      (result, with_tags (delete tag) st2)
  end.

(** [checkAllData()], the periodic sweep. *)
Definition checkAllData (o : MemoryDriverOptions) (now : Z) (st : State)
    : State :=
  foldl (fun st1 '(key, n) =>
           match heap st1 !! n with
           | Some nd => snd (checkExpiry o now key (Node.value nd) st1)
           | None => st1
           end)
        st (map_to_list (data st)).

End MemoryLRUDriver.

(** ** Cache (the synchronous engine) *)

Module Cache.

(** [Options] merged with [DEFAULT_OPTIONS], for a cache built with
    [forceString] off, its default: the record has no such field, and
    what the code does when the option is on ([JSON.stringify] of every
    value that is no string) is not part of the model.  The three
    performance flags are read by the constructor although the
    [Options] interface does not declare them. *)
Record Options : Type :=
  { objectValueSize : Z;
    promiseValueSize : Z;
    arrayValueSize : Z;
    stdTTL : Z;
    checkPeriod : Z;
    useClones : bool;
    deleteOnExpire : bool;
    maxKeys : Z;
    maxPerformance : bool;
    enableStats : bool;
    enableEvents : bool }.

(** [DEFAULT_OPTIONS] *)
Definition DEFAULT_OPTIONS : Options :=
  {| objectValueSize := 80;
     promiseValueSize := 80;
     arrayValueSize := 40;
     stdTTL := 0;
     checkPeriod := 600;
     useClones := true;
     deleteOnExpire := true;
     maxKeys := -1;
     maxPerformance := false;
     enableStats := true;
     enableEvents := true |}.

(** [_checkTTL = stdTTL !== 0 || checkPeriod !== 0] *)
Definition _checkTTL (o : Options) : bool :=
  negb (stdTTL o =? 0) || negb (checkPeriod o =? 0).

Record State : Type :=
  { data : gmap string WrappedValue;
    dataMap : option (gmap string WrappedValue);
    stats : Stats }.

(** The state the constructor leaves. *)
Definition init (o : Options) : State :=
  {| data := ∅;
     dataMap := if maxPerformance o then Some ∅ else None;
     stats := Stats.zero |}.

Definition with_data (f : gmap string WrappedValue -> gmap string WrappedValue)
    (st : State) : State :=
  {| data := f (data st); dataMap := dataMap st; stats := stats st |}.
Definition with_stats (f : Stats -> Stats) (st : State) : State :=
  {| data := data st; dataMap := dataMap st; stats := f (stats st) |}.

(** [this.dataMap ? this.dataMap.get(keyStr) : this.data[keyStr]]; a
    [Map] has no inherited names. *)
Definition fast_lookup (st : State) (keyStr : string) : Slot :=
  match dataMap st with
  | Some m =>
      match m !! keyStr with
      | Some d => Own d
      | None => Missing
      end
  | None => read_slot (data st) keyStr
  end.

(** [this.dataMap ? this.dataMap.delete(keyStr) : delete this.data[keyStr]] *)
Definition fast_delete (keyStr : string) (st : State) : State :=
  match dataMap st with
  | Some m =>
      {| data := data st; dataMap := Some (delete keyStr m); stats := stats st |}
  | None => with_data (delete keyStr) st
  end.

(** [this.dataMap ? this.dataMap.set(keyStr, w) : this.data[keyStr] = w] *)
Definition fast_store (keyStr : string) (w : WrappedValue) (st : State)
    : State :=
  match dataMap st with
  | Some m =>
      {| data := data st; dataMap := Some (<[keyStr := w]> m); stats := stats st |}
  | None => with_data <[keyStr := w]> st
  end.

(** [_getValLength(value)]; a [Uint8Array] is no [Buffer] and counts
    as an object with one property per index. *)
Definition _getValLength (o : Options) (value : JsValue) : Z :=
  match value with
  | JString s => strlen s
  | JArray items => arrayValueSize o * len items
  | JNumber _ => 8
  | JPromise => promiseValueSize o
  | JBuffer bytes => len bytes
  | JObject fields => objectValueSize o * len fields
  | JUint8Array bytes => objectValueSize o * len bytes
  | JBool _ => 8
  | JUndefined | JNull => 0
  end.

(** [structuredClone(value)]: [None] is the [DataCloneError] it throws
    for a promise, wherever in the value it is; a [Buffer] comes back
    as a [Uint8Array]. *)
Fixpoint structuredClone (value : JsValue) : option JsValue :=
  match value with
  | JPromise => None
  | JBuffer bytes => Some (JUint8Array bytes)
  | JArray items =>
      JArray <$>
        (fix clone_items (l : list JsValue) : option (list JsValue) :=
           match l with
           | [] => Some []
           | x :: rest =>
               match structuredClone x, clone_items rest with
               | Some x', Some rest' => Some (x' :: rest')
               | _, _ => None
               end
           end) items
  | JObject fields =>
      JObject <$>
        (fix clone_fields (l : list (string * JsValue))
           : option (list (string * JsValue)) :=
           match l with
           | [] => Some []
           | (name, x) :: rest =>
               match structuredClone x, clone_fields rest with
               | Some x', Some rest' => Some ((name, x') :: rest')
               | _, _ => None
               end
           end) fields
  | x => Some x
  end.

(** [fastClone(value)], in a runtime that has [structuredClone]. *)
Definition fastClone (value : JsValue) : option JsValue :=
  structuredClone value.

(** [useClones ? fastClone(value) : value], where a value is stored. *)
Definition stored_copy (o : Options) (value : JsValue) : option JsValue :=
  if useClones o then fastClone value else Some value.

(** [useClones ? fastClone(data.v) : data.v], where a stored value is
    handed out.  With [useClones] on every value in the store is a copy
    [structuredClone] has made, and it copies such a value to an equal
    one; a stored value it would reject is handed out as it is. *)
Definition handed_copy (o : Options) (value : JsValue) : JsValue :=
  if useClones o then default value (fastClone value) else value.

(** The expiry [set], [mset] and [_wrap] compute from a ttl that may
    be [undefined]: [0] is infinite, another number counts from [now],
    otherwise the standard ttl applies. *)
Definition livetime_of (o : Options) (now : Z) (ttl : option Z) : Z :=
  match ttl with
  | Some 0 => 0
  | Some n => now + n * 1000
  | None => if stdTTL o =? 0 then 0 else now + stdTTL o * 1000
  end.

(** [_wrap(value, ttl, asClone)] *)
Definition _wrap (o : Options) (now : Z) (value : JsValue) (ttl : option Z)
    : WrappedValue :=
  {| t := livetime_of o now ttl; v := value |}.

(** [_unwrap(value, asClone)] *)
Definition _unwrap (value : WrappedValue) : JsValue :=
  match v value with
  | JUndefined => JNull
  | x => x
  end.

(** [get(key)]; [JUndefined] is the miss.  What an inherited name
    reads is not [undefined] and its [t], which is, is neither [0] nor
    less than the clock: a hit, whose value is the [v] it has not. *)
Definition get (o : Options) (now : Z) (key : Key) (st : State)
    : JsValue * State :=
  let keyStr := key_toString key in
  match fast_lookup st keyStr with
  | Missing =>
      (JUndefined, if enableStats o then with_stats Stats.miss st else st)
  | Own d =>
      if _checkTTL o && negb (t d =? 0) && (t d <? now) then
        let st1 :=
          if enableStats o then
            with_stats
              (fun s =>
                 Stats.add_keys (-1)
                   (Stats.add_ksize (- strlen keyStr)
                      (Stats.add_vsize (- _getValLength o (v d))
                         (Stats.miss s)))) st
          else st in
        let st2 := if deleteOnExpire o then fast_delete keyStr st1 else st1 in
        (JUndefined, st2)
      else
        (handed_copy o (v d),
         if enableStats o then with_stats Stats.hit st else st)
  | Inherited =>
      (JUndefined, if enableStats o then with_stats Stats.hit st else st)
  end.

(** What the body of the loop of [del] does once [this.data[keyStr]] is
    truthy, [old] being the [v] it reads. *)
Definition del_found (o : Options) (keyStr : string) (old : JsValue)
    (st : State) : State :=
  with_data (delete keyStr)
    (with_stats
       (fun s =>
          Stats.add_keys (-1)
            (Stats.add_ksize (- strlen keyStr)
               (Stats.add_vsize (- _getValLength o old) s))) st).

(** One iteration of the loop of [del].  An inherited name is truthy
    as well: the counters are lowered and the deletion is counted,
    although [delete] finds no own property to remove. *)
Definition del_step (o : Options) (acc : Z * State) (key : Key) : Z * State :=
  let '(delCount, st) := acc in
  let keyStr := key_toString key in
  match read_slot (data st) keyStr with
  | Own d => (delCount + 1, del_found o keyStr (v d) st)
  | Inherited => (delCount + 1, del_found o keyStr JUndefined st)
  | Missing => (delCount, st)
  end.

(** [del(keys)]; a single key is the one-element list.  Both forms of a
    key pass [_isInvalidKey]. *)
Definition del (o : Options) (keys : list Key) (st : State) : Z * State :=
  foldl (del_step o) (0, st) keys.

(** One iteration of the loop of [mget].  The [t] of what an inherited
    name reads is [undefined], neither [0] nor at least the clock: the
    name goes the way of an expired entry. *)
Definition mget_step (o : Options) (now : Z)
    (acc : gmap string JsValue * State) (key : Key)
    : gmap string JsValue * State :=
  let '(result, st) := acc in
  let keyStr := key_toString key in
  let expired_miss :=
    let st1 := with_stats Stats.miss st in
    (result, if deleteOnExpire o then snd (del o [key] st1) else st1) in
  match read_slot (data st) keyStr with
  | Own d =>
      if (t d =? 0) || (t d >=? now) then
        (<[keyStr := handed_copy o (v d)]> result, with_stats Stats.hit st)
      else expired_miss
  | Inherited => expired_miss
  | Missing => (result, with_stats Stats.miss st)
  end.

(** [mget(keys)] *)
Definition mget (o : Options) (now : Z) (keys : list Key) (st : State)
    : gmap string JsValue * State :=
  foldl (mget_step o now) (∅, st) keys.

(** [set(key, value, ttl)]; a ttl given as a string is taken after
    [Number.parseInt].  The copy is made after the size of the old
    value has been taken off, and it is the size of the value given,
    not that of its copy, that is added. *)
Definition set (o : Options) (now : Z) (key : Key) (value : JsValue)
    (ttl : option Z) (st : State) : Outcome bool State :=
  let keyStr := key_toString key in
  let oldData := fast_lookup st keyStr in
  let existent := found oldData in
  if negb existent && negb (maxKeys o =? 0) && (maxKeys o >? -1)
     && (Stats.keys (stats st) >=? maxKeys o) then
    Thrown ECACHEFULL st
  else
    let livetime := if _checkTTL o then livetime_of o now ttl else 0 in
    let st1 :=
      if enableStats o && existent then
        with_stats (Stats.add_vsize (- _getValLength o (slot_v oldData))) st
      else st in
    match stored_copy o value with
    | None => Thrown DataCloneError st1
    | Some copy =>
        let st2 := fast_store keyStr {| t := livetime; v := copy |} st1 in
        let st3 :=
          if enableStats o then
            let st' :=
              with_stats (Stats.add_vsize (_getValLength o value)) st2 in
            if existent then st'
            else
              with_stats (Stats.add_keys 1)
                (with_stats (Stats.add_ksize (strlen keyStr)) st')
          else st2 in
        Returned true st3
    end.

(** The first loop of [mset]: the entries for which the store reads
    [undefined]. *)
Definition newKeysCount (entries : list (Key * JsValue * option Z))
    (st : State) : Z :=
  len (List.filter
         (fun '(key, _, _) =>
            negb (found (read_slot (data st) (key_toString key))))
         entries).

(** The second loop of [mset]; a value [structuredClone] rejects ends
    it, with the entries before it written. *)
Fixpoint mset_loop (o : Options) (now : Z)
    (entries : list (Key * JsValue * option Z)) (st : State)
    : Outcome bool State :=
  match entries with
  | [] => Returned true st
  | (key, val, ttl) :: rest =>
      let keyStr := key_toString key in
      let oldData := read_slot (data st) keyStr in
      let existent := found oldData in
      let livetime := livetime_of o now ttl in
      let st1 :=
        if existent then
          with_stats (Stats.add_vsize (- _getValLength o (slot_v oldData))) st
        else st in
      match stored_copy o val with
      | None => Thrown DataCloneError st1
      | Some copy =>
          let st2 :=
            with_data <[keyStr := {| t := livetime; v := copy |}]> st1 in
          let st3 := with_stats (Stats.add_vsize (_getValLength o val)) st2 in
          let st4 :=
            if existent then st3
            else
              with_stats (Stats.add_keys 1)
                (with_stats (Stats.add_ksize (strlen keyStr)) st3) in
          mset_loop o now rest st4
      end
  end.

(** [mset(keyValueSet)] *)
Definition mset (o : Options) (now : Z)
    (keyValueSet : list (Key * JsValue * option Z)) (st : State)
    : Outcome bool State :=
  if negb (maxKeys o =? 0) && (maxKeys o >? -1)
     && (Stats.keys (stats st) + newKeysCount keyValueSet st >? maxKeys o)
  then Thrown ECACHEFULL st
  else mset_loop o now keyValueSet st.

(** [take(key)] *)
Definition take (o : Options) (now : Z) (key : Key) (st : State)
    : JsValue * State :=
  let '(value, st1) := get o now key st in
  match value with
  | JUndefined => (value, st1)
  | _ => (value, snd (del o [key] st1))
  end.

(** [_check(key, data)] *)
Definition _check (o : Options) (now : Z) (key : string) (d : WrappedValue)
    (st : State) : bool * State :=
  if expired now d then
    if deleteOnExpire o then (false, snd (del o [KStr key] st))
    else (true, st)
  else (true, st).

(** [this.data[keyStr] && this._check(keyStr, this.data[keyStr])], the
    test of [ttl] and [getTtl]; for an inherited name [_check] reads
    [data.t] as [undefined] and answers true. *)
Definition checked (o : Options) (now : Z) (keyStr : string) (st : State)
    : bool * State :=
  match read_slot (data st) keyStr with
  | Own d => _check o now keyStr d st
  | Inherited => (true, st)
  | Missing => (false, st)
  end.

(** [ttl(key, ttl)]; [ttl] is [None] when the argument is left out.
    For an inherited name the [v] that is wrapped is [undefined]. *)
Definition ttl (o : Options) (now : Z) (key : Key) (ttl : option Z)
    (st : State) : bool * State :=
  let ttlValue := match ttl with Some n => n | None => stdTTL o end in
  if negb (key_truthy key) then (false, st)
  else
    let keyStr := key_toString key in
    let '(ok, st1) := checked o now keyStr st in
    if ok then
      if negb (ttlValue =? 0) && (ttlValue >=? 0) then
        (true,
         with_data
           <[keyStr := _wrap o now (slot_v (read_slot (data st1) keyStr))
                         (Some ttlValue)]> st1)
      else (true, snd (del o [key] st1))
    else (false, st1).

(** [getTtl(key)]; [None] is [undefined], which is also the [t] of what
    an inherited name reads. *)
Definition getTtl (o : Options) (now : Z) (key : Key) (st : State)
    : option Z * State :=
  if negb (key_truthy key) then (None, st)
  else
    let keyStr := key_toString key in
    let '(ok, st1) := checked o now keyStr st in
    if ok then (t <$> data st1 !! keyStr, st1) else (None, st1).

(** [keys()] *)
Definition keys (st : State) : list string :=
  map fst (map_to_list (data st)).

(** [has(key)]; the [t] of what an inherited name reads is
    [undefined], neither [0] nor at least the clock. *)
Definition has (o : Options) (now : Z) (key : Key) (st : State) : bool :=
  match fast_lookup st (key_toString key) with
  | Own d =>
      if negb (_checkTTL o) then true
      else (t d =? 0) || (t d >=? now)
  | Inherited => negb (_checkTTL o)
  | Missing => false
  end.

(** [getStats()] *)
Definition getStats (st : State) : Stats := stats st.

(** [_checkData()], the periodic sweep (its rescheduling left out). *)
Definition _checkData (o : Options) (now : Z) (st : State) : State :=
  foldl (fun st1 '(key, d) => snd (_check o now key d st1))
        st (map_to_list (data st)).

(** [flushAll()] *)
Definition flushAll (o : Options) (now : Z) (st : State) : State :=
  _checkData o now
    {| data := ∅; dataMap := dataMap st; stats := Stats.zero |}.

(** [flushStats()] *)
Definition flushStats (st : State) : State :=
  {| data := data st; dataMap := dataMap st; stats := Stats.zero |}.

(** What [fetch] is given to fetch from: a value, or a function, which
    is given by the value it returns; the code calls it on a miss
    only. *)
Inductive FetchSource : Type :=
| FetchValue (value : JsValue)
| FetchFunction (result : JsValue).

(** The two call shapes of [fetch]: [fetch(key, source)] and
    [fetch(key, ttl, source)], the ttl being a number. *)
Inductive FetchArgs : Type :=
| FetchFrom (source : FetchSource)
| FetchWithTtl (ttl : Z) (source : FetchSource).

(** [typeof valueToFetch === 'function' ? valueToFetch() : valueToFetch] *)
Definition fetched (source : FetchSource) : JsValue :=
  match source with
  | FetchValue value => value
  | FetchFunction result => result
  end.

(** [fetch(key, ttlOrValue, value)].  When the third argument is the
    value [undefined] the code reads the second, the ttl, as the value
    to store; a function is no such value, whatever it returns.  What
    an inherited name reads is not [undefined], but its [t] is: a
    miss.  The counters are moved whether or not [enableStats] is on. *)
Definition fetch (o : Options) (now : Z) (key : Key) (args : FetchArgs)
    (st : State) : Outcome JsValue State :=
  let keyStr := key_toString key in
  let cached :=
    match read_slot (data st) keyStr with
    | Own d => if (t d =? 0) || (t d >=? now) then Some d else None
    | Inherited | Missing => None
    end in
  match cached with
  | Some d => Returned (handed_copy o (v d)) (with_stats Stats.hit st)
  | None =>
      let st1 := with_stats Stats.miss st in
      let '(ttl, valueToFetch) :=
        match args with
        | FetchFrom source => (None, source)
        | FetchWithTtl n (FetchValue JUndefined) =>
            (None, FetchValue (JNumber n))
        | FetchWithTtl n source => (Some n, source)
        end in
      let resultValue := fetched valueToFetch in
      match set o now key resultValue ttl st1 with
      | Returned _ st2 => Returned resultValue st2
      | Thrown e st2 => Thrown e st2
      end
  end.

End Cache.

(** ** The driver interface and the CacheManager (src/manager.ts) *)

Module Driver.

(** [interface CacheDriver] (src/drivers/types.ts), over the state [S] of
    the driver.  The three tag operations are optional; [close] only
    stops the timer of the sweep and is left out. *)
Record CacheDriver (S : Type) : Type :=
  { get : Z -> Key -> S -> JsValue * S;
    mget : Z -> list Key -> S -> gmap string JsValue * S;
    set : Z -> Key -> JsValue -> option Z -> S -> Outcome bool S;
    mset : Z -> list (Key * JsValue * option Z) -> S -> Outcome bool S;
    del : list Key -> S -> Z * S;
    has : Z -> Key -> S -> bool * S;
    keys : Z -> option string -> S -> list string * S;
    getTtl : Z -> Key -> S -> option Z * S;
    ttl : Z -> Key -> Z -> S -> bool * S;
    flush : S -> S;
    getStats : S -> Stats;
    getKeysByTag : option (Z -> string -> S -> list string * S);
    tag : option (Key -> list string -> S -> bool * S);
    deleteByTag : option (Z -> string -> S -> Z * S) }.
Arguments get {S}.
Arguments mget {S}.
Arguments set {S}.
Arguments mset {S}.
Arguments del {S}.
Arguments has {S}.
Arguments keys {S}.
Arguments getTtl {S}.
Arguments ttl {S}.
Arguments flush {S}.
Arguments getStats {S}.
Arguments getKeysByTag {S}.
Arguments tag {S}.
Arguments deleteByTag {S}.

End Driver.
Export Driver(CacheDriver).

(** [class MemoryDriver implements CacheDriver] *)
Definition memory_driver (o : MemoryDriverOptions)
    : CacheDriver MemoryDriver.State :=
  {| Driver.get := MemoryDriver.get o;
     Driver.mget := MemoryDriver.mget o;
     Driver.set := MemoryDriver.set o;
     Driver.mset := MemoryDriver.mset o;
     Driver.del := MemoryDriver.del o;
     Driver.has := MemoryDriver.has o;
     Driver.keys := MemoryDriver.keys o;
     Driver.getTtl := MemoryDriver.getTtl o;
     Driver.ttl := MemoryDriver.ttl o;
     Driver.flush := MemoryDriver.flush;
     Driver.getStats := MemoryDriver.getStats;
     Driver.getKeysByTag := Some (MemoryDriver.getKeysByTag o);
     Driver.tag := Some (MemoryDriver.tag o);
     Driver.deleteByTag := Some (MemoryDriver.deleteByTag o) |}.

(** [class MemoryLRUDriver implements CacheDriver]; its [set] and [mset]
    never throw. *)
Definition memory_lru_driver (o : MemoryDriverOptions)
    : CacheDriver MemoryLRUDriver.State :=
  {| Driver.get := MemoryLRUDriver.get o;
     Driver.mget := MemoryLRUDriver.mget o;
     Driver.set := fun now key value ttl st =>
       let '(r, st1) := MemoryLRUDriver.set o now key value ttl st in
       Returned r st1;
     Driver.mset := fun now entries st =>
       let '(r, st1) := MemoryLRUDriver.mset o now entries st in
       Returned r st1;
     Driver.del := MemoryLRUDriver.del o;
     Driver.has := MemoryLRUDriver.has o;
     Driver.keys := MemoryLRUDriver.keys o;
     Driver.getTtl := MemoryLRUDriver.getTtl o;
     Driver.ttl := MemoryLRUDriver.ttl o;
     Driver.flush := MemoryLRUDriver.flush;
     Driver.getStats := MemoryLRUDriver.getStats;
     Driver.getKeysByTag := Some (MemoryLRUDriver.getKeysByTag o);
     Driver.tag := Some (MemoryLRUDriver.tag o);
     Driver.deleteByTag := Some (MemoryLRUDriver.deleteByTag o) |}.

Module CacheManager.

Section Manager.
Context {S : Type} (driver : CacheDriver S).

(** [get(key)]: the driver's answer; the events it emits are left out,
    here and below. *)
Definition get (now : Z) (key : Key) (st : S) : JsValue * S :=
  Driver.get driver now key st.

(** [mget(keys)] *)
Definition mget (now : Z) (keys : list Key) (st : S)
    : gmap string JsValue * S :=
  Driver.mget driver now keys st.

(** [set(key, value, ttl)] *)
Definition set (now : Z) (key : Key) (value : JsValue) (ttl : option Z)
    (st : S) : Outcome bool S :=
  Driver.set driver now key value ttl st.

(** [mset(entries)] *)
Definition mset (now : Z) (entries : list (Key * JsValue * option Z)) (st : S)
    : Outcome bool S :=
  Driver.mset driver now entries st.

(** [del(keys)] *)
Definition del (keys : list Key) (st : S) : Z * S :=
  Driver.del driver keys st.

(** [has(key)] *)
Definition has (now : Z) (key : Key) (st : S) : bool * S :=
  Driver.has driver now key st.

(** [keys(pattern)] *)
Definition keys (now : Z) (pattern : option string) (st : S)
    : list string * S :=
  Driver.keys driver now pattern st.

(** [getTtl(key)] *)
Definition getTtl (now : Z) (key : Key) (st : S) : option Z * S :=
  Driver.getTtl driver now key st.

(** [ttl(key, ttl)] *)
Definition ttl (now : Z) (key : Key) (ttl : Z) (st : S) : bool * S :=
  Driver.ttl driver now key ttl st.

(** [take(key)] *)
Definition take (now : Z) (key : Key) (st : S) : JsValue * S :=
  let '(value, st1) := Driver.get driver now key st in
  match value with
  | JUndefined => (value, st1)
  | _ => (value, snd (Driver.del driver [key] st1))
  end.

(** [fetch(key, fetcher, ttl)]; the fetcher is given by the value it
    returns, and the code calls it on a miss only. *)
Definition fetch (now : Z) (key : Key) (fetched : JsValue) (ttl : option Z)
    (st : S) : Outcome JsValue S :=
  let '(cached, st1) := get now key st in
  match cached with
  | JUndefined =>
      match set now key fetched ttl st1 with
      | Returned _ st2 => Returned fetched st2
      | Thrown e st2 => Thrown e st2
      end
  | _ => Returned cached st1
  end.

(** [remember(key, ttl, fetcher)] *)
Definition remember (now : Z) (key : Key) (ttl : option Z) (fetched : JsValue)
    (st : S) : Outcome JsValue S :=
  fetch now key fetched ttl st.

(** [rememberForever(key, fetcher)] *)
Definition rememberForever (now : Z) (key : Key) (fetched : JsValue) (st : S)
    : Outcome JsValue S :=
  fetch now key fetched (Some 0) st.

(** [flush()] *)
Definition flush (st : S) : S := Driver.flush driver st.

(** [getStats()] *)
Definition getStats (st : S) : Stats := Driver.getStats driver st.

(** [tag(key, tags)] *)
Definition tag (key : Key) (tagNames : list string) (st : S) : bool * S :=
  match Driver.tag driver with
  | Some f => f key tagNames st
  | None => (false, st)
  end.

(** [getKeysByTag(tag)] *)
Definition getKeysByTag (now : Z) (tagName : string) (st : S)
    : list string * S :=
  match Driver.getKeysByTag driver with
  | Some f => f now tagName st
  | None => ([], st)
  end.

(** [deleteByTag(tag)] *)
Definition deleteByTag (now : Z) (tagName : string) (st : S) : Z * S :=
  match Driver.deleteByTag driver with
  | Some f => f now tagName st
  | None => (0, st)
  end.

End Manager.

End CacheManager.

(** ** CacheLock (src/utils) *)

Module CacheLock.

Section Lock.
Context {S : Type} (driver : CacheDriver S) (lockTimeout : Z).

(** [`lock:${resource}`] *)
Definition lockKey (resource : string) : Key :=
  KStr ("lock:" ++ resource).

(** [acquire(resource, ttl)]; the value stored is the clock reading,
    and a [ttl] left out stands for [lockTimeout]. *)
Definition acquire (now : Z) (resource : string) (ttl : option Z) (st : S)
    : Outcome bool S :=
  let key := lockKey resource in
  let '(hasLock, st1) := CacheManager.has driver now key st in
  if hasLock then Returned false st1
  else
    match CacheManager.set driver now key (JNumber now)
            (Some (default lockTimeout ttl)) st1 with
    | Returned _ st2 => Returned true st2
    | Thrown e st2 => Thrown e st2
    end.

(** [release(resource)] *)
Definition release (resource : string) (st : S) : S :=
  snd (CacheManager.del driver [lockKey resource] st).

End Lock.

End CacheLock.

(** ** CacheInvalidation (src/utils) *)

Module CacheInvalidation.

Section Invalidation.
Context {S : Type} (driver : CacheDriver S).

(** [invalidateByPattern(pattern)] *)
Definition invalidateByPattern (now : Z) (pattern : string) (st : S) : Z * S :=
  let '(keys, st1) := CacheManager.keys driver now (Some pattern) st in
  match keys with
  | [] => (0, st1)
  | _ => CacheManager.del driver (map KStr keys) st1
  end.


(** [invalidateByPatterns(patterns)] *)
Definition invalidateByPatterns (now : Z) (patterns : list string) (st : S)
    : Z * S :=
  foldl (fun '(total, st1) pattern =>
           let '(n, st2) := invalidateByPattern now pattern st1 in
           (total + n, st2))
        (0, st) patterns.

End Invalidation.

End CacheInvalidation.

(** ** BatchOperations (src/utils) *)

Module BatchOperations.

(** [Array.prototype.slice(start, end)], on whole numbers: a negative
    index counts from the end. *)
Definition slice_array {A : Type} (start finish : Z) (l : list A) : list A :=
  let len := Z.of_nat (length l) in
  let from := if start <? 0 then Z.max (len + start) 0 else Z.min start len in
  let to := if finish <? 0 then Z.max (len + finish) 0 else Z.min finish len in
  take (Z.to_nat (to - from)) (drop (Z.to_nat from) l).

Section Batch.
Context {St : Type} (driver : CacheDriver St) (batchSize : Z).

(** The loop of [deleteBatch], [i] being its counter and [total] its
    sum; [None] when the fuel runs out before the loop ends. *)
Fixpoint deleteBatch_loop (fuel : nat) (keys : list Key) (i total : Z)
    (st : St) : option (Z * St) :=
  if i <? len keys then
    match fuel with
    | O => None
    | S fuel' =>
        let batch := slice_array i (i + batchSize) keys in
        let '(n, st1) := CacheManager.del driver batch st in
        deleteBatch_loop fuel' keys (i + batchSize) (total + n) st1
    end
  else Some (total, st).

(** [deleteBatch(keys)] *)
Definition deleteBatch (fuel : nat) (keys : list Key) (st : St)
    : option (Z * St) :=
  deleteBatch_loop fuel keys 0 0 st.

End Batch.

End BatchOperations.

(** * The vocabulary of the specification *)

(** ** Configurations and runs used by the concrete statements *)

(** A driver configuration with the constructor's defaults, a given
    [maxKeys] and a given [deleteOnExpire]. *)
Definition driver_options (maxKeys : Z) (deleteOnExpire : bool)
    : MemoryDriverOptions :=
  {| stdTTL := 0; prefix := ""; checkPeriod := 600;
     deleteOnExpire := deleteOnExpire; maxKeys := maxKeys; useClones := true |}.

(** The engine's defaults with a given [maxKeys] and [deleteOnExpire]. *)
Definition cache_options (maxKeys : Z) (deleteOnExpire : bool) : Cache.Options :=
  {| Cache.objectValueSize := 80; Cache.promiseValueSize := 80;
     Cache.arrayValueSize := 40; Cache.stdTTL := 0; Cache.checkPeriod := 600;
     Cache.useClones := true; Cache.deleteOnExpire := deleteOnExpire;
     Cache.maxKeys := maxKeys; Cache.maxPerformance := false;
     Cache.enableStats := true; Cache.enableEvents := true |}.


(** ** Entries, counts and globs *)


(** The full key of a key whose string form is [s]; [getFullKey]
    depends on the key through its string form only. *)
Definition full_key (o : MemoryDriverOptions) (s : string) : string :=
  if String.eqb (prefix o) "" then s else (prefix o ++ ":" ++ s)%string.

(** The entries a driver serves: those not expired, and the expired ones
    too while [deleteOnExpire] is off. *)
Definition served (o : MemoryDriverOptions) (now : Z) (d : WrappedValue) : bool :=
  negb (expired now d) || negb (deleteOnExpire o).

(** The number of keys of a list for which [st] holds a served entry;
    [entry] reads the served entries of a state and [key_of] gives the
    name under which a key is stored. *)
Definition count_entries {S : Type}
    (entry : S -> string -> option WrappedValue) (key_of : Key -> string)
    (st : S) (keys : list Key) : Z :=
  len (filter (fun key => is_Some (entry st (key_of key))) keys).

(** The entry a [MemoryDriver] serves under a full key, if any. *)
Definition md_entry (o : MemoryDriverOptions) (now : Z)
    (st : MemoryDriver.State) (fullKey : string) : option WrappedValue :=
  match MemoryDriver.data st !! fullKey with
  | Some d => if served o now d then Some d else None
  | None => None
  end.



(** No key of the list has the name of a property every object
    inherits. *)
Definition plain_keys (keys : list Key) : Prop :=
  Forall (fun key => inherited (key_toString key) = false) keys.


(** What the test of the [MemoryDriver] answers for a full key: for a
    stored entry whether it is served, and where nothing is stored
    whether the name is one every object inherits. *)
Definition md_found (o : MemoryDriverOptions) (now : Z)
    (st : MemoryDriver.State) (fullKey : string) : bool :=
  match read_slot (MemoryDriver.data st) fullKey with
  | Own d => served o now d
  | Inherited => true
  | Missing => false
  end.

(** What the lazy check does to an entry it finds expired. *)
Definition md_expire (fullKey : string) (st : MemoryDriver.State)
    : MemoryDriver.State :=
  MemoryDriver.with_stats (Stats.add_keys (-1))
    (MemoryDriver.with_data (delete fullKey) st).


(** The wrapped value stored under a full key, read through the node. *)
Definition lru_value (st : MemoryLRUDriver.State) (fullKey : string)
    : option WrappedValue :=
  match MemoryLRUDriver.lookup_node st fullKey with
  | Some (_, nd) => Some (MemoryLRUDriver.Node.value nd)
  | None => None
  end.

(** The entry the LRU driver serves under a full key, if any. *)
Definition lru_entry (o : MemoryDriverOptions) (now : Z)
    (st : MemoryLRUDriver.State) (fullKey : string) : option WrappedValue :=
  match lru_value st fullKey with
  | Some d => if served o now d then Some d else None
  | None => None
  end.

(** What the lazy check does to the node [n] of an expired entry. *)
Definition lru_expire (n : nat) (fullKey : string) (st : MemoryLRUDriver.State)
    : MemoryLRUDriver.State :=
  MemoryLRUDriver.with_stats (Stats.add_keys (-1))
    (MemoryLRUDriver.with_data (delete fullKey)
       (MemoryLRUDriver.removeNode n st)).


(** The entry stored under a key string and not expired, if any. *)
Definition cache_entry (now : Z) (st : Cache.State) (keyStr : string)
    : option WrappedValue :=
  match Cache.data st !! keyStr with
  | Some d => if expired now d then None else Some d
  | None => None
  end.

(** What [del] does to the entry [d] it finds under [keyStr]. *)
Definition cache_remove (o : Cache.Options) (keyStr : string) (d : WrappedValue)
    (st : Cache.State) : Cache.State :=
  Cache.with_data (delete keyStr)
    (Cache.with_stats
       (fun s =>
          Stats.add_keys (-1)
            (Stats.add_ksize (- strlen keyStr)
               (Stats.add_vsize (- Cache._getValLength o (v d)) s))) st).


(** Glob matching as the specification words it: [*] matches any run of
    characters, [?] matches exactly one character, and any other
    character matches itself.  [any] says which characters a wildcard
    may stand for. *)
Inductive glob_matches (any : ascii -> bool) : string -> string -> Prop :=
| glob_end : glob_matches any "" ""
| glob_star pattern key :
    glob_matches any pattern key ->
    glob_matches any (String "*" pattern) key
| glob_star_more pattern c key :
    any c = true ->
    glob_matches any (String "*" pattern) key ->
    glob_matches any (String "*" pattern) (String c key)
| glob_one pattern c key :
    any c = true ->
    glob_matches any pattern key ->
    glob_matches any (String "?" pattern) (String c key)
| glob_same c pattern key :
    c <> "*"%char -> c <> "?"%char ->
    glob_matches any pattern key ->
    glob_matches any (String c pattern) (String c key).

(** The wildcards of the drivers stand for every character but the line
    terminators. *)
Definition not_line_terminator (c : ascii) : bool :=
  negb (Glob.is_line_terminator c).

(** The regular expression a pattern stands for, character by
    character. *)
Definition atom_of (c : ascii) : Glob.Atom :=
  if Ascii.eqb c "*" then Glob.AnyRun
  else if Ascii.eqb c "?" then Glob.AnyChar
  else Glob.Lit c.

(** The regular expression a whole pattern stands for. *)
Fixpoint atoms_of (pattern : string) : list Glob.Atom :=
  match pattern with
  | EmptyString => []
  | String c rest => atom_of c :: atoms_of rest
  end.

(** Whether a text begins with a star. *)
Definition leading_star (s : string) : bool :=
  match s with
  | String c _ => Ascii.eqb c "*"
  | EmptyString => false
  end.


(** The five calls of the scenario, then [keys()] and [has("b")], in an
    LRU driver of capacity 3; [nows] are the clock readings of the seven
    calls and every entry is stored with ttl 0, which is infinite. *)
Definition lru_scenario (o : MemoryDriverOptions) (va vb vc vd : JsValue)
    (n1 n2 n3 n4 n5 n6 n7 : Z) : list string * bool :=
  let st1 := snd (MemoryLRUDriver.set o n1 (KStr "a") va (Some 0)
                    MemoryLRUDriver.init) in
  let st2 := snd (MemoryLRUDriver.set o n2 (KStr "b") vb (Some 0) st1) in
  let st3 := snd (MemoryLRUDriver.set o n3 (KStr "c") vc (Some 0) st2) in
  let st4 := snd (MemoryLRUDriver.get o n4 (KStr "a") st3) in
  let st5 := snd (MemoryLRUDriver.set o n5 (KStr "d") vd (Some 0) st4) in
  let '(ks, st6) := MemoryLRUDriver.keys o n6 None st5 in
  (ks, fst (MemoryLRUDriver.has o n7 (KStr "b") st6)).

(** ** Sequences of calls on the Cache engine *)

(** A call of one of the operations of the [Cache] engine; [CallCheckData]
    is a run of the periodic sweep. *)
Inductive CacheCall : Type :=
| CallGet (key : Key)
| CallMget (keys : list Key)
| CallSet (key : Key) (value : JsValue) (ttl : option Z)
| CallFetch (key : Key) (args : Cache.FetchArgs)
| CallMset (keyValueSet : list (Key * JsValue * option Z))
| CallDel (keys : list Key)
| CallTake (key : Key)
| CallTtl (key : Key) (ttl : option Z)
| CallGetTtl (key : Key)
| CallHas (key : Key)
| CallKeys
| CallCheckData
| CallFlushAll
| CallFlushStats.

(** The state a call leaves, whether it returns or throws. *)
Definition cache_call (o : Cache.Options) (now : Z) (c : CacheCall)
    (st : Cache.State) : Cache.State :=
  match c with
  | CallGet key => snd (Cache.get o now key st)
  | CallMget keys => snd (Cache.mget o now keys st)
  | CallSet key value ttl => outcome_state (Cache.set o now key value ttl st)
  | CallFetch key args => outcome_state (Cache.fetch o now key args st)
  | CallMset keyValueSet => outcome_state (Cache.mset o now keyValueSet st)
  | CallDel keys => snd (Cache.del o keys st)
  | CallTake key => snd (Cache.take o now key st)
  | CallTtl key ttl => snd (Cache.ttl o now key ttl st)
  | CallGetTtl key => snd (Cache.getTtl o now key st)
  | CallHas key => st
  | CallKeys => st
  | CallCheckData => Cache._checkData o now st
  | CallFlushAll => Cache.flushAll o now st
  | CallFlushStats => Cache.flushStats st
  end.

(** The keys a call names. *)
Definition call_keys (c : CacheCall) : list Key :=
  match c with
  | CallGet key | CallSet key _ _ | CallFetch key _ | CallTake key
  | CallTtl key _ | CallGetTtl key | CallHas key => [key]
  | CallMget keys | CallDel keys => keys
  | CallMset keyValueSet => map (fun e => e.1.1) keyValueSet
  | CallKeys | CallCheckData | CallFlushAll | CallFlushStats => []
  end.

(** The value [fetch] stores on a miss. *)
Definition fetch_stores (args : Cache.FetchArgs) : JsValue :=
  match args with
  | Cache.FetchFrom source => Cache.fetched source
  | Cache.FetchWithTtl n (Cache.FetchValue JUndefined) => JNumber n
  | Cache.FetchWithTtl n source => Cache.fetched source
  end.

(** The values a call gives to store. *)
Definition call_values (c : CacheCall) : list JsValue :=
  match c with
  | CallSet _ value _ => [value]
  | CallFetch _ args => [fetch_stores args]
  | CallMset keyValueSet => map (fun e => e.1.2) keyValueSet
  | _ => []
  end.

(** A call other than [flushStats] none of whose keys is a name
    inherited from [Object.prototype]. *)
Definition plain_call (c : CacheCall) : bool :=
  match c with
  | CallFlushStats => false
  | _ => forallb (fun key => negb (inherited (key_toString key))) (call_keys c)
  end.

(** A value whose copy is made and has the size estimate of the value
    itself: one with no promise inside that is no [Buffer], or any
    value when [useClones] is off. *)
Definition same_size_copy (o : Cache.Options) (value : JsValue) : bool :=
  match Cache.stored_copy o value with
  | Some copy => Cache._getValLength o copy =? Cache._getValLength o value
  | None => false
  end.

(** A call all of whose values are such values. *)
Definition sized_call (o : Cache.Options) (c : CacheCall) : bool :=
  forallb (same_size_copy o) (call_values c).

(** The state of a fresh cache after a sequence of calls, each made at
    its own clock reading. *)
Definition cache_after (o : Cache.Options) (calls : list (Z * CacheCall))
    : Cache.State :=
  foldl (fun st '(now, c) => cache_call o now c st) (Cache.init o) calls.

(** The sum of a weight over the entries of a map. *)
Definition map_sum {A : Type} (w : string -> A -> Z) (m : gmap string A) : Z :=
  map_fold (fun k x acc => w k x + acc) 0 m.

(** The counters of the [Cache] engine say exactly what is stored. *)
Definition cache_stats_exact (o : Cache.Options) (st : Cache.State) : Prop :=
  Stats.keys (Cache.stats st) = Z.of_nat (size (Cache.data st))
  /\ Stats.ksize (Cache.stats st)
     = map_sum (fun k _ => strlen k) (Cache.data st)
  /\ Stats.vsize (Cache.stats st)
     = map_sum (fun _ d => Cache._getValLength o (v d)) (Cache.data st).

(** The store is the plain object and holds no inherited name, the
    counters of the keys are exact and so is, when [sized] is set, that
    of the values; and when the cache is bounded the key counter is
    within the bound. *)
Definition cache_consistent (sized : bool) (o : Cache.Options)
    (st : Cache.State) : Prop :=
  Cache.dataMap st = None
  /\ Stats.keys (Cache.stats st) = Z.of_nat (size (Cache.data st))
  /\ Stats.ksize (Cache.stats st)
     = map_sum (fun k _ => strlen k) (Cache.data st)
  /\ (sized = true ->
      Stats.vsize (Cache.stats st)
      = map_sum (fun _ d => Cache._getValLength o (v d)) (Cache.data st))
  /\ (0 < Cache.maxKeys o -> Stats.keys (Cache.stats st) <= Cache.maxKeys o)
  /\ (forall k, is_Some (Cache.data st !! k) -> inherited k = false).

(** ** Sequences of calls on a driver, through the CacheManager *)

(** A call of one of the operations of the [CacheManager]; [CallSweep]
    is a run of the periodic sweep of the driver behind it. *)
Inductive ManagerCall : Type :=
| MGet (key : Key)
| MMget (keys : list Key)
| MSet (key : Key) (value : JsValue) (ttl : option Z)
| MMset (entries : list (Key * JsValue * option Z))
| MDel (keys : list Key)
| MHas (key : Key)
| MKeys (pattern : option string)
| MGetTtl (key : Key)
| MTtl (key : Key) (ttl : Z)
| MTake (key : Key)
| MFetch (key : Key) (fetched : JsValue) (ttl : option Z)
| MFlush
| MTag (key : Key) (tagNames : list string)
| MGetKeysByTag (tagName : string)
| MDeleteByTag (tagName : string)
| MSweep.

(** The state a call leaves, whether it returns or throws; [sweep] is
    the sweep of the driver. *)
Definition manager_call {S : Type} (driver : CacheDriver S)
    (sweep : Z -> S -> S) (now : Z) (c : ManagerCall) (st : S) : S :=
  match c with
  | MGet key => snd (CacheManager.get driver now key st)
  | MMget keys => snd (CacheManager.mget driver now keys st)
  | MSet key value ttl => outcome_state (CacheManager.set driver now key value ttl st)
  | MMset entries => outcome_state (CacheManager.mset driver now entries st)
  | MDel keys => snd (CacheManager.del driver keys st)
  | MHas key => snd (CacheManager.has driver now key st)
  | MKeys pattern => snd (CacheManager.keys driver now pattern st)
  | MGetTtl key => snd (CacheManager.getTtl driver now key st)
  | MTtl key ttl => snd (CacheManager.ttl driver now key ttl st)
  | MTake key => snd (CacheManager.take driver now key st)
  | MFetch key fetched ttl =>
      outcome_state (CacheManager.fetch driver now key fetched ttl st)
  | MFlush => CacheManager.flush driver st
  | MTag key tagNames => snd (CacheManager.tag driver key tagNames st)
  | MGetKeysByTag tagName => snd (CacheManager.getKeysByTag driver now tagName st)
  | MDeleteByTag tagName => snd (CacheManager.deleteByTag driver now tagName st)
  | MSweep => sweep now st
  end.

(** The state of a fresh [MemoryDriver] after a sequence of calls, each
    made at its own clock reading. *)
Definition memory_after (o : MemoryDriverOptions)
    (calls : list (Z * ManagerCall)) : MemoryDriver.State :=
  foldl (fun st '(now, c) =>
           manager_call (memory_driver o) (MemoryDriver.checkAllData o) now c st)
        MemoryDriver.init calls.

(** The state of a fresh [MemoryLRUDriver] after a sequence of calls. *)
Definition lru_after (o : MemoryDriverOptions)
    (calls : list (Z * ManagerCall)) : MemoryLRUDriver.State :=
  foldl (fun st '(now, c) =>
           manager_call (memory_lru_driver o) (MemoryLRUDriver.checkAllData o)
             now c st)
        MemoryLRUDriver.init calls.

(** The key counter of a [MemoryDriver] is the number of stored
    entries. *)
Definition memory_keys_exact (st : MemoryDriver.State) : Prop :=
  Stats.keys (MemoryDriver.stats st) = Z.of_nat (size (MemoryDriver.data st)).

(** Every stored key is the full key of the key [stripPrefix] makes of
    it. *)
Definition memory_names (o : MemoryDriverOptions) (st : MemoryDriver.State)
    : Prop :=
  forall fullKey,
    is_Some (MemoryDriver.data st !! fullKey) ->
    full_key o (stripPrefix o fullKey) = fullKey.

(** The stored keys are such full keys; and, when [counted] is set, the
    key counter of the [MemoryDriver] is exact and within the bound of
    a bounded driver, and no tagged name is an inherited one. *)
Definition memory_within (counted : bool) (o : MemoryDriverOptions)
    (st : MemoryDriver.State) : Prop :=
  memory_names o st
  /\ (counted = true ->
      memory_keys_exact st
      /\ (-1 < maxKeys o -> Stats.keys (MemoryDriver.stats st) <= maxKeys o)
      /\ (forall tagName keySet fullKey,
            MemoryDriver.tags st !! tagName = Some keySet ->
            fullKey ∈ keySet -> inherited fullKey = false)).

(** The keys a call through the [CacheManager] names. *)
Definition manager_call_keys (c : ManagerCall) : list Key :=
  match c with
  | MGet key | MSet key _ _ | MHas key | MGetTtl key | MTtl key _
  | MTake key | MFetch key _ _ | MTag key _ => [key]
  | MMget keys | MDel keys => keys
  | MMset entries => map (fun e => e.1.1) entries
  | MKeys _ | MFlush | MGetKeysByTag _ | MDeleteByTag _ | MSweep => []
  end.

(** A call none of whose keys has, as its full key, a name inherited
    from [Object.prototype]; with a prefix no full key is one. *)
Definition plain_manager_call (o : MemoryDriverOptions) (c : ManagerCall)
    : bool :=
  forallb (fun key => negb (inherited (getFullKey o key)))
          (manager_call_keys c).

(** ** Tags and deletions *)

(** The full key [fullKey] is in the set of the tag [tagName]. *)
Definition tagged (tags : TagIndex) (tagName fullKey : string) : Prop :=
  exists keySet, tags !! tagName = Some keySet /\ fullKey ∈ keySet.

(** The full keys a list of keys names. *)
Definition full_keys (o : MemoryDriverOptions) (keys : list Key) : list string :=
  getFullKey o <$> keys.


(** A time to live that is not negative; a missing one stands for
    [stdTTL]. *)
Definition ttl_not_negative (o : MemoryDriverOptions) (ttl : option Z) : Prop :=
  match ttl with
  | Some n => 0 <= n
  | None => 0 <= stdTTL o
  end.

(** A pattern without wildcards. *)
Fixpoint literal (pattern : string) : bool :=
  match pattern with
  | EmptyString => true
  | String c rest =>
      negb (Ascii.eqb c "*") && negb (Ascii.eqb c "?") && literal rest
  end.

(** Every character of a text passes a test. *)
Fixpoint all_chars (f : ascii -> bool) (s : string) : bool :=
  match s with
  | EmptyString => true
  | String c rest => f c && all_chars f rest
  end.

(** ** The linked list of the LRU driver *)

(** A list without an element. *)
Fixpoint without {A : Type} `{EqDecision A} (x : A) (l : list A) : list A :=
  match l with
  | [] => []
  | y :: rest => if decide (y = x) then without x rest else y :: without x rest
  end.

(** The node that follows [n] in a list of nodes. *)
Fixpoint node_after (l : list nat) (n : nat) : option nat :=
  match l with
  | [] => None
  | m :: rest => if decide (m = n) then head rest else node_after rest n
  end.

(** [p] is what a [prev] field must hold for the node [n] of the list
    [l]: the node [n] follows, or nothing when [n] is the first. *)
Definition precedes (l : list nat) (p : option nat) (n : nat) : Prop :=
  match p with
  | Some m => node_after l m = Some n
  | None => head l = Some n
  end.

(** [tl] is what [tail] must hold for the list [l]: a node that nothing
    follows, or nothing when the list is empty. *)
Definition ends (l : list nat) (tl : option nat) : Prop :=
  match tl with
  | Some m => m ∈ l /\ node_after l m = None
  | None => l = []
  end.

(** The nodes of [l], in order, are the doubly linked list of the
    state: [head] is the first, [tail] the last, and the [next] and
    [prev] fields of each node name its neighbours.  All of them were
    created before the next node will be. *)
Definition lru_links (st : MemoryLRUDriver.State) (l : list nat) : Prop :=
  NoDup l
  /\ MemoryLRUDriver.head st = head l
  /\ ends l (MemoryLRUDriver.tail st)
  /\ (forall n, n ∈ l ->
        exists nd,
          MemoryLRUDriver.heap st !! n = Some nd
          /\ MemoryLRUDriver.Node.next nd = node_after l n
          /\ precedes l (MemoryLRUDriver.Node.prev nd) n)
  /\ (forall n, n ∈ l -> (n < MemoryLRUDriver.fresh st)%nat).

(** The key a node carries. *)
Definition node_key (st : MemoryLRUDriver.State) (n : nat) : option string :=
  MemoryLRUDriver.Node.key <$> MemoryLRUDriver.heap st !! n.

(** [data] maps every stored key to the one node of the list that
    carries it. *)
Definition lru_index (st : MemoryLRUDriver.State) (l : list nat) : Prop :=
  forall k n,
    MemoryLRUDriver.data st !! k = Some n <-> n ∈ l /\ node_key st n = Some k.

(** The state is represented by the list [l] of its nodes, most
    recently used first: the links and the index are right, the key
    counter is the number of entries and, in a bounded driver, within
    the bound. *)
Definition lru_rep (o : MemoryDriverOptions) (st : MemoryLRUDriver.State)
    (l : list nat) : Prop :=
  lru_links st l
  /\ lru_index st l
  /\ size (MemoryLRUDriver.data st) = length l
  /\ Stats.keys (MemoryLRUDriver.stats st) = Z.of_nat (length l)
  /\ (0 < maxKeys o -> Z.of_nat (length l) <= maxKeys o).

(** Following [next] from a node, for at most [fuel] steps. *)
Fixpoint walk (h : gmap nat MemoryLRUDriver.Node.LRUNode) (fuel : nat)
    (cur : option nat) : list nat :=
  match fuel, cur with
  | S fuel', Some n =>
      n :: walk h fuel' (h !! n ≫= MemoryLRUDriver.Node.next)
  | _, _ => []
  end.

(** The keys of the linked list, read from [head] along [next]: the
    most recently used key first. *)
Definition recency (st : MemoryLRUDriver.State) : list string :=
  omap (node_key st)
    (walk (MemoryLRUDriver.heap st) (size (MemoryLRUDriver.data st))
       (MemoryLRUDriver.head st)).

(** The state of the LRU driver is well formed: some list represents
    it. *)
Definition lru_ok (o : MemoryDriverOptions) (st : MemoryLRUDriver.State)
    : Prop :=
  exists l, lru_rep o st l.

(** The key of a node, empty for a name that is no node. *)
Definition key_at (st : MemoryLRUDriver.State) (n : nat) : string :=
  default ""%string (node_key st n).

(** Whether [set] of a key that is not stored finds the driver full. *)
Definition lru_full (o : MemoryDriverOptions) (st : MemoryLRUDriver.State)
    : bool :=
  (maxKeys o >? 0) && (Z.of_nat (size (MemoryLRUDriver.data st)) >=? maxKeys o).

(** Whether [set] of the full key [fullKey] evicts the full key
    [other]: the key is new, the driver is full and [other] is the
    least recently used key. *)
Definition lru_evicts (o : MemoryDriverOptions) (st : MemoryLRUDriver.State)
    (fullKey other : string) : bool :=
  bool_decide (MemoryLRUDriver.data st !! fullKey = None)
  && lru_full o st
  && bool_decide (last (recency st) = Some other).

(** What the LRU driver answers to [get] for an entry. *)
Definition lru_answer (entry : option WrappedValue) : JsValue :=
  match entry with
  | Some d => unwrap d
  | None => JUndefined
  end.

(** An [acquire] that was refused: it returned false. *)
Definition refused {S : Type} (r : Outcome bool S) : bool :=
  match r with
  | Returned false _ => true
  | _ => false
  end.

(** Following [prev] from a node, for at most [fuel] steps. *)
Fixpoint walk_back (h : gmap nat MemoryLRUDriver.Node.LRUNode) (fuel : nat)
    (cur : option nat) : list nat :=
  match fuel, cur with
  | S fuel', Some n =>
      n :: walk_back h fuel' (h !! n ≫= MemoryLRUDriver.Node.prev)
  | _, _ => []
  end.

(** The keys of the linked list, read from [tail] along [prev]: the
    least recently used key first. *)
Definition recency_back (st : MemoryLRUDriver.State) : list string :=
  omap (node_key st)
    (walk_back (MemoryLRUDriver.heap st) (size (MemoryLRUDriver.data st))
       (MemoryLRUDriver.tail st)).




(** * Properties *)

(** ** Capacity *)

(** C2, at the failing input.  A [MemoryDriver] bounded to one key and
    holding ["a"] rejects [set("a", ...)] with the full-cache error and
    leaves the entry as it was, because the capacity test comes before
    the test for an existing key; the [Cache] engine, whose test is
    guarded by "only for new keys", accepts the same call and keeps its
    key count at one. *)
Theorem memory_set_existing_key_at_capacity_throws :
  let o := driver_options 1 true in
  let st := outcome_state
              (MemoryDriver.set o 0 (KStr "a") (JNumber 1) None MemoryDriver.init) in
  let oc := cache_options 1 true in
  let stc := outcome_state
               (Cache.set oc 0 (KStr "a") (JNumber 1) None (Cache.init oc)) in
  MemoryDriver.data st !! "a"%string = Some {| t := 0; v := JNumber 1 |}
  /\ Stats.keys (MemoryDriver.stats st) = maxKeys o
  /\ MemoryDriver.set o 1 (KStr "a") (JNumber 2) None st = Thrown ECACHEFULL st
  /\ (exists stc',
        Cache.set oc 1 (KStr "a") (JNumber 2) None stc = Returned true stc'
        /\ Cache.data stc' !! "a"%string = Some {| t := 0; v := JNumber 2 |}
        /\ Stats.keys (Cache.stats stc') = Stats.keys (Cache.stats stc)).
Proof.
  cbv zeta. repeat split; try reflexivity.
  eexists. split; [reflexivity|]. split; reflexivity.
Qed.

(** C3, at the failing input.  A [MemoryDriver] bounded to two keys and
    empty rejects a batch of two new keys, although the projected total,
    two, does not exceed the maximum: its test is
    [keys + entries.length >= maxKeys].  The [Cache] engine, which
    counts the new keys and tests [>], accepts the same batch. *)
Theorem memory_mset_rejects_batch_that_fits :
  let o := driver_options 2 true in
  let oc := cache_options 2 true in
  let batch := [(KStr "a", JNumber 1, None); (KStr "b", JNumber 2, None)] in
  Stats.keys (MemoryDriver.stats MemoryDriver.init) + 2 <= maxKeys o
  /\ MemoryDriver.mset o 0 batch MemoryDriver.init
     = Thrown ECACHEFULL MemoryDriver.init
  /\ is_thrown (Cache.mset oc 0 batch (Cache.init oc)) = false
  /\ Stats.keys (Cache.stats (outcome_state (Cache.mset oc 0 batch (Cache.init oc))))
     = 2.
Proof.
  cbv zeta. split; [vm_compute; discriminate|].
  split; [reflexivity|]. split; reflexivity.
Qed.

(** ** Statistics *)

(** C4, at the failing input.  With the default [deleteOnExpire], an
    entry of key size 1 and value size 3 that expires is removed by the
    lazy check of [has]: the store is empty and [keys] is back to 0, but
    [ksize] and [vsize] still count the removed entry, since
    [checkExpiry] decrements [keys] only.  In the [Cache] engine with
    [deleteOnExpire] off, each [get] of an expired entry decrements the
    three counters although the entry stays stored: after two reads
    [keys] is -1 with one entry in the store.  In the LRU driver with a
    prefix, eviction subtracts the size of the full key where [set] had
    added the size of the bare key: with prefix ["p"] and capacity 1,
    storing ["a"] and then ["b"] leaves one entry and [ksize] at -1. *)
Theorem memory_lazy_expiry_keeps_sizes :
  let o := driver_options (-1) true in
  let st := outcome_state
              (MemoryDriver.set o 0 (KStr "a") (JString "xyz") (Some 1)
                 MemoryDriver.init) in
  let st' := snd (MemoryDriver.has o 2000 (KStr "a") st) in
  let oc := cache_options (-1) false in
  let stc := outcome_state
               (Cache.set oc 0 (KStr "a") (JString "xyz") (Some 1)
                  (Cache.init oc)) in
  let stc' := snd (Cache.get oc 3000 (KStr "a")
                     (snd (Cache.get oc 2000 (KStr "a") stc))) in
  let ol := {| stdTTL := 0; prefix := "p"; checkPeriod := 600;
               deleteOnExpire := true; maxKeys := 1; useClones := true |} in
  let lst := snd (MemoryLRUDriver.set ol 0 (KStr "b") (JNumber 2) None
                    (snd (MemoryLRUDriver.set ol 0 (KStr "a") (JNumber 1) None
                            MemoryLRUDriver.init))) in
  (MemoryDriver.data st' = ∅
   /\ Stats.keys (MemoryDriver.stats st') = 0
   /\ Stats.ksize (MemoryDriver.stats st') = 1
   /\ Stats.vsize (MemoryDriver.stats st') = 3)
  /\ (size (Cache.data stc') = 1%nat
      /\ Stats.keys (Cache.stats stc') = -1
      /\ Stats.ksize (Cache.stats stc') = -1
      /\ Stats.vsize (Cache.stats stc') = -3)
  /\ (size (MemoryLRUDriver.data lst) = 1%nat
      /\ Stats.keys (MemoryLRUDriver.stats lst) = 1
      /\ Stats.ksize (MemoryLRUDriver.stats lst) = -1).
Proof. cbv zeta. repeat split; reflexivity. Qed.

(** ** Eviction *)

(** C5.  In the LRU driver with capacity 3, after [set(a)], [set(b)],
    [set(c)], [get(a)], [set(d)], all with infinite ttl, [keys()] lists
    three keys, they are a, c and d, and [has(b)] is false: the insertion
    at capacity evicted the tail, which was b because the hit on a moved
    a to the head.  This holds for all stored values, all clock readings
    and every setting of the other options. *)
Theorem lru_capacity_3_scenario
    (stdTTL checkPeriod : Z) (deleteOnExpire useClones : bool)
    (va vb vc vd : JsValue) (n1 n2 n3 n4 n5 n6 n7 : Z) :
  let o := {| stdTTL := stdTTL; prefix := ""; checkPeriod := checkPeriod;
              deleteOnExpire := deleteOnExpire; maxKeys := 3;
              useClones := useClones |} in
  let '(ks, has_b) := lru_scenario o va vb vc vd n1 n2 n3 n4 n5 n6 n7 in
  length ks = 3%nat
  /\ (list_to_set ks : gset string) = {[ "a"; "c"; "d" ]}%string
  /\ has_b = false.
Proof. cbv zeta. vm_compute. repeat split; reflexivity. Qed.

(** ** take *)

(** C6, at the failing input.  In the [Cache] engine with its default
    options, after [set("k", undefined)] the call [take("k")] returns
    [undefined], as [get("k")] does, but leaves the entry stored and
    counted, whereas [get("k")] followed by [del("k")] leaves the store
    empty and the counters at zero: [take] deletes only when the value it
    read is not [undefined].  The same happens, for any stored value, to
    an entry that has expired while [deleteOnExpire] is off. *)
Theorem cache_take_differs_from_get_then_del :
  let o := Cache.DEFAULT_OPTIONS in
  let st := outcome_state
              (Cache.set o 0 (KStr "k") JUndefined None (Cache.init o)) in
  let taken := Cache.take o 1 (KStr "k") st in
  let got := Cache.get o 1 (KStr "k") st in
  let get_then_del := snd (Cache.del o [KStr "k"] (snd got)) in
  let o2 := cache_options (-1) false in
  let st2 := outcome_state
               (Cache.set o2 0 (KStr "k") (JNumber 1) (Some 1) (Cache.init o2)) in
  let taken2 := Cache.take o2 5000 (KStr "k") st2 in
  let got2 := Cache.get o2 5000 (KStr "k") st2 in
  let get_then_del2 := snd (Cache.del o2 [KStr "k"] (snd got2)) in
  (fst taken = fst got
   /\ Cache.data (snd taken) !! "k"%string = Some {| t := 0; v := JUndefined |}
   /\ Stats.keys (Cache.stats (snd taken)) = 1
   /\ Cache.data get_then_del !! "k"%string = None
   /\ Stats.keys (Cache.stats get_then_del) = 0
   /\ snd taken <> get_then_del)
  /\ (fst taken2 = fst got2
      /\ Cache.data (snd taken2) !! "k"%string
         = Some {| t := 1000; v := JNumber 1 |}
      /\ Cache.data get_then_del2 !! "k"%string = None
      /\ snd taken2 <> get_then_del2).
Proof.
  cbv zeta. split.
  - repeat (split; [reflexivity|]).
    intros H. apply (f_equal (fun s => Stats.keys (Cache.stats s))) in H.
    vm_compute in H. discriminate.
  - repeat (split; [reflexivity|]).
    intros H. apply (f_equal (fun s => Stats.keys (Cache.stats s))) in H.
    vm_compute in H. discriminate.
Qed.

(** ** Reading a store that is a plain object *)

Section PlainObject.
Implicit Types (data : gmap string WrappedValue) (name : string)
  (d : WrappedValue).

Lemma read_slot_own data name d :
  data !! name = Some d -> read_slot data name = Own d.
Proof. unfold read_slot. by intros ->. Qed.

Lemma read_slot_Own data name d :
  read_slot data name = Own d <-> data !! name = Some d.
Proof.
  unfold read_slot. destruct (data !! name) as [d'|].
  - split; by intros [= ->].
  - by destruct (inherited name).
Qed.

Lemma read_slot_Inherited data name :
  read_slot data name = Inherited
  <-> data !! name = None /\ inherited name = true.
Proof.
  unfold read_slot. destruct (data !! name) as [d'|].
  - split; [done|]. by intros [? _].
  - destruct (inherited name); split; try done. by intros [_ ?].
Qed.

Lemma read_slot_Missing data name :
  read_slot data name = Missing
  <-> data !! name = None /\ inherited name = false.
Proof.
  unfold read_slot. destruct (data !! name) as [d'|].
  - split; [done|]. by intros [? _].
  - destruct (inherited name); split; try done. by intros [_ ?].
Qed.

(** For a name that is not inherited the reading is the lookup. *)
Lemma read_slot_plain data name :
  inherited name = false ->
  read_slot data name
  = match data !! name with Some d => Own d | None => Missing end.
Proof. unfold read_slot. by intros ->. Qed.

Lemma read_slot_insert data name d : read_slot (<[name := d]> data) name = Own d.
Proof. apply read_slot_own, lookup_insert_eq. Qed.


Lemma read_slot_delete data name :
  read_slot (delete name data) name
  = if inherited name then Inherited else Missing.
Proof. unfold read_slot. by rewrite lookup_delete_eq. Qed.

Lemma read_slot_delete_ne data name name' :
  name <> name' -> read_slot (delete name data) name' = read_slot data name'.
Proof. intros Hne. unfold read_slot. by rewrite lookup_delete_ne. Qed.

(** No inherited name has a colon in it, so a prefixed key is never
    one. *)
Lemma inherited_no_colon name :
  inherited name = true -> all_chars (fun c => negb (Ascii.eqb c ":")) name = true.
Proof.
  unfold inherited, object_prototype_names. cbn [existsb].
  rewrite !orb_true_iff.
  intros H. repeat (destruct H as [H|H]; [apply String.eqb_eq in H as ->; reflexivity|]).
  done.
Qed.

Lemma all_chars_app f (s1 s2 : string) :
  all_chars f (s1 ++ s2) = all_chars f s1 && all_chars f s2.
Proof.
  induction s1 as [|c s1 IH]; [done|].
  change (String c s1 ++ s2)%string with (String c (s1 ++ s2)).
  cbn [all_chars]. rewrite IH. by rewrite andb_assoc.
Qed.

Lemma inherited_prefixed (p s : string) :
  inherited (p ++ ":" ++ s) = false.
Proof.
  destruct (inherited (p ++ ":" ++ s)) eqn:Hi; [|done].
  apply inherited_no_colon in Hi.
  rewrite all_chars_app in Hi. apply andb_true_iff in Hi as [_ Hi].
  change (":" ++ s)%string with (String ":" s) in Hi.
  cbn [all_chars] in Hi. done.
Qed.

(** With a prefix, no full key is an inherited name. *)
Lemma inherited_getFullKey o key :
  prefix o <> ""%string -> inherited (getFullKey o key) = false.
Proof.
  intros Hp. unfold getFullKey.
  destruct (String.eqb (prefix o) "") eqn:He.
  - by apply String.eqb_eq in He.
  - apply inherited_prefixed.
Qed.

(** The full key of a key that is no inherited name is none either. *)
Lemma inherited_getFullKey_plain o key :
  inherited (key_toString key) = false -> inherited (getFullKey o key) = false.
Proof.
  intros Hk. unfold getFullKey.
  destruct (String.eqb (prefix o) ""); [done|apply inherited_prefixed].
Qed.


End PlainObject.

(** ** The tag index *)

Section TagIndex.
Implicit Types (tags : TagIndex) (fullKey tag : string).

(** One round of the loop of [tag] puts [fullKey] into the set of the
    tag it names and leaves every other set alone. *)
Lemma tag_add_lookup fullKey tags tag tag' :
  tag_add fullKey tags tag !! tag'
  = if decide (tag = tag')
    then Some (default ∅ (tags !! tag) ∪ {[fullKey]})
    else tags !! tag'.
Proof.
  unfold tag_add. destruct (tags !! tag) as [keySet|] eqn:Hl.
  - rewrite Hl, lookup_insert. by destruct (decide (tag = tag')).
  - rewrite lookup_insert_eq, !lookup_insert.
    by destruct (decide (tag = tag')).
Qed.

(** The whole loop, over any list of tag names, repetitions included. *)
Lemma foldl_tag_add_lookup fullKey tagNames tags tag' :
  foldl (tag_add fullKey) tags tagNames !! tag'
  = if decide (tag' ∈ tagNames)
    then Some (default ∅ (tags !! tag') ∪ {[fullKey]})
    else tags !! tag'.
Proof.
  revert tags. induction tagNames as [|tag rest IH]; intros tags;
    cbn [foldl].
  - rewrite decide_False; [done|]. apply not_elem_of_nil.
  - rewrite IH, tag_add_lookup.
    destruct (decide (tag = tag')) as [->|Hne].
    + rewrite (decide_True (P := tag' ∈ tag' :: rest))
        by (apply elem_of_cons; by left).
      destruct (decide (tag' ∈ rest)); [|done].
      simpl. f_equal.
      by rewrite <-(assoc_L (∪)), (idemp_L (∪)).
    + destruct (decide (tag' ∈ rest)) as [Hin|Hin].
      * rewrite decide_True; [done|]. apply elem_of_cons. by right.
      * rewrite decide_False; [done|].
        intros [?|?]%elem_of_cons; congruence.
Qed.

End TagIndex.



(** ** Loops that count hits and misses *)

(** The loops of [mget] and a sequence of [get] calls have one shape: a
    step per key that records a hit when the state holds a served entry
    for the key and a miss otherwise, and that never changes which
    entries are served.  [ok] says for which keys the steps are so. *)
Section CountingLoop.
Context {S : Type}.
Variables (entry : S -> string -> option WrappedValue) (hits misses : S -> Z).
Variables (inv : S -> Prop) (ok : Key -> Prop).
Variables (key_of : Key -> string) (step : S -> Key -> S).



Lemma count_entries_bounds st keys : 0 <= count_entries entry key_of st keys <= len keys.
Proof.
  unfold count_entries, len.
  pose proof (length_filter (fun key => is_Some (entry st (key_of key))) keys).
  lia.
Qed.

Hypothesis step_inv : forall st key, inv st -> ok key -> inv (step st key).
Hypothesis step_entry :
  forall st key s, inv st -> ok key -> entry (step st key) s = entry st s.
Hypothesis step_hits :
  forall st key, inv st -> ok key ->
    hits (step st key)
    = hits st + (if entry st (key_of key) is Some _ then 1 else 0).
Hypothesis step_misses :
  forall st key, inv st -> ok key ->
    misses (step st key)
    = misses st + (if entry st (key_of key) is Some _ then 0 else 1).


End CountingLoop.

(** The loop of [mget]: besides counting, each step stores the value of
    the served entry in the result, under the string form of the key. *)
Section MgetLoop.
Context {S : Type}.
Variables (entry : S -> string -> option WrappedValue) (hits misses : S -> Z).
Variables (inv : S -> Prop) (full : string -> string) (val : WrappedValue -> JsValue).
Variable (mstep : gmap string JsValue * S -> Key -> gmap string JsValue * S).

Hypothesis mstep_spec :
  forall result st key, inv st ->
    let r := mstep (result, st) key in
    inv (snd r)
    /\ (forall s, entry (snd r) s = entry st s)
    /\ hits (snd r)
       = hits st + (if entry st (full (key_toString key)) is Some _ then 1 else 0)
    /\ misses (snd r)
       = misses st + (if entry st (full (key_toString key)) is Some _ then 0 else 1)
    /\ fst r = match entry st (full (key_toString key)) with
               | Some d => <[key_toString key := val d]> result
               | None => result
               end.



End MgetLoop.

(** ** What the drivers serve *)

Section MemoryDriverFacts.
Context (o : MemoryDriverOptions) (now : Z).
Implicit Types (st : MemoryDriver.State) (d : WrappedValue) (key : Key).

Lemma getFullKey_full_key key : getFullKey o key = full_key o (key_toString key).
Proof. reflexivity. Qed.


Lemma served_live d : expired now d = false -> served o now d = true.
Proof. unfold served. by intros ->. Qed.

Lemma md_checkExpiry_spec fullKey d st :
  MemoryDriver.checkExpiry o now fullKey d st
  = if served o now d then (true, st) else (false, md_expire fullKey st).
Proof.
  unfold MemoryDriver.checkExpiry, served.
  by destruct (expired now d), (deleteOnExpire o).
Qed.

Lemma md_present_spec fullKey st :
  MemoryDriver.present o now fullKey st
  = match read_slot (MemoryDriver.data st) fullKey with
    | Own d => if served o now d then (true, st)
               else (false, md_expire fullKey st)
    | Inherited => (true, st)
    | Missing => (false, st)
    end.
Proof.
  unfold MemoryDriver.present.
  destruct (read_slot (MemoryDriver.data st) fullKey);
    [apply md_checkExpiry_spec|done|done].
Qed.

(** The test on an entry that is stored. *)
Lemma md_present_own fullKey d st :
  MemoryDriver.data st !! fullKey = Some d ->
  MemoryDriver.present o now fullKey st
  = if served o now d then (true, st) else (false, md_expire fullKey st).
Proof. intros Hd. by rewrite md_present_spec, (read_slot_own _ _ _ Hd). Qed.

(** The test on a name that is not inherited. *)
Lemma md_present_plain fullKey st :
  inherited fullKey = false ->
  MemoryDriver.present o now fullKey st
  = match MemoryDriver.data st !! fullKey with
    | Some d => if served o now d then (true, st)
                else (false, md_expire fullKey st)
    | None => (false, st)
    end.
Proof.
  intros Hp. rewrite md_present_spec, read_slot_plain by done.
  by destruct (MemoryDriver.data st !! fullKey).
Qed.

Lemma md_get_spec key st :
  MemoryDriver.get o now key st
  = match read_slot (MemoryDriver.data st) (getFullKey o key) with
    | Own d =>
        if served o now d
        then (unwrap d, MemoryDriver.with_stats Stats.hit st)
        else (JUndefined,
              MemoryDriver.with_stats Stats.miss (md_expire (getFullKey o key) st))
    | Inherited => (JNull, MemoryDriver.with_stats Stats.hit st)
    | Missing => (JUndefined, MemoryDriver.with_stats Stats.miss st)
    end.
Proof.
  unfold MemoryDriver.get. rewrite md_present_spec.
  destruct (read_slot (MemoryDriver.data st) (getFullKey o key)) as [d| |] eqn:Hd;
    [|by rewrite Hd|done].
  destruct (served o now d); [|done]. by rewrite Hd.
Qed.


Lemma md_get_plain key st :
  inherited (getFullKey o key) = false ->
  MemoryDriver.get o now key st
  = match MemoryDriver.data st !! getFullKey o key with
    | Some d =>
        if served o now d
        then (unwrap d, MemoryDriver.with_stats Stats.hit st)
        else (JUndefined,
              MemoryDriver.with_stats Stats.miss (md_expire (getFullKey o key) st))
    | None => (JUndefined, MemoryDriver.with_stats Stats.miss st)
    end.
Proof.
  intros Hp. rewrite md_get_spec, read_slot_plain by done.
  by destruct (MemoryDriver.data st !! getFullKey o key).
Qed.

Lemma md_mget_step_spec key st (result : gmap string JsValue) :
  MemoryDriver.mget_step o now (result, st) key
  = match read_slot (MemoryDriver.data st) (getFullKey o key) with
    | Own d =>
        if served o now d
        then (<[key_toString key := unwrap d]> result,
              MemoryDriver.with_stats Stats.hit st)
        else (result,
              MemoryDriver.with_stats Stats.miss (md_expire (getFullKey o key) st))
    | Inherited =>
        (<[key_toString key := JNull]> result,
         MemoryDriver.with_stats Stats.hit st)
    | Missing => (result, MemoryDriver.with_stats Stats.miss st)
    end.
Proof.
  unfold MemoryDriver.mget_step. rewrite md_present_spec.
  destruct (read_slot (MemoryDriver.data st) (getFullKey o key)) as [d| |] eqn:Hd;
    [|by rewrite Hd|done].
  destruct (served o now d); [|done]. by rewrite Hd.
Qed.


(** [mget] threads the state exactly as one [get] per key does. *)
Lemma md_mget_state_as_gets keys st (result : gmap string JsValue) :
  snd (foldl (MemoryDriver.mget_step o now) (result, st) keys)
  = foldl (fun s key => snd (MemoryDriver.get o now key s)) st keys.
Proof.
  revert result st. induction keys as [|key rest IH]; intros result st; [done|].
  cbn [foldl]. rewrite md_mget_step_spec, md_get_spec.
  destruct (read_slot (MemoryDriver.data st) (getFullKey o key)) as [d| |];
    [|apply IH..].
  destruct (served o now d); apply IH.
Qed.



End MemoryDriverFacts.

(** ** What the Cache engine serves *)

Section CacheFacts.
Context (o : Cache.Options) (now : Z).
Implicit Types (st : Cache.State) (d : WrappedValue) (key : Key).

Lemma not_expired_inline d :
  (t d =? 0) || (t d >=? now) = negb (expired now d).
Proof.
  unfold expired. rewrite negb_andb, negb_involutive. f_equal.
  rewrite Z.geb_leb, Z.ltb_antisym. by rewrite negb_involutive.
Qed.

Lemma cache_del_one key st :
  Cache.del o [key] st
  = match read_slot (Cache.data st) (key_toString key) with
    | Own d => (1, cache_remove o (key_toString key) d st)
    | Inherited => (1, Cache.del_found o (key_toString key) JUndefined st)
    | Missing => (0, st)
    end.
Proof.
  unfold Cache.del. cbn [foldl]. unfold Cache.del_step.
  by destruct (read_slot (Cache.data st) (key_toString key)).
Qed.

Lemma cache_del_own key d st :
  Cache.data st !! key_toString key = Some d ->
  Cache.del o [key] st = (1, cache_remove o (key_toString key) d st).
Proof. intros Hd. by rewrite cache_del_one, (read_slot_own _ _ _ Hd). Qed.


Lemma cache_mget_step_spec key st (result : gmap string JsValue) :
  Cache.mget_step o now (result, st) key
  = match read_slot (Cache.data st) (key_toString key) with
    | Own d =>
        if expired now d
        then (result,
              if Cache.deleteOnExpire o
              then cache_remove o (key_toString key) d
                     (Cache.with_stats Stats.miss st)
              else Cache.with_stats Stats.miss st)
        else (<[key_toString key := Cache.handed_copy o (v d)]> result,
              Cache.with_stats Stats.hit st)
    | Inherited =>
        (result,
         if Cache.deleteOnExpire o
         then Cache.del_found o (key_toString key) JUndefined
                (Cache.with_stats Stats.miss st)
         else Cache.with_stats Stats.miss st)
    | Missing => (result, Cache.with_stats Stats.miss st)
    end.
Proof.
  unfold Cache.mget_step.
  destruct (read_slot (Cache.data st) (key_toString key)) as [d| |] eqn:Hd;
    [| |done].
  - rewrite not_expired_inline. destruct (expired now d); [|done]. simpl.
    destruct (Cache.deleteOnExpire o); [|done].
    rewrite cache_del_one. simpl. by rewrite Hd.
  - destruct (Cache.deleteOnExpire o); [|done].
    rewrite cache_del_one. simpl. by rewrite Hd.
Qed.









End CacheFacts.

(** ** Enumerating the keys of a MemoryDriver *)

Section MemoryDriverKeys.
Context (o : MemoryDriverOptions) (now : Z).
Implicit Types (st : MemoryDriver.State) (kept l : list string).

Lemma md_keys_filter_step_spec kept st fullKey :
  MemoryDriver.keys_filter_step o now (kept, st) fullKey
  = match read_slot (MemoryDriver.data st) fullKey with
    | Own d => if served o now d then (kept ++ [fullKey], st)
               else (kept, md_expire fullKey st)
    | Inherited => (kept ++ [fullKey], st)
    | Missing => (kept, st)
    end.
Proof.
  unfold MemoryDriver.keys_filter_step.
  destruct (read_slot (MemoryDriver.data st) fullKey) as [d| |]; [|done..].
  rewrite md_checkExpiry_spec. by destruct (served o now d).
Qed.

(** For a stored key the test answers whether its entry is served. *)
Lemma md_found_stored st fullKey :
  is_Some (MemoryDriver.data st !! fullKey) ->
  md_found o now st fullKey = true <-> is_Some (md_entry o now st fullKey).
Proof.
  intros [d Hd]. unfold md_found, md_entry.
  rewrite (read_slot_own _ _ _ Hd), Hd.
  destruct (served o now d); split; try done; try by intros [? ?].
Qed.

(** So it does for a name that is not inherited. *)
Lemma md_found_plain st fullKey :
  inherited fullKey = false ->
  md_found o now st fullKey = true <-> is_Some (md_entry o now st fullKey).
Proof.
  intros Hp. unfold md_found, md_entry. rewrite read_slot_plain by done.
  destruct (MemoryDriver.data st !! fullKey) as [d|].
  - destruct (served o now d); split; try done; try by intros [? ?].
  - split; [done|]. by intros [? ?].
Qed.

(** The filter of [keys] over a duplicate-free list of full keys whose
    entries are still those of [st]: it keeps the keys the test finds,
    in order, and the keys it visited keep only the entries the driver
    serves. *)
Lemma md_keys_filter_fold st l : forall kept st',
  NoDup l ->
  (forall fullKey, fullKey ∈ l ->
     MemoryDriver.data st' !! fullKey = MemoryDriver.data st !! fullKey) ->
  let r := foldl (MemoryDriver.keys_filter_step o now) (kept, st') l in
  fst r = kept ++ filter (fun fullKey => md_found o now st fullKey = true) l
  /\ (forall fullKey,
        MemoryDriver.data (snd r) !! fullKey
        = if bool_decide (fullKey ∈ l) then md_entry o now st fullKey
          else MemoryDriver.data st' !! fullKey)
  /\ MemoryDriver.tags (snd r) = MemoryDriver.tags st'.
Proof.
  induction l as [|fk rest IH]; intros kept st' Hnd Hsame; cbv zeta.
  - simpl. split_and!; [by rewrite app_nil_r|done|done].
  - apply NoDup_cons in Hnd as [Hfresh Hnd].
    cbn [foldl]. rewrite md_keys_filter_step_spec.
    assert (Hfk : MemoryDriver.data st' !! fk = MemoryDriver.data st !! fk)
      by (apply Hsame, elem_of_cons; by left).
    assert (Hrest : forall fullKey, fullKey ∈ rest ->
              MemoryDriver.data st' !! fullKey = MemoryDriver.data st !! fullKey)
      by (intros ? ?; apply Hsame, elem_of_cons; by right).
    assert (Hin : forall fullKey,
               fullKey ∈ fk :: rest <-> fullKey = fk \/ fullKey ∈ rest)
      by (intros ?; apply elem_of_cons).
    (* the three outcomes of one round share their bookkeeping *)
    assert (Hround : forall kept1 st1,
      (forall fullKey, MemoryDriver.data st1 !! fullKey
                       = if decide (fullKey = fk) then md_entry o now st fk
                         else MemoryDriver.data st' !! fullKey) ->
      MemoryDriver.tags st1 = MemoryDriver.tags st' ->
      kept1 = kept ++ filter (fun fullKey => md_found o now st fullKey = true) [fk] ->
      let r := foldl (MemoryDriver.keys_filter_step o now) (kept1, st1) rest in
      fst r = kept ++ filter (fun fullKey => md_found o now st fullKey = true)
                        (fk :: rest)
      /\ (forall fullKey,
            MemoryDriver.data (snd r) !! fullKey
            = if bool_decide (fullKey ∈ fk :: rest) then md_entry o now st fullKey
              else MemoryDriver.data st' !! fullKey)
      /\ MemoryDriver.tags (snd r) = MemoryDriver.tags st').
    { intros kept1 st1 Hd1 Ht1 Hk1. cbv zeta.
      assert (Hrest1 : forall fullKey, fullKey ∈ rest ->
                MemoryDriver.data st1 !! fullKey = MemoryDriver.data st !! fullKey).
      { intros fullKey Hr. rewrite Hd1, decide_False; [by apply Hrest|].
        intros ->. done. }
      destruct (IH kept1 st1 Hnd Hrest1) as (Hkept & Hdata & Htags).
      split_and!; [| |congruence].
      - rewrite Hkept, Hk1, <-app_assoc. f_equal.
        change (fk :: rest) with ([fk] ++ rest). by rewrite filter_app.
      - intros fullKey. rewrite Hdata, Hd1.
        destruct (decide (fullKey = fk)) as [->|Hne].
        + rewrite bool_decide_eq_false_2 by done.
          by rewrite bool_decide_eq_true_2 by (apply Hin; by left).
        + case_bool_decide as Hr.
          * rewrite bool_decide_eq_true_2; [done|]. apply Hin. by right.
          * rewrite bool_decide_eq_false_2; [done|].
            intros [?|?]%Hin; done. }
    assert (Hslot : read_slot (MemoryDriver.data st') fk
                    = read_slot (MemoryDriver.data st) fk)
      by (unfold read_slot; by rewrite Hfk).
    rewrite Hslot. unfold read_slot.
    destruct (MemoryDriver.data st !! fk) as [d|] eqn:Hd.
    + destruct (served o now d) eqn:Hs.
      * assert (Hent : md_entry o now st fk = Some d)
          by (unfold md_entry; by rewrite Hd, Hs).
        assert (Hfound : md_found o now st fk = true)
          by (unfold md_found; by rewrite (read_slot_own _ _ _ Hd)).
        apply Hround; [|done|].
        -- intros fullKey. destruct (decide (fullKey = fk)) as [->|]; [|done].
           by rewrite Hfk, Hent.
        -- by rewrite filter_cons_True by done.
      * assert (Hent : md_entry o now st fk = None)
          by (unfold md_entry; by rewrite Hd, Hs).
        assert (Hfound : md_found o now st fk = false)
          by (unfold md_found; by rewrite (read_slot_own _ _ _ Hd)).
        apply Hround; [|done|].
        -- intros fullKey. simpl. rewrite lookup_delete.
           destruct (decide (fk = fullKey)) as [<-|].
           ++ by rewrite decide_True, Hent.
           ++ by rewrite decide_False.
        -- rewrite filter_cons_False by (by rewrite Hfound).
           simpl. by rewrite app_nil_r.
    + assert (Hent : md_entry o now st fk = None)
        by (unfold md_entry; by rewrite Hd).
      assert (Hfound : md_found o now st fk = inherited fk)
        by (unfold md_found, read_slot; rewrite Hd; by destruct (inherited fk)).
      destruct (inherited fk) eqn:Hi.
      * apply Hround; [|done|].
        -- intros fullKey. destruct (decide (fullKey = fk)) as [->|]; [|done].
           by rewrite Hfk, Hent.
        -- by rewrite filter_cons_True by done.
      * apply Hround; [|done|].
        -- intros fullKey. destruct (decide (fullKey = fk)) as [->|]; [|done].
           by rewrite Hfk, Hent.
        -- rewrite filter_cons_False by (by rewrite Hfound).
           simpl. by rewrite app_nil_r.
Qed.





End MemoryDriverKeys.

(** ** Expired entries while [deleteOnExpire] is off *)


Section DeleteOnExpireOff.
Context (o : MemoryDriverOptions) (oc : Cache.Options) (now : Z).
Hypothesis (Hoff : deleteOnExpire o = false).
Hypothesis (Hcoff : Cache.deleteOnExpire oc = false).











End DeleteOnExpireOff.



(** ** What the LRU driver serves *)

Section MemoryLRUFacts.
Import MemoryLRUDriver.
Context (o : MemoryDriverOptions) (now : Z).
Implicit Types (st : State) (h : gmap nat LRUNode) (n m : nat).

(** Relinking a node does not touch any stored value. *)
Lemma alter_keeps_value (f : LRUNode -> LRUNode) n h m :
  (forall nd, Node.value (f nd) = Node.value nd) ->
  Node.value <$> alter f n h !! m = Node.value <$> h !! m.
Proof.
  intros Hf. rewrite lookup_alter. case_decide as Hnm; [subst|done].
  destruct (h !! m); simpl; [by rewrite Hf|done].
Qed.

Lemma removeNode_frame n st :
  data (removeNode n st) = data st
  /\ stats (removeNode n st) = stats st
  /\ tags (removeNode n st) = tags st.
Proof.
  unfold removeNode. destruct (heap st !! n) as [nd|]; [|done].
  by destruct (Node.prev nd), (Node.next nd).
Qed.

Lemma removeNode_values n st m :
  Node.value <$> heap (removeNode n st) !! m = Node.value <$> heap st !! m.
Proof.
  unfold removeNode. destruct (heap st !! n) as [nd|]; [|done].
  destruct (Node.prev nd), (Node.next nd); simpl;
    rewrite ?alter_keeps_value; done.
Qed.

Lemma addToHead_frame n st :
  data (addToHead n st) = data st
  /\ stats (addToHead n st) = stats st
  /\ tags (addToHead n st) = tags st.
Proof.
  unfold addToHead. simpl. destruct (head st); simpl; by destruct (tail st).
Qed.

Lemma addToHead_values n st m :
  Node.value <$> heap (addToHead n st) !! m = Node.value <$> heap st !! m.
Proof.
  unfold addToHead. simpl.
  destruct (head st); simpl; destruct (tail st); simpl;
    rewrite ?alter_keeps_value; done.
Qed.

Lemma moveToHead_frame n st :
  data (moveToHead n st) = data st
  /\ stats (moveToHead n st) = stats st
  /\ tags (moveToHead n st) = tags st.
Proof.
  unfold moveToHead.
  destruct (addToHead_frame n (removeNode n st)) as (-> & -> & ->).
  apply removeNode_frame.
Qed.

Lemma moveToHead_values n st m :
  Node.value <$> heap (moveToHead n st) !! m = Node.value <$> heap st !! m.
Proof. unfold moveToHead. by rewrite addToHead_values, removeNode_values. Qed.

(** [lru_value] reads the key map and the values of the heap only. *)
Lemma lru_value_alt st fullKey :
  lru_value st fullKey
  = match data st !! fullKey with
    | Some n => Node.value <$> heap st !! n
    | None => None
    end.
Proof.
  unfold lru_value, lookup_node.
  destruct (data st !! fullKey) as [n|]; [|done]. by destruct (heap st !! n).
Qed.




Lemma lru_checkExpiry_spec fullKey n nd st :
  lookup_node st fullKey = Some (n, nd) ->
  checkExpiry o now fullKey (Node.value nd) st
  = if served o now (Node.value nd) then (true, st)
    else (false, lru_expire n fullKey st).
Proof.
  intros Hn. unfold checkExpiry, served. rewrite Hn.
  by destruct (expired now (Node.value nd)), (deleteOnExpire o).
Qed.

Lemma lru_present_spec fullKey st :
  present o now fullKey st
  = match lookup_node st fullKey with
    | Some (n, nd) =>
        if served o now (Node.value nd) then (Some (n, nd), st)
        else (None, lru_expire n fullKey st)
    | None => (None, st)
    end.
Proof.
  unfold present. destruct (lookup_node st fullKey) as [[n nd]|] eqn:Hn; [|done].
  rewrite (lru_checkExpiry_spec _ n) by done.
  by destruct (served o now (Node.value nd)).
Qed.

Lemma lru_mget_step_spec key st (result : gmap string JsValue) :
  mget_step o now (result, st) key
  = match lookup_node st (getFullKey o key) with
    | Some (n, nd) =>
        if served o now (Node.value nd)
        then (<[key_toString key := unwrap (Node.value nd)]> result,
              moveToHead n (with_stats Stats.hit st))
        else (result,
              with_stats Stats.miss (lru_expire n (getFullKey o key) st))
    | None => (result, with_stats Stats.miss st)
    end.
Proof.
  unfold mget_step. rewrite lru_present_spec.
  destruct (lookup_node st (getFullKey o key)) as [[n nd]|]; [|done].
  by destruct (served o now (Node.value nd)).
Qed.

Lemma lru_get_spec key st :
  get o now key st
  = match lookup_node st (getFullKey o key) with
    | Some (n, nd) =>
        if served o now (Node.value nd)
        then (unwrap (Node.value nd), moveToHead n (with_stats Stats.hit st))
        else (JUndefined,
              with_stats Stats.miss (lru_expire n (getFullKey o key) st))
    | None => (JUndefined, with_stats Stats.miss st)
    end.
Proof.
  unfold get. rewrite lru_present_spec.
  destruct (lookup_node st (getFullKey o key)) as [[n nd]|]; [|done].
  by destruct (served o now (Node.value nd)).
Qed.

(** [mget] threads the state exactly as one [get] per key does. *)
Lemma lru_mget_state_as_gets keys st (result : gmap string JsValue) :
  snd (foldl (mget_step o now) (result, st) keys)
  = foldl (fun s key => snd (get o now key s)) st keys.
Proof.
  revert result st. induction keys as [|key rest IH]; intros result st; [done|].
  cbn [foldl]. rewrite lru_mget_step_spec, lru_get_spec.
  destruct (lookup_node st (getFullKey o key)) as [[n nd]|]; [|apply IH].
  destruct (served o now (Node.value nd)); apply IH.
Qed.



End MemoryLRUFacts.

(** ** Hits and misses of mget *)




(** ** ttl *)

(** The expiry [wrap] computes from a ttl that is given. *)
Lemma wrap_given (o : MemoryDriverOptions) (now n : Z) (value : JsValue) :
  wrap o now value (Some n)
  = {| t := if n =? 0 then 0 else now + n * 1000; v := value |}.
Proof. unfold wrap. by destruct n. Qed.

(** [ttl] of the [MemoryDriver] on a stored entry that is not expired
    only rewrites the expiry, whatever the sign of the argument. *)
Lemma md_ttl_live (o : MemoryDriverOptions) (now : Z) (key : Key) (n : Z)
    (d : WrappedValue) (st : MemoryDriver.State) :
  expired now d = false ->
  MemoryDriver.data st !! getFullKey o key = Some d ->
  MemoryDriver.ttl o now key n st
  = (true,
     MemoryDriver.with_data
       <[getFullKey o key
         := {| t := if n =? 0 then 0 else now + n * 1000; v := v d |}]> st).
Proof.
  intros Hlive Hd.
  assert (Hserved : served o now d = true) by (by apply served_live).
  unfold MemoryDriver.ttl.
  rewrite (md_present_own o now _ _ _ Hd), Hserved, (read_slot_own _ _ _ Hd).
  by rewrite wrap_given.
Qed.

(** [ttl] of the [Cache] engine on a stored entry that is not expired:
    a positive argument rewrites the expiry, any other deletes the
    entry. *)
Lemma cache_ttl_live (oc : Cache.Options) (now : Z) (key : Key) (m : Z)
    (d : WrappedValue) (stc : Cache.State) :
  expired now d = false ->
  Cache.data stc !! key_toString key = Some d ->
  key_truthy key = true ->
  Cache.ttl oc now key (Some m) stc
  = (true,
     if 0 <? m
     then Cache.with_data
            <[key_toString key := {| t := now + m * 1000; v := v d |}]> stc
     else cache_remove oc (key_toString key) d stc).
Proof.
  intros Hlive Hcd Hkey.
  unfold Cache.ttl, Cache.checked, Cache._check.
  rewrite Hkey, (read_slot_own _ _ _ Hcd), Hlive. cbn [negb].
  destruct m as [|p|p].
  - cbn [Z.eqb Z.geb Z.compare negb andb Z.ltb].
    by rewrite cache_del_own with (d := d).
  - cbn. by rewrite (read_slot_own _ _ _ Hcd).
  - cbn [Z.eqb Z.geb Z.compare negb andb Z.ltb].
    by rewrite cache_del_own with (d := d).
Qed.

(** C8, at the failing input.  The key ["k"] is stored without expiry
    and [ttl("k", -1)] is called 10 ms later.  The [Cache] engine, whose
    doc comment says "If ttl < 0 the key will be deleted", returns true,
    removes the entry and decrements the key count, and [has] is false
    afterwards.  The two drivers have no branch for a negative ttl:
    they return true and store the entry again with the expiry
    [10 - 1000], in the past; the entry is still in the store and the
    counters are untouched, and with [deleteOnExpire] off [has] is still
    true and [get] still returns the value. *)
Theorem driver_ttl_negative_keeps_the_key :
  let o := driver_options (-1) true in
  let st := outcome_state
              (MemoryDriver.set o 0 (KStr "k") (JNumber 1) None
                 MemoryDriver.init) in
  let lst := snd (MemoryLRUDriver.set o 0 (KStr "k") (JNumber 1) None
                     MemoryLRUDriver.init) in
  let oc := cache_options (-1) true in
  let stc := outcome_state
               (Cache.set oc 0 (KStr "k") (JNumber 1) None (Cache.init oc)) in
  let r := MemoryDriver.ttl o 10 (KStr "k") (-1) st in
  let lr := MemoryLRUDriver.ttl o 10 (KStr "k") (-1) lst in
  let cr := Cache.ttl oc 10 (KStr "k") (Some (-1)) stc in
  let o' := driver_options (-1) false in
  let r' := MemoryDriver.ttl o' 10 (KStr "k") (-1) st in
  let lr' := MemoryLRUDriver.ttl o' 10 (KStr "k") (-1) lst in
  (fst (MemoryDriver.has o 10 (KStr "k") st) = true
   /\ fst (MemoryLRUDriver.has o 10 (KStr "k") lst) = true
   /\ Cache.has oc 10 (KStr "k") stc = true)
  /\ (fst cr = true
      /\ Cache.data (snd cr) !! "k"%string = None
      /\ Stats.keys (Cache.stats (snd cr)) = Stats.keys (Cache.stats stc) - 1
      /\ Cache.has oc 10 (KStr "k") (snd cr) = false)
  /\ (fst r = true
      /\ MemoryDriver.data (snd r) !! "k"%string
         = Some {| t := -990; v := JNumber 1 |}
      /\ MemoryDriver.stats (snd r) = MemoryDriver.stats st
      /\ Stats.keys (MemoryDriver.stats (snd r)) = 1)
  /\ (fst lr = true
      /\ lru_value (snd lr) "k" = Some {| t := -990; v := JNumber 1 |}
      /\ MemoryLRUDriver.stats (snd lr) = MemoryLRUDriver.stats lst
      /\ Stats.keys (MemoryLRUDriver.stats (snd lr)) = 1)
  /\ (fst r' = true
      /\ fst (MemoryDriver.has o' 10 (KStr "k") (snd r')) = true
      /\ fst (MemoryDriver.get o' 10 (KStr "k") (snd r')) = JNumber 1)
  /\ (fst lr' = true
      /\ fst (MemoryLRUDriver.has o' 10 (KStr "k") (snd lr')) = true
      /\ fst (MemoryLRUDriver.get o' 10 (KStr "k") (snd lr')) = JNumber 1).
Proof. cbv zeta. vm_compute. repeat split. Qed.

(** ** Glob patterns *)

Section GlobFacts.
Import Glob.

Lemma append_cons c (s1 s2 : string) :
  (String c s1 ++ s2)%string = String c (s1 ++ s2)%string.
Proof. reflexivity. Qed.

Lemma string_append_assoc (s1 s2 s3 : string) :
  ((s1 ++ s2) ++ s3 = s1 ++ (s2 ++ s3))%string.
Proof.
  induction s1 as [|c s1 IH]; [done|]. by rewrite !append_cons, IH.
Qed.

Lemma replace_chars_app f s1 s2 :
  replace_chars f (s1 ++ s2)%string
  = (replace_chars f s1 ++ replace_chars f s2)%string.
Proof.
  induction s1 as [|c s1 IH]; [done|].
  rewrite append_cons. cbn [replace_chars].
  by rewrite IH, string_append_assoc.
Qed.

Lemma escaped_cons c pattern :
  escaped (String c pattern)
  = (escaped (String c EmptyString) ++ escaped pattern)%string.
Proof.
  unfold escaped.
  change (String c pattern) with (String c EmptyString ++ pattern)%string.
  by rewrite !replace_chars_app.
Qed.

(** No character is rewritten to a text that begins with a star. *)
Lemma escaped_no_leading_star pattern : leading_star (escaped pattern) = false.
Proof.
  destruct pattern as [|c pattern]; [done|]. rewrite escaped_cons.
  by destruct c as [[] [] [] [] [] [] [] []].
Qed.

(** The text one pattern character is rewritten to is read back as the
    atom of that character. *)
Lemma parse_escaped_char c rest :
  leading_star rest = false ->
  parse (escaped (String c EmptyString) ++ rest)%string = atom_of c :: parse rest.
Proof.
  intros Hrest.
  destruct c as [[] [] [] [] [] [] [] []]; try reflexivity.
  destruct rest as [|c' rest]; [done|]. simpl in Hrest.
  change (parse (String "." (String c' rest))
          = AnyChar :: parse (String c' rest)).
  cbn. by rewrite Hrest.
Qed.

Lemma parse_escaped pattern : parse (escaped pattern) = atoms_of pattern.
Proof.
  induction pattern as [|c pattern IH]; [done|].
  rewrite escaped_cons, parse_escaped_char by apply escaped_no_leading_star.
  simpl. by rewrite IH.
Qed.

(** A run followed by [k] succeeds when some split of the text does. *)
Lemma match_run_true (k : string -> bool) pattern :
  (forall s, k s = true <-> glob_matches not_line_terminator pattern s) ->
  forall s,
    match_run k s = true
    <-> glob_matches not_line_terminator (String "*" pattern) s.
Proof.
  intros Hk s. induction s as [|c s IH]; cbn [match_run].
  - rewrite orb_false_r, Hk. split.
    + by constructor.
    + inversion 1; subst; try congruence; done.
  - rewrite orb_true_iff, andb_true_iff, Hk, IH. split.
    + intros [?|[? ?]]; [by constructor|by apply glob_star_more].
    + inversion 1; subst; try congruence; [by left|by right].
Qed.

Lemma atom_of_plain c :
  c <> "*"%char -> c <> "?"%char -> atom_of c = Lit c.
Proof.
  intros H1 H2. unfold atom_of.
  by rewrite (proj2 (Ascii.eqb_neq _ _) H1), (proj2 (Ascii.eqb_neq _ _) H2).
Qed.

(** The regular expression of a pattern accepts exactly the keys the
    pattern matches as a glob whose wildcards skip line terminators. *)
Lemma matches_atoms_of pattern : forall key,
  matches (atoms_of pattern) key = true
  <-> glob_matches not_line_terminator pattern key.
Proof.
  induction pattern as [|c pattern IH]; intros key.
  - destruct key; cbn; split; try done; [by constructor|inversion 1].
  - cbn [atoms_of]. destruct (ascii_dec c "*") as [->|Hstar].
    { change (atom_of "*") with AnyRun. cbn [matches].
      by apply match_run_true. }
    destruct (ascii_dec c "?") as [->|Hq].
    { change (atom_of "?") with AnyChar. cbn [matches].
      destruct key as [|c' key].
      - split; [done|inversion 1; congruence].
      - rewrite andb_true_iff, IH. split.
        + intros [? ?]. by constructor.
        + inversion 1; subst; try congruence; done. }
    rewrite atom_of_plain by done. cbn [matches].
    destruct key as [|c' key].
    + split; [done|inversion 1; congruence].
    + rewrite andb_true_iff, IH, Ascii.eqb_eq. split.
      * intros [-> ?]. by constructor.
      * inversion 1; subst; try congruence; done.
Qed.

(** [patternToRegex(pattern).test(key)] decides that glob. *)
Lemma patternToRegex_test pattern key :
  test (patternToRegex pattern) key = true
  <-> glob_matches not_line_terminator pattern key.
Proof.
  unfold test, patternToRegex. rewrite parse_escaped. apply matches_atoms_of.
Qed.

End GlobFacts.

(** ** keys *)




(** ** Weighted sums over a store *)

Section MapSum.
Context {A : Type} (w : string -> A -> Z).
Implicit Types (m : gmap string A).

Lemma map_sum_empty : map_sum w ∅ = 0.
Proof. unfold map_sum. by rewrite map_fold_empty. Qed.

Lemma map_sum_insert_None m k x :
  m !! k = None -> map_sum w (<[k:=x]> m) = w k x + map_sum w m.
Proof.
  intros Hk. unfold map_sum. rewrite map_fold_insert_L; [done| |done].
  intros. lia.
Qed.

Lemma map_sum_delete m k x :
  m !! k = Some x -> map_sum w (delete k m) = map_sum w m - w k x.
Proof.
  intros Hk. unfold map_sum.
  rewrite (map_fold_delete_L _ _ k x m); [lia| |done]. intros. lia.
Qed.

Lemma map_sum_insert_Some m k x y :
  m !! k = Some y -> map_sum w (<[k:=x]> m) = map_sum w m - w k y + w k x.
Proof.
  intros Hk. rewrite <-insert_delete_eq.
  rewrite map_sum_insert_None by apply lookup_delete_eq.
  rewrite (map_sum_delete m k y) by done. lia.
Qed.

Lemma map_sum_nonneg m :
  (forall k x, 0 <= w k x) -> 0 <= map_sum w m.
Proof.
  intros Hw. induction m as [|k x m Hk IH] using map_ind.
  - by rewrite map_sum_empty.
  - rewrite map_sum_insert_None by done. specialize (Hw k x). lia.
Qed.

End MapSum.

(** ** The counters of the Cache engine *)

Section CacheCounters.
Context (o : Cache.Options) (sized : bool).
Hypothesis (Hstats : Cache.enableStats o = true).
Hypothesis (Hdel : Cache.deleteOnExpire o = true).
Implicit Types (st : Cache.State) (d w : WrappedValue) (key : Key).

(** Consistency looks at the store and at three counters only. *)
Lemma cache_consistent_ext st st' :
  Cache.data st' = Cache.data st ->
  Cache.dataMap st' = Cache.dataMap st ->
  Stats.keys (Cache.stats st') = Stats.keys (Cache.stats st) ->
  Stats.ksize (Cache.stats st') = Stats.ksize (Cache.stats st) ->
  (sized = true ->
   Stats.vsize (Cache.stats st') = Stats.vsize (Cache.stats st)) ->
  cache_consistent sized o st -> cache_consistent sized o st'.
Proof.
  unfold cache_consistent.
  intros -> -> -> -> Hv (? & ? & ? & Hvs & ? & ?).
  split_and!; try done. intros Hs. rewrite Hv by done. by apply Hvs.
Qed.

Lemma cache_consistent_hit st :
  cache_consistent sized o st ->
  cache_consistent sized o (Cache.with_stats Stats.hit st).
Proof. by apply cache_consistent_ext. Qed.

Lemma cache_consistent_miss st :
  cache_consistent sized o st ->
  cache_consistent sized o (Cache.with_stats Stats.miss st).
Proof. by apply cache_consistent_ext. Qed.

(** While the sizes of the values are not followed, [vsize] is free. *)
Lemma cache_consistent_unsized n st :
  sized = false ->
  cache_consistent sized o st ->
  cache_consistent sized o (Cache.with_stats (Stats.add_vsize n) st).
Proof. intros Hs. apply cache_consistent_ext; try done. congruence. Qed.

(** The capacity test of [set] and [mset] is on exactly for a positive
    [maxKeys]. *)
Lemma cache_bounded_iff :
  negb (Cache.maxKeys o =? 0) && (Cache.maxKeys o >? -1)
  = (0 <? Cache.maxKeys o).
Proof.
  destruct (Z.eqb_spec (Cache.maxKeys o) 0), (Z.ltb_spec 0 (Cache.maxKeys o));
    rewrite Z.gtb_ltb; cbn [negb andb]; try lia;
    destruct (Z.ltb_spec (-1) (Cache.maxKeys o)); try done; lia.
Qed.

(** Removing a stored entry as [del] does. *)
Lemma cache_consistent_remove keyStr d st :
  Cache.data st !! keyStr = Some d ->
  cache_consistent sized o st ->
  cache_consistent sized o (cache_remove o keyStr d st).
Proof.
  intros Hd (Hmap & Hk & Hks & Hvs & Hb & Hn).
  unfold cache_consistent, cache_remove. simpl.
  split_and!; [done| | | | |].
  - rewrite map_size_delete_Some by done. rewrite Hk.
    assert (size (Cache.data st) <> 0%nat).
    { apply map_size_ne_0_lookup_2 with keyStr. by rewrite Hd. }
    lia.
  - rewrite (map_sum_delete _ _ keyStr d) by done. lia.
  - intros Hs. specialize (Hvs Hs).
    rewrite (map_sum_delete _ _ keyStr d) by done. lia.
  - intros Hmax. specialize (Hb Hmax). lia.
  - intros k [x Hx]. apply Hn.
    destruct (decide (keyStr = k)) as [->|Hne];
      [by rewrite lookup_delete_eq in Hx|].
    rewrite lookup_delete_ne in Hx by done. by exists x.
Qed.

(** Storing an entry with the bookkeeping that [set], [mset] and [ttl]
    share: the old value size leaves, the size [n] enters, and a new
    key is counted; a bounded cache must have room for a new key. *)
Lemma cache_consistent_put keyStr w n st :
  cache_consistent sized o st ->
  inherited keyStr = false ->
  (sized = true -> Cache._getValLength o (v w) = n) ->
  (Cache.data st !! keyStr = None -> 0 < Cache.maxKeys o ->
   Stats.keys (Cache.stats st) < Cache.maxKeys o) ->
  cache_consistent sized o
    match Cache.data st !! keyStr with
    | Some d =>
        Cache.with_stats (Stats.add_vsize n)
          (Cache.with_data <[keyStr := w]>
             (Cache.with_stats
                (Stats.add_vsize (- Cache._getValLength o (v d))) st))
    | None =>
        Cache.with_stats (Stats.add_keys 1)
          (Cache.with_stats (Stats.add_ksize (strlen keyStr))
             (Cache.with_stats (Stats.add_vsize n)
                (Cache.with_data <[keyStr := w]> st)))
    end.
Proof.
  intros (Hmap & Hk & Hks & Hvs & Hb & Hn) Hplain Hsize Hroom.
  assert (Hnames : forall k, is_Some (<[keyStr := w]> (Cache.data st) !! k) ->
                     inherited k = false).
  { intros k [x Hx]. destruct (decide (keyStr = k)) as [<-|Hne]; [done|].
    rewrite lookup_insert_ne in Hx by done. apply Hn. by exists x. }
  unfold cache_consistent.
  destruct (Cache.data st !! keyStr) as [d|] eqn:Hd; simpl;
    (split_and!; [done| | | | |done]).
  - rewrite map_size_insert_Some by done. done.
  - rewrite (map_sum_insert_Some _ _ keyStr w d) by done. lia.
  - intros Hs. specialize (Hvs Hs). specialize (Hsize Hs).
    rewrite (map_sum_insert_Some _ _ keyStr w d) by done. lia.
  - done.
  - rewrite map_size_insert_None by done. lia.
  - rewrite map_sum_insert_None by done. lia.
  - intros Hs. specialize (Hvs Hs). specialize (Hsize Hs).
    rewrite map_sum_insert_None by done. lia.
  - intros Hmax. specialize (Hroom eq_refl Hmax). lia.
Qed.

Lemma cache_consistent_del_step acc key :
  inherited (key_toString key) = false ->
  cache_consistent sized o (snd acc) ->
  cache_consistent sized o (snd (Cache.del_step o acc key)).
Proof.
  intros Hplain. destruct acc as [n st]. unfold Cache.del_step. cbn [snd].
  rewrite read_slot_plain by done.
  destruct (Cache.data st !! key_toString key) as [d|] eqn:Hd; [|done].
  intros Hc. by apply (cache_consistent_remove _ d).
Qed.

Lemma cache_consistent_del keys st :
  plain_keys keys ->
  cache_consistent sized o st ->
  cache_consistent sized o (snd (Cache.del o keys st)).
Proof.
  unfold Cache.del, plain_keys. generalize 0. revert st.
  induction keys as [|key keys IH]; intros st n Hp Hc; [done|].
  apply Forall_cons in Hp as [Hkey Hp]. cbn [foldl].
  pose proof (cache_consistent_del_step (n, st) key Hkey Hc) as Hstep.
  destruct (Cache.del_step o (n, st) key) as [n1 st1]. by apply IH.
Qed.

Lemma cache_consistent_del_one key st :
  inherited (key_toString key) = false ->
  cache_consistent sized o st ->
  cache_consistent sized o (snd (Cache.del o [key] st)).
Proof.
  intros Hplain. apply cache_consistent_del. by apply Forall_singleton.
Qed.

Lemma cache_consistent_check now keyStr d st :
  inherited keyStr = false ->
  cache_consistent sized o st ->
  cache_consistent sized o (snd (Cache._check o now keyStr d st)).
Proof.
  intros Hplain Hc. unfold Cache._check.
  destruct (expired now d); [|done]. rewrite Hdel. cbn [snd].
  by apply cache_consistent_del_one.
Qed.

Lemma cache_consistent_get now key st :
  cache_consistent sized o st ->
  cache_consistent sized o (snd (Cache.get o now key st)).
Proof.
  intros Hc. pose proof Hc as (Hmap & _).
  unfold Cache.get, Cache.fast_lookup. rewrite Hmap, Hstats, Hdel.
  destruct (read_slot (Cache.data st) (key_toString key)) as [d| |] eqn:Hd;
    [|by apply cache_consistent_hit|by apply cache_consistent_miss].
  apply read_slot_Own in Hd.
  destruct (Cache._checkTTL o && negb (t d =? 0) && (t d <? now));
    [|by apply cache_consistent_hit].
  unfold Cache.fast_delete. cbn [snd Cache.dataMap Cache.with_stats].
  rewrite Hmap.
  change (cache_consistent sized o
            (cache_remove o (key_toString key) d
               (Cache.with_stats Stats.miss st))).
  apply cache_consistent_remove; [done|]. by apply cache_consistent_miss.
Qed.

Lemma cache_consistent_mget now keys st :
  plain_keys keys ->
  cache_consistent sized o st ->
  cache_consistent sized o (snd (Cache.mget o now keys st)).
Proof.
  unfold Cache.mget, plain_keys.
  generalize (∅ : gmap string JsValue). revert st.
  induction keys as [|key keys IH]; intros st result Hp Hc; [done|].
  apply Forall_cons in Hp as [Hkey Hp].
  cbn [foldl]. rewrite cache_mget_step_spec, Hdel, read_slot_plain by done.
  destruct (Cache.data st !! key_toString key) as [d|] eqn:Hd.
  - destruct (expired now d).
    + apply IH; [done|]. apply cache_consistent_remove; [done|].
      by apply cache_consistent_miss.
    + apply IH; [done|]. by apply cache_consistent_hit.
  - apply IH; [done|]. by apply cache_consistent_miss.
Qed.

(** A value with a copy of its own size has a copy. *)
Lemma same_size_copy_stored value :
  same_size_copy o value = true ->
  exists copy, Cache.stored_copy o value = Some copy
               /\ Cache._getValLength o copy = Cache._getValLength o value.
Proof.
  unfold same_size_copy.
  destruct (Cache.stored_copy o value) as [copy|]; [|done].
  intros Hsize. exists copy. split; [done|]. by apply Z.eqb_eq.
Qed.

Lemma cache_consistent_set now key value ttl st :
  inherited (key_toString key) = false ->
  (sized = true -> same_size_copy o value = true) ->
  cache_consistent sized o st ->
  cache_consistent sized o (outcome_state (Cache.set o now key value ttl st)).
Proof.
  intros Hplain Hsize Hc. pose proof Hc as (Hmap & _).
  unfold Cache.set, Cache.fast_lookup, Cache.fast_store. rewrite Hmap, Hstats.
  rewrite read_slot_plain by done.
  rewrite <-!andb_assoc, (andb_assoc (negb (Cache.maxKeys o =? 0))).
  rewrite cache_bounded_iff.
  destruct (negb _ && _) eqn:Hfull; [done|].
  assert (Hroom : Cache.data st !! key_toString key = None ->
                  0 < Cache.maxKeys o ->
                  Stats.keys (Cache.stats st) < Cache.maxKeys o).
  { intros Hnone Hmax. rewrite Hnone in Hfull.
    cbn [found negb andb] in Hfull.
    apply andb_false_iff in Hfull.
    rewrite Z.ltb_ge, Z.geb_leb, Z.leb_gt in Hfull. lia. }
  destruct (Cache.stored_copy o value) as [copy|] eqn:Hcopy;
    cbn [outcome_state].
  - assert (Hn : sized = true ->
                 Cache._getValLength o copy = Cache._getValLength o value).
    { intros Hs. destruct (same_size_copy_stored value (Hsize Hs))
        as (copy' & Hc' & Hn). congruence. }
    pose proof (cache_consistent_put (key_toString key)
                  {| t := if Cache._checkTTL o
                          then Cache.livetime_of o now ttl else 0;
                     v := copy |} (Cache._getValLength o value) st Hc Hplain
                  Hn Hroom) as Hput.
    destruct (Cache.data st !! key_toString key) as [d|] eqn:Hd;
      cbn [found slot_v andb Cache.dataMap Cache.with_stats];
      by rewrite Hmap.
  - assert (Hs : sized = false).
    { destruct (decide (sized = true)) as [Hs|Hs];
        [|by apply not_true_is_false].
      destruct (same_size_copy_stored value (Hsize Hs)) as (? & ? & _).
      congruence. }
    destruct (Cache.data st !! key_toString key) as [d|];
      cbn [found andb]; [by apply cache_consistent_unsized|done].
Qed.

(** What the test of the first loop of [mset] reads. *)
Lemma found_read_slot (data : gmap string WrappedValue) k :
  found (read_slot data k)
  = match data !! k with Some _ => true | None => inherited k end.
Proof.
  unfold read_slot. destruct (data !! k); [done|]. by destruct (inherited k).
Qed.

(** Storing entries can only lower the number of new keys of a batch. *)
Lemma newKeysCount_mono (entries : list (Key * JsValue * option Z)) st st' :
  (forall k, is_Some (Cache.data st !! k) -> is_Some (Cache.data st' !! k)) ->
  Cache.newKeysCount entries st' <= Cache.newKeysCount entries st.
Proof.
  intros Hsub. unfold Cache.newKeysCount, len.
  induction entries as [|[[key val] ttl] rest IH]; [done|].
  cbn [List.filter]. rewrite !found_read_slot.
  destruct (Cache.data st !! key_toString key) as [d|] eqn:Hin.
  - destruct (Hsub (key_toString key)) as [d' ->]; [done|]. cbn [negb]. done.
  - destruct (Cache.data st' !! key_toString key);
      destruct (inherited (key_toString key)); cbn [negb length]; lia.
Qed.

Lemma newKeysCount_nonneg (entries : list (Key * JsValue * option Z)) st :
  0 <= Cache.newKeysCount entries st.
Proof. unfold Cache.newKeysCount, len. lia. Qed.

Lemma newKeysCount_cons key val ttl
    (rest : list (Key * JsValue * option Z)) st :
  inherited (key_toString key) = false ->
  Cache.newKeysCount ((key, val, ttl) :: rest) st
  = (if Cache.data st !! key_toString key is Some _ then 0 else 1)
    + Cache.newKeysCount rest st.
Proof.
  intros Hplain. unfold Cache.newKeysCount, len. cbn [List.filter].
  rewrite found_read_slot, Hplain.
  destruct (Cache.data st !! key_toString key); cbn [negb length]; lia.
Qed.

(** The second loop of [mset], with room for the new keys of the
    batch. *)
Lemma cache_consistent_mset_loop now keyValueSet : forall st,
  plain_keys (map (fun e => e.1.1) keyValueSet) ->
  (sized = true ->
   forallb (same_size_copy o) (map (fun e => e.1.2) keyValueSet) = true) ->
  cache_consistent sized o st ->
  (0 < Cache.maxKeys o ->
   Stats.keys (Cache.stats st) + Cache.newKeysCount keyValueSet st
   <= Cache.maxKeys o) ->
  cache_consistent sized o
    (outcome_state (Cache.mset_loop o now keyValueSet st)).
Proof.
  unfold plain_keys.
  induction keyValueSet as [|[[key val] ttl] rest IH];
    intros st Hp Hsize Hc Hroom; [done|].
  cbn [map] in Hp, Hsize. apply Forall_cons in Hp as [Hkey Hp].
  cbn [fst snd forallb] in Hkey, Hsize.
  cbn [Cache.mset_loop]. rewrite read_slot_plain by done.
  rewrite newKeysCount_cons in Hroom by done.
  pose proof (newKeysCount_nonneg rest st) as Hpos.
  destruct (Cache.stored_copy o val) as [copy|] eqn:Hcopy.
  - assert (Hn : sized = true ->
                 Cache._getValLength o copy = Cache._getValLength o val).
    { intros Hs. specialize (Hsize Hs). apply andb_true_iff in Hsize as [Hv _].
      destruct (same_size_copy_stored val Hv) as (copy' & Hc' & Hn).
      congruence. }
    assert (Hrest : sized = true ->
                    forallb (same_size_copy o) (map (fun e => e.1.2) rest)
                    = true).
    { intros Hs. specialize (Hsize Hs). by apply andb_true_iff in Hsize as [_ ?]. }
    pose proof (cache_consistent_put (key_toString key)
                  {| t := Cache.livetime_of o now ttl; v := copy |}
                  (Cache._getValLength o val) st Hc Hkey Hn) as Hput.
    destruct (Cache.data st !! key_toString key) as [d|] eqn:Hd;
      cbn [found slot_v].
    + match goal with
      | |- context [Cache.mset_loop o now rest ?s] => set (st' := s) in *
      end.
      assert (Hmono : Cache.newKeysCount rest st'
                      <= Cache.newKeysCount rest st).
      { apply newKeysCount_mono. intros k Hk. simpl.
        rewrite lookup_insert. by case_decide. }
      assert (Hkeys : Stats.keys (Cache.stats st')
                      = Stats.keys (Cache.stats st)) by reflexivity.
      apply IH; [done|done|by apply Hput|]. intros Hmax.
      specialize (Hroom Hmax). lia.
    + match goal with
      | |- context [Cache.mset_loop o now rest ?s] => set (st' := s) in *
      end.
      assert (Hmono : Cache.newKeysCount rest st'
                      <= Cache.newKeysCount rest st).
      { apply newKeysCount_mono. intros k Hk. simpl.
        rewrite lookup_insert. by case_decide. }
      assert (Hkeys : Stats.keys (Cache.stats st')
                      = Stats.keys (Cache.stats st) + 1) by (simpl; lia).
      apply IH; [done|done| |].
      * apply Hput. intros _ Hmax. specialize (Hroom Hmax). lia.
      * intros Hmax. specialize (Hroom Hmax). lia.
  - cbn [outcome_state].
    assert (Hs : sized = false).
    { destruct (decide (sized = true)) as [Hs|Hs];
        [|by apply not_true_is_false].
      specialize (Hsize Hs). apply andb_true_iff in Hsize as [Hv _].
      destruct (same_size_copy_stored val Hv) as (? & ? & _). congruence. }
    destruct (Cache.data st !! key_toString key) as [d|];
      cbn [found]; [by apply cache_consistent_unsized|done].
Qed.

Lemma cache_consistent_mset now keyValueSet st :
  plain_keys (map (fun e => e.1.1) keyValueSet) ->
  (sized = true ->
   forallb (same_size_copy o) (map (fun e => e.1.2) keyValueSet) = true) ->
  cache_consistent sized o st ->
  cache_consistent sized o (outcome_state (Cache.mset o now keyValueSet st)).
Proof.
  intros Hp Hsize Hc. unfold Cache.mset. rewrite cache_bounded_iff.
  destruct (_ && _) eqn:Hfull; [done|].
  apply cache_consistent_mset_loop; [done|done|done|]. intros Hmax.
  apply andb_false_iff in Hfull.
  rewrite Z.ltb_ge, Z.gtb_ltb, Z.ltb_ge in Hfull. lia.
Qed.

Lemma cache_consistent_fetch now key args st :
  inherited (key_toString key) = false ->
  (sized = true -> same_size_copy o (fetch_stores args) = true) ->
  cache_consistent sized o st ->
  cache_consistent sized o (outcome_state (Cache.fetch o now key args st)).
Proof.
  intros Hplain Hsize Hc. unfold Cache.fetch.
  destruct (match read_slot (Cache.data st) (key_toString key) with
            | Own d => if (t d =? 0) || (t d >=? now) then Some d else None
            | _ => None
            end) as [d|]; [by apply cache_consistent_hit|].
  pose proof (cache_consistent_miss st Hc) as Hmiss.
  destruct args as [source|n [value|result]]; [|destruct value|];
    cbn [fetch_stores Cache.fetched] in Hsize |- *;
    match goal with
    | |- context [Cache.set o now key ?val ?ttl1 ?s] =>
        pose proof (cache_consistent_set now key val ttl1 s Hplain Hsize Hmiss)
          as Hset;
        by destruct (Cache.set o now key val ttl1 s)
    end.
Qed.

Lemma cache_consistent_take now key st :
  inherited (key_toString key) = false ->
  cache_consistent sized o st ->
  cache_consistent sized o (snd (Cache.take o now key st)).
Proof.
  intros Hplain Hc. unfold Cache.take.
  pose proof (cache_consistent_get now key st Hc) as Hget.
  destruct (Cache.get o now key st) as [value st1]. cbn [snd] in Hget.
  destruct value; cbn [snd]; try done; by apply cache_consistent_del_one.
Qed.

Lemma cache_consistent_ttl now key ttl st :
  inherited (key_toString key) = false ->
  cache_consistent sized o st ->
  cache_consistent sized o (snd (Cache.ttl o now key ttl st)).
Proof.
  intros Hplain Hc. unfold Cache.ttl, Cache.checked.
  destruct (negb (key_truthy key)); [done|].
  rewrite read_slot_plain by done.
  destruct (Cache.data st !! key_toString key) as [d|] eqn:Hd; [|done].
  unfold Cache._check. rewrite Hdel.
  destruct (expired now d); [by apply cache_consistent_del_one|].
  destruct (negb _ && _); [|by apply cache_consistent_del_one].
  cbn [snd]. rewrite (read_slot_own _ _ _ Hd). cbn [slot_v].
  pose proof (cache_consistent_put (key_toString key)
                (Cache._wrap o now (v d)
                   (Some (match ttl with Some n => n | None => Cache.stdTTL o end)))
                (Cache._getValLength o (v d))
                st Hc Hplain ltac:(done) ltac:(intros; congruence)) as Hput.
  rewrite Hd in Hput. revert Hput. apply cache_consistent_ext; simpl; try done.
  intros. lia.
Qed.

Lemma cache_consistent_getTtl now key st :
  inherited (key_toString key) = false ->
  cache_consistent sized o st ->
  cache_consistent sized o (snd (Cache.getTtl o now key st)).
Proof.
  intros Hplain Hc. unfold Cache.getTtl, Cache.checked.
  destruct (negb (key_truthy key)); [done|].
  rewrite read_slot_plain by done.
  destruct (Cache.data st !! key_toString key) as [d|]; [|done].
  pose proof (cache_consistent_check now (key_toString key) d st Hplain Hc)
    as Hcheck.
  destruct (Cache._check o now (key_toString key) d st) as [ok st1].
  by destruct ok.
Qed.

Lemma cache_consistent_checkData now st :
  cache_consistent sized o st ->
  cache_consistent sized o (Cache._checkData o now st).
Proof.
  intros Hc. unfold Cache._checkData.
  assert (Hl : Forall (fun kd => inherited kd.1 = false)
                      (map_to_list (Cache.data st))).
  { destruct Hc as (_ & _ & _ & _ & _ & Hn). apply Forall_forall.
    intros [k d] Hin. apply Hn. apply elem_of_map_to_list in Hin. by exists d. }
  revert Hl. generalize (map_to_list (Cache.data st)). intros l. revert st Hc.
  induction l as [|[k d] l IH]; intros st Hc Hl; [done|].
  apply Forall_cons in Hl as [Hk Hl].
  cbn [foldl]. apply IH; [|done]. by apply cache_consistent_check.
Qed.

Lemma cache_consistent_fresh :
  cache_consistent sized o
    {| Cache.data := ∅; Cache.dataMap := None; Cache.stats := Stats.zero |}.
Proof.
  unfold cache_consistent. simpl.
  rewrite map_size_empty, !map_sum_empty. split_and!; try done; [lia|].
  intros k [x Hx]. by rewrite lookup_empty in Hx.
Qed.

Lemma forallb_plain_keys keys :
  forallb (fun key => negb (inherited (key_toString key))) keys = true ->
  plain_keys keys.
Proof.
  unfold plain_keys. induction keys as [|key keys IH]; cbn [forallb].
  - constructor.
  - rewrite andb_true_iff, negb_true_iff. intros [? ?]. constructor; auto.
Qed.

Lemma cache_consistent_call now c st :
  plain_call c = true ->
  (sized = true -> sized_call o c = true) ->
  cache_consistent sized o st ->
  cache_consistent sized o (cache_call o now c st).
Proof.
  intros Hp Hsize Hc. unfold sized_call in Hsize.
  destruct c; cbn [cache_call]; try done;
    cbn [plain_call call_keys call_values forallb] in Hp, Hsize;
    try (apply forallb_plain_keys in Hp);
    try (rewrite andb_true_r, negb_true_iff in Hp).
  - by apply cache_consistent_get.
  - by apply cache_consistent_mget.
  - apply cache_consistent_set; [done| |done].
    intros Hs. specialize (Hsize Hs). by rewrite andb_true_r in Hsize.
  - apply cache_consistent_fetch; [done| |done].
    intros Hs. specialize (Hsize Hs). by rewrite andb_true_r in Hsize.
  - by apply cache_consistent_mset.
  - by apply cache_consistent_del.
  - by apply cache_consistent_take.
  - by apply cache_consistent_ttl.
  - by apply cache_consistent_getTtl.
  - by apply cache_consistent_checkData.
  - unfold Cache.flushAll. apply cache_consistent_checkData.
    destruct Hc as [-> _]. by apply cache_consistent_fresh.
Qed.

Lemma cache_consistent_after calls :
  Cache.maxPerformance o = false ->
  forallb (fun nc => plain_call nc.2) calls = true ->
  (sized = true -> forallb (fun nc => sized_call o nc.2) calls = true) ->
  cache_consistent sized o (cache_after o calls).
Proof.
  intros Hplain. unfold cache_after.
  induction calls as [|[now c] calls IH] using rev_ind; intros Hp Hsize.
  - unfold Cache.init. rewrite Hplain. apply cache_consistent_fresh.
  - rewrite foldl_snoc. rewrite forallb_app in Hp.
    apply andb_true_iff in Hp as [Hp Hc]. cbn in Hc.
    rewrite andb_true_r in Hc.
    apply cache_consistent_call; [done| |].
    + intros Hs. specialize (Hsize Hs). rewrite forallb_app in Hsize.
      apply andb_true_iff in Hsize as [_ Hv]. cbn in Hv.
      by rewrite andb_true_r in Hv.
    + apply IH; [done|]. intros Hs. specialize (Hsize Hs).
      rewrite forallb_app in Hsize. by apply andb_true_iff in Hsize as [? _].
Qed.

End CacheCounters.

(** In a [Cache] engine with statistics on, [deleteOnExpire] on,
    built without [maxPerformance] (and with [forceString] off), after
    any sequence of calls of [get], [mget], [set], [fetch], [mset],
    [del], [take], [ttl], [getTtl], [has], [keys], the sweep and
    [flushAll] (but not [flushStats], which zeroes the counters of a
    store it leaves as it is) in which no key is a name inherited from
    [Object.prototype], made at any clock readings and whether they
    return or throw: [keys] is the number of stored entries and [ksize]
    the sum of the lengths of the stored keys, neither negative; and
    when moreover every value given to store has a copy with its own
    size estimate (it has no promise inside and is no [Buffer], or
    [useClones] is off), [vsize] is the sum of the size estimates of
    the stored values. *)
Theorem cache_counters_exact_after_calls
    (o : Cache.Options) (calls : list (Z * CacheCall)) :
  Cache.enableStats o = true ->
  Cache.deleteOnExpire o = true ->
  Cache.maxPerformance o = false ->
  forallb (fun nc => plain_call nc.2) calls = true ->
  (Stats.keys (Cache.stats (cache_after o calls))
   = Z.of_nat (size (Cache.data (cache_after o calls)))
   /\ Stats.ksize (Cache.stats (cache_after o calls))
      = map_sum (fun k _ => strlen k) (Cache.data (cache_after o calls))
   /\ 0 <= Stats.keys (Cache.stats (cache_after o calls))
   /\ 0 <= Stats.ksize (Cache.stats (cache_after o calls)))
  /\ (forallb (fun nc => sized_call o nc.2) calls = true ->
      cache_stats_exact o (cache_after o calls)).
Proof.
  intros Hstats Hdel Hplain Hcalls. split.
  - destruct (cache_consistent_after o false Hstats Hdel calls Hplain Hcalls
                ltac:(done)) as (_ & Hk & Hks & _).
    split_and!; [done|done|lia|].
    rewrite Hks. apply map_sum_nonneg. intros. unfold strlen. lia.
  - intros Hsized.
    destruct (cache_consistent_after o true Hstats Hdel calls Hplain Hcalls
                (fun _ => Hsized)) as (_ & Hk & Hks & Hvs & _).
    unfold cache_stats_exact. auto.
Qed.

(** The counters after storing a three-character value that then
    expires and is read: the lazy removal by [get] leaves them at zero. *)
Lemma cache_counters_exact_after_calls_witness :
  cache_stats_exact Cache.DEFAULT_OPTIONS
    (cache_after Cache.DEFAULT_OPTIONS
       [(0, CallSet (KStr "a") (JString "xyz") (Some 1));
        (2000, CallGet (KStr "a"))]).
Proof.
  exact (proj2 (cache_counters_exact_after_calls Cache.DEFAULT_OPTIONS
                  [(0, CallSet (KStr "a") (JString "xyz") (Some 1));
                   (2000, CallGet (KStr "a"))]
                  eq_refl eq_refl eq_refl eq_refl) eq_refl).
Defined.

(** A [Cache] engine bounded by a positive [maxKeys] (statistics
    on, [deleteOnExpire] on, built without [maxPerformance]) never
    stores more than [maxKeys] entries, whatever calls other than
    [flushStats] are made with keys that are no names inherited from
    [Object.prototype]: [set] and [fetch] throw rather than add a key to
    a full cache and [mset] throws rather than apply a batch whose new
    keys do not fit. *)
Theorem cache_store_within_maxKeys
    (o : Cache.Options) (calls : list (Z * CacheCall)) :
  Cache.enableStats o = true ->
  Cache.deleteOnExpire o = true ->
  Cache.maxPerformance o = false ->
  0 < Cache.maxKeys o ->
  forallb (fun nc => plain_call nc.2) calls = true ->
  Z.of_nat (size (Cache.data (cache_after o calls))) <= Cache.maxKeys o.
Proof.
  intros Hstats Hdel Hplain Hmax Hcalls.
  destruct (cache_consistent_after o false Hstats Hdel calls Hplain Hcalls
              ltac:(done)) as (_ & Hk & _ & _ & Hb & _).
  rewrite <-Hk. by apply Hb.
Qed.

(** A cache bounded to two keys, after a batch of three keys, which
    throws, and a batch of two, which fits. *)
Lemma cache_store_within_maxKeys_witness :
  Z.of_nat (size (Cache.data
                    (cache_after (cache_options 2 true)
                       [(0, CallMset [(KStr "a", JNumber 1, None);
                                      (KStr "b", JNumber 2, None);
                                      (KStr "c", JNumber 3, None)]);
                        (1, CallMset [(KStr "a", JNumber 1, None);
                                      (KStr "b", JNumber 2, None)])]))) <= 2.
Proof.
  apply (cache_store_within_maxKeys (cache_options 2 true)
           [(0, CallMset [(KStr "a", JNumber 1, None);
                          (KStr "b", JNumber 2, None);
                          (KStr "c", JNumber 3, None)]);
            (1, CallMset [(KStr "a", JNumber 1, None);
                          (KStr "b", JNumber 2, None)])]);
    first [reflexivity | simpl; lia].
Defined.

(** ** Full keys *)

Section KeyNames.
Context (o : MemoryDriverOptions).

Lemma prefix_append (p s : string) : String.prefix p (p ++ s)%string = true.
Proof.
  induction p as [|c p IH]; [by destruct s|].
  change (String c p ++ s)%string with (String c (p ++ s)%string).
  cbn [String.prefix]. by destruct (ascii_dec c c).
Qed.

Lemma slice_append (p s : string) : slice (String.length p) (p ++ s)%string = s.
Proof.
  induction p as [|c p IH]; [done|].
  change (String c p ++ s)%string with (String c (p ++ s)%string).
  by cbn [String.length slice].
Qed.

Lemma length_append (p s : string) :
  String.length (p ++ s)%string = (String.length p + String.length s)%nat.
Proof.
  induction p as [|c p IH]; [done|].
  change (String c p ++ s)%string with (String c (p ++ s)%string).
  cbn [String.length]. by rewrite IH.
Qed.

Lemma stripPrefix_full_key (s : string) : stripPrefix o (full_key o s) = s.
Proof.
  unfold stripPrefix, full_key.
  destruct (String.eqb (prefix o) "") eqn:Hp; [done|]. cbn [negb andb].
  assert (Hassoc : (prefix o ++ ":" ++ s)%string = ((prefix o ++ ":") ++ s)%string).
  { by rewrite string_append_assoc. }
  rewrite Hassoc, prefix_append.
  replace (String.length (prefix o) + 1)%nat
    with (String.length (prefix o ++ ":")%string)
    by (rewrite length_append; done).
  apply slice_append.
Qed.

Lemma stripPrefix_getFullKey_inj key key' :
  getFullKey o key = getFullKey o key' -> key_toString key = key_toString key'.
Proof.
  rewrite !getFullKey_full_key. intros Heq.
  apply (f_equal (stripPrefix o)) in Heq.
  by rewrite !stripPrefix_full_key in Heq.
Qed.

End KeyNames.

(** ** The key counter of the MemoryDriver *)

Section MemoryCounter.
Context (o : MemoryDriverOptions) (counted : bool).
Implicit Types (st : MemoryDriver.State) (d : WrappedValue) (key : Key).

(** The invariant looks at the store, the key counter and the tags. *)
Lemma memory_within_ext st st' :
  MemoryDriver.data st' = MemoryDriver.data st ->
  Stats.keys (MemoryDriver.stats st') = Stats.keys (MemoryDriver.stats st) ->
  MemoryDriver.tags st' = MemoryDriver.tags st ->
  memory_within counted o st -> memory_within counted o st'.
Proof.
  unfold memory_within, memory_names, memory_keys_exact. intros -> -> ->. done.
Qed.

(** While the counter is not followed, the names are all there is. *)
Lemma memory_within_uncounted st :
  counted = false -> memory_names o st -> memory_within counted o st.
Proof. intros -> Hn. split; [done|]. by intros ?. Qed.

Lemma memory_names_delete fullKey st st' :
  MemoryDriver.data st' = delete fullKey (MemoryDriver.data st) ->
  memory_names o st -> memory_names o st'.
Proof.
  intros Hd Hn fk. rewrite Hd, lookup_delete.
  case_decide; [by intros [? ?]|]. apply Hn.
Qed.

Lemma memory_names_insert key w st st' :
  MemoryDriver.data st' = <[getFullKey o key := w]> (MemoryDriver.data st) ->
  memory_names o st -> memory_names o st'.
Proof.
  intros Hd Hn fk. rewrite Hd, lookup_insert.
  destruct (decide (getFullKey o key = fk)) as [<-|Hne]; [|apply Hn].
  intros _. by rewrite getFullKey_full_key, stripPrefix_full_key.
Qed.

(** A stored entry leaves and the counter goes down by one. *)
Lemma memory_within_remove fullKey st st' :
  is_Some (MemoryDriver.data st !! fullKey) ->
  MemoryDriver.data st' = delete fullKey (MemoryDriver.data st) ->
  Stats.keys (MemoryDriver.stats st') = Stats.keys (MemoryDriver.stats st) - 1 ->
  (forall tagName keySet' fk,
     MemoryDriver.tags st' !! tagName = Some keySet' -> fk ∈ keySet' ->
     exists keySet, MemoryDriver.tags st !! tagName = Some keySet
                    /\ fk ∈ keySet) ->
  memory_within counted o st -> memory_within counted o st'.
Proof.
  intros [d Hd] Hdata Hkeys Htags (Hn & Hc).
  split; [by apply (memory_names_delete fullKey st)|].
  intros Hcounted. destruct (Hc Hcounted) as (Hk & Hb & Ht).
  unfold memory_keys_exact in *. rewrite Hkeys, Hdata.
  rewrite map_size_delete_Some by done.
  assert (size (MemoryDriver.data st) <> 0%nat).
  { apply map_size_ne_0_lookup_2 with fullKey. by rewrite Hd. }
  split_and!; [lia| |].
  - intros Hmax. specialize (Hb Hmax). lia.
  - intros tagName keySet' fk Hl Hin.
    destruct (Htags tagName keySet' fk Hl Hin) as (keySet & Hl' & Hin').
    by apply (Ht tagName keySet fk).
Qed.

Lemma memory_within_expire fullKey st :
  is_Some (MemoryDriver.data st !! fullKey) ->
  memory_within counted o st -> memory_within counted o (md_expire fullKey st).
Proof.
  intros Hin. apply (memory_within_remove fullKey); try done.
  intros tagName keySet fk Hl Hfk. by exists keySet.
Qed.

Lemma memory_within_checkExpiry now fullKey d st :
  is_Some (MemoryDriver.data st !! fullKey) ->
  memory_within counted o st ->
  memory_within counted o (snd (MemoryDriver.checkExpiry o now fullKey d st)).
Proof.
  intros Hin Hw. rewrite md_checkExpiry_spec.
  destruct (served o now d); [done|]. by apply memory_within_expire.
Qed.

Lemma memory_within_present now fullKey st :
  memory_within counted o st ->
  memory_within counted o (snd (MemoryDriver.present o now fullKey st)).
Proof.
  intros Hw. unfold MemoryDriver.present.
  destruct (read_slot (MemoryDriver.data st) fullKey) as [d| |] eqn:Hd;
    [|done..].
  apply read_slot_Own in Hd.
  apply memory_within_checkExpiry; [by rewrite Hd|done].
Qed.

Lemma memory_within_get now key st :
  memory_within counted o st ->
  memory_within counted o (snd (MemoryDriver.get o now key st)).
Proof.
  intros Hw. unfold MemoryDriver.get.
  pose proof (memory_within_present now (getFullKey o key) st Hw) as Hp.
  destruct (MemoryDriver.present o now (getFullKey o key) st) as [ok st1].
  destruct ok;
    [destruct (read_slot (MemoryDriver.data st1) (getFullKey o key))|];
    revert Hp; by apply memory_within_ext.
Qed.

Lemma memory_within_mget now keys st :
  memory_within counted o st ->
  memory_within counted o (snd (MemoryDriver.mget o now keys st)).
Proof.
  unfold MemoryDriver.mget. rewrite md_mget_state_as_gets.
  revert st. induction keys as [|key keys IH]; intros st Hw; [done|].
  cbn [foldl]. by apply IH, memory_within_get.
Qed.

Lemma memory_within_set now key value ttl st :
  (counted = true -> inherited (getFullKey o key) = false) ->
  memory_within counted o st ->
  memory_within counted o
    (outcome_state (MemoryDriver.set o now key value ttl st)).
Proof.
  intros Hplain (Hn & Hc). unfold MemoryDriver.set.
  destruct ((maxKeys o >? -1) && (Stats.keys (MemoryDriver.stats st) >=? maxKeys o))
    eqn:Hfull; [done|].
  cbn [outcome_state].
  split.
  { apply (memory_names_insert key (wrap o now value ttl) st); [|done].
    by destruct (read_slot (MemoryDriver.data st) (getFullKey o key)). }
  intros Hcounted. destruct (Hc Hcounted) as (Hk & Hb & Ht).
  rewrite read_slot_plain by auto.
  unfold memory_keys_exact in *.
  destruct (MemoryDriver.data st !! getFullKey o key) as [d|] eqn:Hd; simpl.
  - rewrite map_size_insert_Some by done. split_and!; done.
  - rewrite map_size_insert_None by done. split_and!; [lia| |done].
    intros Hmax. apply andb_false_iff in Hfull.
    rewrite Z.gtb_ltb, Z.ltb_ge, Z.geb_leb, Z.leb_gt in Hfull. lia.
Qed.

Lemma memory_within_mset_loop now entries st :
  (counted = true ->
   Forall (fun key => inherited (getFullKey o key) = false)
          (map (fun e => e.1.1) entries)) ->
  memory_within counted o st ->
  memory_within counted o
    (outcome_state (MemoryDriver.mset_loop o now entries st)).
Proof.
  revert st. induction entries as [|[[key value] ttl] rest IH];
    intros st Hp Hw; [done|].
  cbn [MemoryDriver.mset_loop].
  assert (Hkey : counted = true -> inherited (getFullKey o key) = false).
  { intros Hc. specialize (Hp Hc). cbn [map] in Hp.
    by apply Forall_cons in Hp as [? _]. }
  assert (Hrest : counted = true ->
                  Forall (fun key => inherited (getFullKey o key) = false)
                         (map (fun e => e.1.1) rest)).
  { intros Hc. specialize (Hp Hc). cbn [map] in Hp.
    by apply Forall_cons in Hp as [_ ?]. }
  pose proof (memory_within_set now key value ttl st Hkey Hw) as Hs.
  destruct (MemoryDriver.set o now key value ttl st) as [r st1|e st1];
    [by apply IH|done].
Qed.

Lemma memory_within_mset now entries st :
  (counted = true ->
   Forall (fun key => inherited (getFullKey o key) = false)
          (map (fun e => e.1.1) entries)) ->
  memory_within counted o st ->
  memory_within counted o (outcome_state (MemoryDriver.mset o now entries st)).
Proof.
  intros Hp Hw. unfold MemoryDriver.mset.
  destruct (_ && _); [done|]. by apply memory_within_mset_loop.
Qed.

(** What [del] leaves of the tags was there before. *)
Lemma untag_everywhere_sub (tags : TagIndex) fullKey tagName keySet' fk :
  untag_everywhere fullKey tags !! tagName = Some keySet' -> fk ∈ keySet' ->
  exists keySet, tags !! tagName = Some keySet /\ fk ∈ keySet.
Proof.
  unfold untag_everywhere. rewrite lookup_fmap.
  destruct (tags !! tagName) as [keySet|]; [|done].
  intros [= <-] Hin. exists keySet. split; [done|].
  by apply elem_of_difference in Hin as [? _].
Qed.

Lemma memory_within_del_step acc key :
  (counted = true -> inherited (getFullKey o key) = false) ->
  memory_within counted o (snd acc) ->
  memory_within counted o (snd (MemoryDriver.del_step o acc key)).
Proof.
  intros Hplain. destruct acc as [n st]. unfold MemoryDriver.del_step.
  cbn [snd].
  destruct (read_slot (MemoryDriver.data st) (getFullKey o key))
    as [d| |] eqn:Hd; [| |done]; intros Hw; cbn [snd].
  - apply read_slot_Own in Hd.
    apply (memory_within_remove (getFullKey o key) st); try done.
    intros tagName keySet' fk. apply untag_everywhere_sub.
  - apply read_slot_Inherited in Hd as [_ Hd].
    apply memory_within_uncounted.
    + destruct counted; [|done]. rewrite Hplain in Hd; done.
    + destruct Hw as [Hn _].
      by apply (memory_names_delete (getFullKey o key) st).
Qed.

Lemma memory_within_del keys st :
  (counted = true ->
   Forall (fun key => inherited (getFullKey o key) = false) keys) ->
  memory_within counted o st ->
  memory_within counted o (snd (MemoryDriver.del o keys st)).
Proof.
  unfold MemoryDriver.del. generalize 0. revert st.
  induction keys as [|key keys IH]; intros st n Hp Hw; [done|].
  cbn [foldl].
  assert (Hkey : counted = true -> inherited (getFullKey o key) = false).
  { intros Hc. specialize (Hp Hc). by apply Forall_cons in Hp as [? _]. }
  assert (Hrest : counted = true ->
                  Forall (fun key => inherited (getFullKey o key) = false) keys).
  { intros Hc. specialize (Hp Hc). by apply Forall_cons in Hp as [_ ?]. }
  pose proof (memory_within_del_step (n, st) key Hkey Hw) as Hstep.
  destruct (MemoryDriver.del_step o (n, st) key) as [n1 st1]. by apply IH.
Qed.

Lemma memory_within_keys_filter now l : forall kept st,
  memory_within counted o st ->
  memory_within counted o
    (snd (foldl (MemoryDriver.keys_filter_step o now) (kept, st) l)).
Proof.
  induction l as [|fk l IH]; intros kept st Hw; [done|].
  cbn [foldl]. rewrite md_keys_filter_step_spec.
  destruct (read_slot (MemoryDriver.data st) fk) as [d| |] eqn:Hd;
    [|by apply IH..].
  apply read_slot_Own in Hd.
  destruct (served o now d); apply IH; [done|].
  apply memory_within_expire; [by rewrite Hd|done].
Qed.

Lemma memory_within_keys now pattern st :
  memory_within counted o st ->
  memory_within counted o (snd (MemoryDriver.keys o now pattern st)).
Proof.
  intros Hw. unfold MemoryDriver.keys.
  pose proof (memory_within_keys_filter now
                (map fst (map_to_list (MemoryDriver.data st))) [] st Hw) as Hf.
  destruct (foldl _ _ _) as [kept st1].
  destruct pattern as [p|]; [destruct (String.eqb p "")|]; done.
Qed.

Lemma memory_within_getTtl now key st :
  memory_within counted o st ->
  memory_within counted o (snd (MemoryDriver.getTtl o now key st)).
Proof.
  intros Hw. unfold MemoryDriver.getTtl.
  pose proof (memory_within_present now (getFullKey o key) st Hw) as Hp.
  destruct (MemoryDriver.present o now (getFullKey o key) st) as [ok st1].
  by destruct ok.
Qed.

Lemma memory_within_ttl now key n st :
  (counted = true -> inherited (getFullKey o key) = false) ->
  memory_within counted o st ->
  memory_within counted o (snd (MemoryDriver.ttl o now key n st)).
Proof.
  intros Hplain Hw. unfold MemoryDriver.ttl.
  pose proof (memory_within_present now (getFullKey o key) st Hw) as Hp.
  destruct (MemoryDriver.present o now (getFullKey o key) st) as [ok st1].
  destruct ok; [|done]. cbn [snd] in Hp.
  destruct (read_slot (MemoryDriver.data st1) (getFullKey o key))
    as [d| |] eqn:Hd; [| |done]; cbn [snd].
  - apply read_slot_Own in Hd. destruct Hp as (Hn & Hc). split.
    + by apply (memory_names_insert key (wrap o now (v d) (Some n)) st1).
    + intros Hcounted. destruct (Hc Hcounted) as (Hk & Hb & Ht).
      unfold memory_keys_exact in *. simpl.
      rewrite map_size_insert_Some by done. done.
  - apply read_slot_Inherited in Hd as [_ Hd].
    apply memory_within_uncounted.
    + destruct counted; [|done]. rewrite Hplain in Hd; done.
    + destruct Hp as [Hn _].
      by apply (memory_names_insert key (wrap o now JUndefined (Some n)) st1).
Qed.

Lemma memory_within_tagged_filter now l : forall kept st,
  memory_within counted o st ->
  memory_within counted o
    (snd (foldl (MemoryDriver.tagged_filter_step o now) (kept, st) l)).
Proof.
  induction l as [|fk l IH]; intros kept st Hw; [done|].
  cbn [foldl]. unfold MemoryDriver.tagged_filter_step at 2.
  pose proof (memory_within_present now fk st Hw) as Hp.
  destruct (MemoryDriver.present o now fk st) as [ok st1].
  destruct ok; by apply IH.
Qed.

(** The filter of [getKeysByTag] keeps names of the list it is given
    and leaves the tags alone. *)
Lemma md_tagged_filter_sub now l : forall kept st,
  let r := foldl (MemoryDriver.tagged_filter_step o now) (kept, st) l in
  (forall fk, fk ∈ fst r -> fk ∈ kept \/ fk ∈ l)
  /\ MemoryDriver.tags (snd r) = MemoryDriver.tags st.
Proof.
  induction l as [|fk l IH]; intros kept st; cbv zeta.
  - split; [by left|done].
  - cbn [foldl]. unfold MemoryDriver.tagged_filter_step at 2 4.
    rewrite md_present_spec.
    assert (Hcons : forall x, x ∈ fk :: l <-> x = fk \/ x ∈ l)
      by (intros; apply elem_of_cons).
    destruct (read_slot (MemoryDriver.data st) fk) as [d| |];
      [destruct (served o now d)| |];
      match goal with
      | |- context [foldl _ (?k, ?s) l] =>
          destruct (IH k s) as [Hsub Htags]; cbv zeta in Hsub, Htags
      end;
      (split; [|by rewrite Htags]);
      intros x Hx; destruct (Hsub x Hx) as [Hin|Hin];
      rewrite ?elem_of_app, ?list_elem_of_singleton in Hin;
      rewrite Hcons; tauto.
Qed.

Lemma memory_within_getKeysByTag now tagName st :
  memory_within counted o st ->
  memory_within counted o (snd (MemoryDriver.getKeysByTag o now tagName st)).
Proof.
  intros Hw. unfold MemoryDriver.getKeysByTag.
  destruct (MemoryDriver.tags st !! tagName) as [keySet|]; [|done].
  pose proof (memory_within_tagged_filter now (elements keySet) [] st Hw) as Hf.
  by destruct (foldl _ _ _) as [kept st1].
Qed.

Lemma memory_within_deleteByTag now tagName st :
  memory_within counted o st ->
  memory_within counted o (snd (MemoryDriver.deleteByTag o now tagName st)).
Proof.
  intros Hw. unfold MemoryDriver.deleteByTag.
  pose proof (memory_within_getKeysByTag now tagName st Hw) as Hg.
  assert (Hplain : counted = true ->
            Forall (fun key => inherited (getFullKey o key) = false)
                   (map KStr (fst (MemoryDriver.getKeysByTag o now tagName st)))).
  { intros Hcounted. destruct Hw as (_ & Hc).
    destruct (Hc Hcounted) as (_ & _ & Ht).
    unfold MemoryDriver.getKeysByTag.
    destruct (MemoryDriver.tags st !! tagName) as [keySet|] eqn:Hl;
      [|constructor].
    destruct (md_tagged_filter_sub now (elements keySet) [] st) as [Hsub _].
    cbv zeta in Hsub. destruct (foldl _ _ _) as [kept st1]. cbn [fst] in *.
    apply Forall_forall. intros key Hkey.
    change (map KStr (map (stripPrefix o) kept))
      with (KStr <$> (stripPrefix o <$> kept)) in Hkey.
    apply list_elem_of_fmap in Hkey as (k & -> & Hk).
    apply list_elem_of_fmap in Hk as (fk & -> & Hfk).
    destruct (Hsub fk Hfk) as [Hin|Hin]; [by apply elem_of_nil in Hin|].
    apply elem_of_elements in Hin.
    destruct (String.eqb (prefix o) "") eqn:Hp.
    - unfold getFullKey, stripPrefix. rewrite Hp. cbn [negb andb key_toString].
      by apply (Ht tagName keySet).
    - apply inherited_getFullKey. intros Hempty. by rewrite Hempty in Hp. }
  destruct (MemoryDriver.getKeysByTag o now tagName st) as [ks st1].
  cbn [fst snd] in *.
  destruct ks as [|k ks]; [done|].
  pose proof (memory_within_del (map KStr (k :: ks)) st1 Hplain Hg) as Hd.
  destruct (MemoryDriver.del o (map KStr (k :: ks)) st1) as [n st2].
  cbn [snd] in *. destruct Hd as (Hn & Hc). split; [done|].
  intros Hcounted. destruct (Hc Hcounted) as (Hk & Hb & Ht).
  split_and!; [done|done|].
  intros tg keySet fk. simpl. rewrite lookup_delete.
  case_decide; [done|]. apply Ht.
Qed.

Lemma memory_within_tag key tagNames st :
  (counted = true -> inherited (getFullKey o key) = false) ->
  memory_within counted o st ->
  memory_within counted o (snd (MemoryDriver.tag o key tagNames st)).
Proof.
  intros Hplain Hw. unfold MemoryDriver.tag.
  assert (Hadd : memory_within counted o
            (MemoryDriver.with_tags
               (fun tg => foldl (tag_add (getFullKey o key)) tg tagNames) st)).
  { destruct Hw as (Hn & Hc). split; [done|].
    intros Hcounted. destruct (Hc Hcounted) as (Hk & Hb & Ht).
    split_and!; [done|done|].
    intros tg keySet fk. simpl. rewrite foldl_tag_add_lookup.
    case_decide.
    - intros [= <-] [Hin| ->%elem_of_singleton]%elem_of_union; [|by auto].
      destruct (MemoryDriver.tags st !! tg) as [ks|] eqn:Hl;
        [by apply (Ht tg ks)|by apply elem_of_empty in Hin].
    - apply Ht. }
  by destruct (read_slot (MemoryDriver.data st) (getFullKey o key)).
Qed.

(** The sweep visits each stored key once, while it is still stored. *)
Lemma memory_within_sweep now (l : list (string * WrappedValue)) : forall st,
  NoDup l.*1 ->
  (forall k d, (k, d) ∈ l -> is_Some (MemoryDriver.data st !! k)) ->
  memory_within counted o st ->
  memory_within counted o
    (foldl (fun st1 '(key, d) => snd (MemoryDriver.checkExpiry o now key d st1))
           st l).
Proof.
  induction l as [|[k d] l IH]; intros st Hnd Hin Hw; [done|].
  cbn [foldl]. rewrite fmap_cons in Hnd. apply NoDup_cons in Hnd as [Hk Hnd].
  apply IH; [done| |].
  - intros k' d' Hin'.
    assert (k' <> k).
    { intros ->. apply Hk. by apply (list_elem_of_fmap_2 fst _ (k, d')). }
    rewrite md_checkExpiry_spec. destruct (served o now d); simpl.
    + apply (Hin k' d'), elem_of_cons. by right.
    + rewrite lookup_delete_ne by done.
      apply (Hin k' d'), elem_of_cons. by right.
  - apply memory_within_checkExpiry; [|done].
    apply (Hin k d), elem_of_cons. by left.
Qed.

Lemma memory_within_checkAllData now st :
  memory_within counted o st ->
  memory_within counted o (MemoryDriver.checkAllData o now st).
Proof.
  intros Hw. unfold MemoryDriver.checkAllData.
  apply memory_within_sweep; [apply NoDup_fst_map_to_list| |done].
  intros k d Hin. apply elem_of_map_to_list in Hin. by rewrite Hin.
Qed.

Lemma memory_within_take now key st :
  (counted = true -> inherited (getFullKey o key) = false) ->
  memory_within counted o st ->
  memory_within counted o
    (snd (CacheManager.take (memory_driver o) now key st)).
Proof.
  intros Hplain Hw. unfold CacheManager.take.
  cbn [Driver.get Driver.del memory_driver].
  pose proof (memory_within_get now key st Hw) as Hg.
  destruct (MemoryDriver.get o now key st) as [value st1]. cbn [snd] in Hg.
  assert (Hone : counted = true ->
                 Forall (fun key => inherited (getFullKey o key) = false) [key]).
  { intros Hc. apply Forall_singleton. by apply Hplain. }
  destruct value; cbn [snd]; try done; by apply memory_within_del.
Qed.

Lemma memory_within_fetch now key fetched ttl st :
  (counted = true -> inherited (getFullKey o key) = false) ->
  memory_within counted o st ->
  memory_within counted o
    (outcome_state (CacheManager.fetch (memory_driver o) now key fetched ttl st)).
Proof.
  intros Hplain Hw.
  unfold CacheManager.fetch, CacheManager.get, CacheManager.set.
  cbn [Driver.get Driver.set memory_driver].
  pose proof (memory_within_get now key st Hw) as Hg.
  destruct (MemoryDriver.get o now key st) as [cached st1]. cbn [snd] in Hg.
  destruct cached; cbn [outcome_state]; try done.
  pose proof (memory_within_set now key fetched ttl st1 Hplain Hg) as Hs.
  by destruct (MemoryDriver.set o now key fetched ttl st1).
Qed.

Lemma memory_within_fresh : memory_within counted o MemoryDriver.init.
Proof.
  split.
  - intros fk. cbn. rewrite lookup_empty. by intros [? ?].
  - intros _. split_and!; [done|simpl; intros; lia|].
    intros tg keySet fk. cbn. by rewrite lookup_empty.
Qed.

Lemma forallb_plain_full_keys keys :
  forallb (fun key => negb (inherited (getFullKey o key))) keys = true ->
  Forall (fun key => inherited (getFullKey o key) = false) keys.
Proof.
  induction keys as [|key keys IH]; cbn [forallb].
  - constructor.
  - rewrite andb_true_iff, negb_true_iff. intros [? ?]. constructor; auto.
Qed.

Lemma memory_within_call now c st :
  (counted = true -> plain_manager_call o c = true) ->
  memory_within counted o st ->
  memory_within counted o
    (manager_call (memory_driver o) (MemoryDriver.checkAllData o) now c st).
Proof.
  intros Hp Hw. unfold plain_manager_call in Hp.
  assert (Hkeys : counted = true ->
            Forall (fun key => inherited (getFullKey o key) = false)
                   (manager_call_keys c)).
  { intros Hc. by apply forallb_plain_full_keys, Hp. }
  assert (Hkey : forall key, manager_call_keys c = [key] ->
            counted = true -> inherited (getFullKey o key) = false).
  { intros key Heq Hc. specialize (Hkeys Hc). rewrite Heq in Hkeys.
    by rewrite Forall_singleton in Hkeys. }
  destruct c; cbn [manager_call manager_call_keys] in *.
  - by apply memory_within_get.
  - by apply memory_within_mget.
  - apply memory_within_set; [by apply Hkey|done].
  - by apply memory_within_mset.
  - by apply memory_within_del.
  - by apply memory_within_present.
  - by apply memory_within_keys.
  - by apply memory_within_getTtl.
  - apply memory_within_ttl; [by apply Hkey|done].
  - apply memory_within_take; [by apply Hkey|done].
  - apply memory_within_fetch; [by apply Hkey|done].
  - apply memory_within_fresh.
  - apply memory_within_tag; [by apply Hkey|done].
  - by apply memory_within_getKeysByTag.
  - by apply memory_within_deleteByTag.
  - by apply memory_within_checkAllData.
Qed.

Lemma memory_within_after calls :
  (counted = true ->
   forallb (fun nc => plain_manager_call o nc.2) calls = true) ->
  memory_within counted o (memory_after o calls).
Proof.
  unfold memory_after. induction calls as [|[now c] calls IH] using rev_ind;
    intros Hp.
  - apply memory_within_fresh.
  - rewrite foldl_snoc. apply memory_within_call.
    + intros Hc. specialize (Hp Hc). rewrite forallb_app in Hp.
      apply andb_true_iff in Hp as [_ Hp]. cbn in Hp.
      by rewrite andb_true_r in Hp.
    + apply IH. intros Hc. specialize (Hp Hc). rewrite forallb_app in Hp.
      by apply andb_true_iff in Hp as [? _].
Qed.

End MemoryCounter.

(** In a [MemoryDriver], after any sequence of calls made through the
    [CacheManager] ([get], [mget], [set], [mset], [del], [has], [keys],
    [getTtl], [ttl], [take], [fetch], [flush], the tag operations) or by
    the sweep, at any clock readings and whether they return or throw,
    in which no key has as its full key a name inherited from
    [Object.prototype] (none has in a driver with a prefix), the [keys]
    counter is the number of stored entries and is not negative. *)
Theorem memory_keys_counter_exact
    (o : MemoryDriverOptions) (calls : list (Z * ManagerCall)) :
  forallb (fun nc => plain_manager_call o nc.2) calls = true ->
  Stats.keys (MemoryDriver.stats (memory_after o calls))
  = Z.of_nat (size (MemoryDriver.data (memory_after o calls)))
  /\ 0 <= Stats.keys (MemoryDriver.stats (memory_after o calls)).
Proof.
  intros Hcalls.
  destruct (memory_within_after o true calls (fun _ => Hcalls)) as (_ & Hc).
  destruct (Hc eq_refl) as (Hk & _).
  unfold memory_keys_exact in Hk. split; [done|]. lia.
Qed.

(** The key counter after a [set], a [tag], a [deleteByTag] of that tag
    and a [del] of the key that is gone. *)
Lemma memory_keys_counter_exact_witness :
  let calls := [(0, MSet (KStr "a") (JNumber 1) None);
                (1, MTag (KStr "a") ["t"%string]);
                (2, MDeleteByTag "t");
                (3, MDel [KStr "a"])] in
  Stats.keys (MemoryDriver.stats (memory_after (driver_options (-1) true) calls))
  = Z.of_nat (size (MemoryDriver.data
                      (memory_after (driver_options (-1) true) calls))).
Proof.
  exact (proj1 (memory_keys_counter_exact (driver_options (-1) true)
                  [(0, MSet (KStr "a") (JNumber 1) None);
                   (1, MTag (KStr "a") ["t"%string]);
                   (2, MDeleteByTag "t");
                   (3, MDel [KStr "a"])] eq_refl)).
Defined.

(** A [MemoryDriver] bounded by a [maxKeys] that is not negative never
    stores more than [maxKeys] entries, whatever calls are made with
    keys whose full key is no name inherited from [Object.prototype]. *)
Theorem memory_store_within_maxKeys
    (o : MemoryDriverOptions) (calls : list (Z * ManagerCall)) :
  0 <= maxKeys o ->
  forallb (fun nc => plain_manager_call o nc.2) calls = true ->
  Z.of_nat (size (MemoryDriver.data (memory_after o calls))) <= maxKeys o.
Proof.
  intros Hmax Hcalls.
  destruct (memory_within_after o true calls (fun _ => Hcalls)) as (_ & Hc).
  destruct (Hc eq_refl) as (Hk & Hb & _).
  unfold memory_keys_exact in Hk. rewrite <-Hk. apply Hb. lia.
Qed.

(** A driver bounded to one key, after two [set] calls on different
    keys, the second of which throws: one entry is stored. *)
Lemma memory_store_within_maxKeys_witness :
  Z.of_nat (size (MemoryDriver.data
                    (memory_after (driver_options 1 true)
                       [(0, MSet (KStr "a") (JNumber 1) None);
                        (1, MSet (KStr "b") (JNumber 2) None)]))) <= 1.
Proof.
  apply (memory_store_within_maxKeys (driver_options 1 true)
           [(0, MSet (KStr "a") (JNumber 1) None);
            (1, MSet (KStr "b") (JNumber 2) None)]);
    first [reflexivity | simpl; lia].
Defined.

(** ** The names of the stored keys *)

(** The name under which a driver stores a key and the name it lists
    for it: [stripPrefix] undoes [getFullKey], for every prefix, so
    [keys()] and [getKeysByTag] hand back the keys as they were given;
    and two keys share a stored entry exactly when they have the same
    string form (the number 1 and the string "1" do). *)
Theorem stripPrefix_undoes_getFullKey (o : MemoryDriverOptions) (key key' : Key) :
  stripPrefix o (getFullKey o key) = key_toString key
  /\ (getFullKey o key = getFullKey o key'
      <-> key_toString key = key_toString key').
Proof.
  split; [rewrite getFullKey_full_key; apply stripPrefix_full_key|].
  split; [apply stripPrefix_getFullKey_inj|].
  rewrite !getFullKey_full_key. by intros ->.
Qed.

(** ** Writing to a MemoryDriver and reading back *)

Section MemoryDriverWrites.
Context (o : MemoryDriverOptions).
Implicit Types (st : MemoryDriver.State) (d : WrappedValue) (key : Key).

(** What a [set] that returns leaves in the store. *)
Lemma md_set_returned now key value ttl st r st1 :
  MemoryDriver.set o now key value ttl st = Returned r st1 ->
  r = true
  /\ MemoryDriver.data st1
     = <[getFullKey o key := wrap o now value ttl]> (MemoryDriver.data st)
  /\ MemoryDriver.tags st1 = MemoryDriver.tags st
  /\ Stats.keys (MemoryDriver.stats st1)
     = Stats.keys (MemoryDriver.stats st)
       + (if found (read_slot (MemoryDriver.data st) (getFullKey o key))
          then 0 else 1).
Proof.
  unfold MemoryDriver.set. destruct (_ && _); [done|].
  intros [= <- <-].
  destruct (read_slot (MemoryDriver.data st) (getFullKey o key)); simpl;
    split_and!; try done; lia.
Qed.

(** What the three reads of a key answer. *)
Lemma md_reads now key st :
  fst (MemoryDriver.get o now key st)
  = match read_slot (MemoryDriver.data st) (getFullKey o key) with
    | Own d => if served o now d then unwrap d else JUndefined
    | Inherited => JNull
    | Missing => JUndefined
    end
  /\ fst (MemoryDriver.has o now key st)
     = md_found o now st (getFullKey o key)
  /\ fst (MemoryDriver.getTtl o now key st)
     = match read_slot (MemoryDriver.data st) (getFullKey o key) with
       | Own d => if served o now d then Some (t d) else None
       | Inherited | Missing => None
       end.
Proof.
  unfold MemoryDriver.has, MemoryDriver.getTtl, md_found.
  rewrite md_get_spec, md_present_spec.
  destruct (read_slot (MemoryDriver.data st) (getFullKey o key))
    as [d| |] eqn:Hd.
  - apply read_slot_Own in Hd.
    destruct (served o now d); cbn [fst]; [|done]. by rewrite Hd.
  - apply read_slot_Inherited in Hd as [Hd _]. cbn [fst]. by rewrite Hd.
  - done.
Qed.


End MemoryDriverWrites.



(** ** Deleting from a MemoryDriver *)

Section MemoryDriverDeletes.
Context (o : MemoryDriverOptions).
Implicit Types (st : MemoryDriver.State) (d : WrappedValue) (key : Key).

Lemma tagged_untag_everywhere (tags : TagIndex) fullKey tagName k :
  tagged (untag_everywhere fullKey tags) tagName k
  <-> tagged tags tagName k /\ k <> fullKey.
Proof.
  unfold tagged, untag_everywhere. rewrite lookup_fmap. split.
  - intros (keySet & Hl & Hin).
    destruct (tags !! tagName) as [ks|]; [|done].
    injection Hl as <-. apply elem_of_difference in Hin as [Hin Hne].
    split; [by exists ks|]. intros ->. apply Hne. by apply elem_of_singleton.
  - intros [(keySet & -> & Hin) Hne].
    exists (keySet ∖ {[fullKey]}). split; [done|].
    apply elem_of_difference. split; [done|]. by intros ->%elem_of_singleton.
Qed.

Lemma md_del_step_spec (n : Z) st key :
  MemoryDriver.del_step o (n, st) key
  = match read_slot (MemoryDriver.data st) (getFullKey o key) with
    | Own d => (n + 1, MemoryDriver.del_found o key (unwrap d) st)
    | Inherited => (n + 1, MemoryDriver.del_found o key JNull st)
    | Missing => (n, st)
    end.
Proof. reflexivity. Qed.

(** What the test of [del] answers. *)
Lemma found_read_slot_true (data : gmap string WrappedValue) k :
  found (read_slot data k) = true
  <-> is_Some (data !! k) \/ inherited k = true.
Proof.
  unfold read_slot. destruct (data !! k) as [d|].
  - split; [by left|done].
  - destruct (inherited k); cbn [found]; split; try done; try by right.
    by intros [[? ?]|?].
Qed.

(** The loop of [del]. *)
Lemma md_del_fold keys : forall (n : Z) st,
  let r := foldl (MemoryDriver.del_step o) (n, st) keys in
  (forall fullKey,
      MemoryDriver.data (snd r) !! fullKey
      = if bool_decide (fullKey ∈ full_keys o keys) then None
        else MemoryDriver.data st !! fullKey)
  /\ n + (Z.of_nat (size (MemoryDriver.data st))
          - Z.of_nat (size (MemoryDriver.data (snd r)))) <= fst r
  /\ (Forall (fun key => inherited (getFullKey o key) = false) keys ->
      fst r = n + (Z.of_nat (size (MemoryDriver.data st))
                   - Z.of_nat (size (MemoryDriver.data (snd r)))))
  /\ Stats.keys (MemoryDriver.stats (snd r))
     = Stats.keys (MemoryDriver.stats st) - (fst r - n)
  /\ Stats.hits (MemoryDriver.stats (snd r)) = Stats.hits (MemoryDriver.stats st)
  /\ Stats.misses (MemoryDriver.stats (snd r))
     = Stats.misses (MemoryDriver.stats st)
  /\ (forall tagName,
        is_Some (MemoryDriver.tags (snd r) !! tagName)
        <-> is_Some (MemoryDriver.tags st !! tagName))
  /\ (forall tagName k,
        tagged (MemoryDriver.tags (snd r)) tagName k
        <-> tagged (MemoryDriver.tags st) tagName k
            /\ ~ (k ∈ full_keys o keys
                  /\ found (read_slot (MemoryDriver.data st) k) = true)).
Proof.
  induction keys as [|key keys IH]; intros n st; cbv zeta.
  - cbn [foldl fst snd full_keys fmap list_fmap].
    split_and!; try done; try lia.
    intros tagName k. split; [|by intros [? _]].
    intros Ht. split; [done|]. by intros [?%elem_of_nil _].
  - cbn [foldl]. rewrite md_del_step_spec.
    assert (Hin : forall k, k ∈ full_keys o (key :: keys)
                            <-> k = getFullKey o key \/ k ∈ full_keys o keys)
      by (intros k; apply elem_of_cons).
    assert (Hfound : forall old,
      found (read_slot (MemoryDriver.data st) (getFullKey o key)) = true ->
      let r := foldl (MemoryDriver.del_step o)
                 (n + 1, MemoryDriver.del_found o key old st) keys in
      (forall fullKey,
          MemoryDriver.data (snd r) !! fullKey
          = if bool_decide (fullKey ∈ full_keys o (key :: keys)) then None
            else MemoryDriver.data st !! fullKey)
      /\ n + (Z.of_nat (size (MemoryDriver.data st))
              - Z.of_nat (size (MemoryDriver.data (snd r)))) <= fst r
      /\ (Forall (fun key => inherited (getFullKey o key) = false)
                 (key :: keys) ->
          fst r = n + (Z.of_nat (size (MemoryDriver.data st))
                       - Z.of_nat (size (MemoryDriver.data (snd r)))))
      /\ Stats.keys (MemoryDriver.stats (snd r))
         = Stats.keys (MemoryDriver.stats st) - (fst r - n)
      /\ Stats.hits (MemoryDriver.stats (snd r))
         = Stats.hits (MemoryDriver.stats st)
      /\ Stats.misses (MemoryDriver.stats (snd r))
         = Stats.misses (MemoryDriver.stats st)
      /\ (forall tagName,
            is_Some (MemoryDriver.tags (snd r) !! tagName)
            <-> is_Some (MemoryDriver.tags st !! tagName))
      /\ (forall tagName k,
            tagged (MemoryDriver.tags (snd r)) tagName k
            <-> tagged (MemoryDriver.tags st) tagName k
                /\ ~ (k ∈ full_keys o (key :: keys)
                      /\ found (read_slot (MemoryDriver.data st) k) = true))).
    { intros old Hf. cbv zeta.
      destruct (IH (n + 1) (MemoryDriver.del_found o key old st))
        as (Hdata & Hlow & Hcount & Hkeys & Hhits & Hmiss & Htag & Htagged).
      destruct (foldl (MemoryDriver.del_step o)
                  (n + 1, MemoryDriver.del_found o key old st) keys)
        as [count st'] eqn:Hfold.
      cbn [fst snd] in *.
      simpl in Hdata, Hlow, Hcount, Hkeys, Hhits, Hmiss.
      assert (Hsize : (size (MemoryDriver.data st) <=
                       S (size (delete (getFullKey o key)
                                  (MemoryDriver.data st))))%nat).
      { destruct (MemoryDriver.data st !! getFullKey o key) as [d|] eqn:Hd.
        - rewrite map_size_delete_Some by done. lia.
        - rewrite delete_id by done. lia. }
      split_and!; try done; try lia.
      - intros fullKey. rewrite Hdata, lookup_delete.
        destruct (decide (getFullKey o key = fullKey)) as [<-|Hne].
        + rewrite (bool_decide_eq_true_2 (_ ∈ full_keys o (key :: keys)))
            by (apply Hin; by left).
          by case_bool_decide.
        + case_bool_decide as Hr.
          * by rewrite bool_decide_eq_true_2 by (apply Hin; by right).
          * rewrite bool_decide_eq_false_2; [done|].
            intros [?|?]%Hin; done.
      - intros Hplain. apply Forall_cons in Hplain as [Hkey Hplain].
        specialize (Hcount Hplain).
        apply found_read_slot_true in Hf as [[d Hd]|Hf]; [|congruence].
        assert (size (MemoryDriver.data st) <> 0%nat).
        { apply map_size_ne_0_lookup_2 with (getFullKey o key). by rewrite Hd. }
        rewrite map_size_delete_Some in Hcount by done. lia.
      - intros tagName. rewrite Htag. simpl. unfold untag_everywhere.
        rewrite lookup_fmap. by rewrite fmap_is_Some.
      - intros tagName k. rewrite Htagged. simpl.
        rewrite tagged_untag_everywhere, Hin.
        destruct (decide (getFullKey o key = k)) as [<-|Hne].
        + split; [by intros [[_ ?] _]|].
          intros [_ Hno]. exfalso. apply Hno. split; [by left|done].
        + rewrite read_slot_delete_ne by done. split.
          * intros [[Ht _] Hno]. split; [done|].
            intros [[?|?] ?]; [done|]. by apply Hno.
          * intros [Ht Hno]. split; [done|].
            intros [? ?]. apply Hno. split; [by right|done]. }
    destruct (read_slot (MemoryDriver.data st) (getFullKey o key))
      as [d| |] eqn:Hslot; [by apply Hfound..|].
    apply read_slot_Missing in Hslot as [Hd Hplain].
    destruct (IH n st) as (Hdata & Hlow & Hcount & Hkeys & Hhits & Hmiss
                           & Htag & Htagged).
    destruct (foldl (MemoryDriver.del_step o) (n, st) keys)
      as [count st'] eqn:Hfold.
    cbn [fst snd] in *.
    split_and!; try done.
    + intros fullKey. rewrite Hdata.
      destruct (decide (fullKey = getFullKey o key)) as [->|Hne].
      * rewrite (bool_decide_eq_true_2 (_ ∈ full_keys o (key :: keys)))
          by (apply Hin; by left).
        rewrite Hd. by case_bool_decide.
      * case_bool_decide as Hr.
        -- by rewrite bool_decide_eq_true_2 by (apply Hin; by right).
        -- rewrite bool_decide_eq_false_2; [done|].
           intros [?|?]%Hin; done.
    + intros Hp. apply Forall_cons in Hp as [_ Hp]. by apply Hcount.
    + intros tagName k. rewrite Htagged, Hin. split.
      * intros [Ht Hno]. split; [done|].
        intros [[->|?] Hs]; [|by apply Hno].
        apply found_read_slot_true in Hs as [Hs|Hs];
          [rewrite Hd in Hs; by destruct Hs|congruence].
      * intros [Ht Hno]. split; [done|].
        intros [? ?]. apply Hno. split; [by right|done].
Qed.

End MemoryDriverDeletes.

(** [del] of the [MemoryDriver], for every list of keys and every state:
    afterwards no named key is stored and every other entry is as it
    was; the key counter drops by the number returned, which is at
    least the number of entries removed and is that number when no full
    key of the list is a name inherited from [Object.prototype] (for
    such a name with nothing stored under it [del] counts a deletion
    all the same); hits and misses are untouched; no tag disappears,
    and each tag set loses exactly the named keys under which the store
    read something, an entry or an inherited property. *)
Theorem memory_del_removes_named_keys
    (o : MemoryDriverOptions) (keys : list Key) (st : MemoryDriver.State) :
  let r := MemoryDriver.del o keys st in
  (forall fullKey,
      MemoryDriver.data (snd r) !! fullKey
      = if bool_decide (fullKey ∈ full_keys o keys) then None
        else MemoryDriver.data st !! fullKey)
  /\ Z.of_nat (size (MemoryDriver.data st))
     - Z.of_nat (size (MemoryDriver.data (snd r))) <= fst r
  /\ (Forall (fun key => inherited (getFullKey o key) = false) keys ->
      fst r = Z.of_nat (size (MemoryDriver.data st))
              - Z.of_nat (size (MemoryDriver.data (snd r))))
  /\ Stats.keys (MemoryDriver.stats (snd r))
     = Stats.keys (MemoryDriver.stats st) - fst r
  /\ Stats.hits (MemoryDriver.stats (snd r)) = Stats.hits (MemoryDriver.stats st)
  /\ Stats.misses (MemoryDriver.stats (snd r))
     = Stats.misses (MemoryDriver.stats st)
  /\ (forall tagName,
        is_Some (MemoryDriver.tags (snd r) !! tagName)
        <-> is_Some (MemoryDriver.tags st !! tagName))
  /\ (forall tagName k,
        tagged (MemoryDriver.tags (snd r)) tagName k
        <-> tagged (MemoryDriver.tags st) tagName k
            /\ ~ (k ∈ full_keys o keys
                  /\ found (read_slot (MemoryDriver.data st) k) = true)).
Proof.
  cbv zeta. unfold MemoryDriver.del.
  destruct (md_del_fold o keys 0 st)
    as (Hdata & Hlow & Hcount & Hkeys & Hrest).
  cbv zeta in *. split_and!; try done; try lia; try by apply Hrest.
Qed.

(** Two stored keys and a key that is not stored are deleted: the
    number returned is two, the number of entries removed. *)
Lemma memory_del_removes_named_keys_witness :
  let o := driver_options (-1) true in
  let st := outcome_state
              (MemoryDriver.mset o 0 [(KStr "a", JNumber 1, None);
                                      (KStr "b", JNumber 2, None)]
                 MemoryDriver.init) in
  let r := MemoryDriver.del o [KStr "a"; KStr "c"; KStr "b"] st in
  fst r = Z.of_nat (size (MemoryDriver.data st))
          - Z.of_nat (size (MemoryDriver.data (snd r))).
Proof.
  cbv zeta.
  assert (Hplain : Forall (fun key => inherited
                             (getFullKey (driver_options (-1) true) key) = false)
                          [KStr "a"; KStr "c"; KStr "b"])
    by (repeat constructor).
  exact (proj1 (proj2 (proj2
    (memory_del_removes_named_keys (driver_options (-1) true)
       [KStr "a"; KStr "c"; KStr "b"]
       (outcome_state
          (MemoryDriver.mset (driver_options (-1) true) 0
             [(KStr "a", JNumber 1, None); (KStr "b", JNumber 2, None)]
             MemoryDriver.init))))) Hplain).
Defined.

(** ** Batches, take and fetch on a MemoryDriver *)

Section MemoryDriverBatches.
Context (o : MemoryDriverOptions).
Implicit Types (st : MemoryDriver.State) (d : WrappedValue) (key : Key).


Lemma unwrap_defined d : unwrap d <> JUndefined.
Proof. unfold unwrap. by destruct (v d). Qed.

(** [del] of one key under which the store reads nothing. *)
Lemma md_del_absent key st :
  read_slot (MemoryDriver.data st) (getFullKey o key) = Missing ->
  MemoryDriver.del o [key] st = (0, st).
Proof.
  intros Hd. unfold MemoryDriver.del. cbn [foldl].
  by rewrite md_del_step_spec, Hd.
Qed.

(** A non-negative time to live gives an entry that is served at the
    clock reading of its writing. *)
Lemma served_when_written now value ttl :
  ttl_not_negative o ttl -> served o now (wrap o now value ttl) = true.
Proof.
  intros Httl. apply served_live. unfold expired, wrap. cbn [t].
  destruct ttl as [n|]; cbn [ttl_not_negative] in Httl.
  - destruct n as [|n|n]; [done| |lia].
    apply andb_false_iff. right. apply Z.ltb_ge. lia.
  - destruct (Z.eqb_spec (stdTTL o) 0); [done|].
    apply andb_false_iff. right. apply Z.ltb_ge. lia.
Qed.

End MemoryDriverBatches.


(** [take] of the [CacheManager] over either in-memory driver is [get]
    followed by [del], for every state and, over the [MemoryLRUDriver],
    every key; over the [MemoryDriver], every key whose full key is no
    name inherited from [Object.prototype]: the drivers never hand out
    [undefined] for a stored entry ([unwrap] turns it into [null]), so
    the test of [take] fails only when [get] missed, and then there is
    nothing left for [del] to remove.  (Under an inherited name, once
    [get] has removed an expired entry, [del] still reads the inherited
    property and counts a deletion that [take] does not make.) *)
Theorem manager_take_is_get_then_del
    (o : MemoryDriverOptions) (now : Z) (key : Key)
    (st : MemoryDriver.State) (lst : MemoryLRUDriver.State) :
  (inherited (getFullKey o key) = false ->
   CacheManager.take (memory_driver o) now key st
   = (fst (MemoryDriver.get o now key st),
      snd (MemoryDriver.del o [key] (snd (MemoryDriver.get o now key st)))))
  /\ CacheManager.take (memory_lru_driver o) now key lst
     = (fst (MemoryLRUDriver.get o now key lst),
        snd (MemoryLRUDriver.del o [key] (snd (MemoryLRUDriver.get o now key lst)))).
Proof.
  split; unfold CacheManager.take; cbn [Driver.get Driver.del memory_driver
                                         memory_lru_driver].
  - intros Hplain. rewrite md_get_spec, read_slot_plain by done.
    destruct (MemoryDriver.data st !! getFullKey o key) as [d|] eqn:Hd.
    + destruct (served o now d).
      * pose proof (unwrap_defined d). by destruct (unwrap d).
      * cbn [fst snd]. rewrite md_del_absent; [done|].
        simpl. by rewrite read_slot_delete, Hplain.
    + cbn [fst snd]. rewrite md_del_absent; [done|].
      simpl. by rewrite read_slot_plain, Hd.
  - rewrite lru_get_spec.
    destruct (MemoryLRUDriver.lookup_node lst (getFullKey o key))
      as [[n nd]|] eqn:Hl.
    + destruct (served o now (MemoryLRUDriver.Node.value nd)).
      * pose proof (unwrap_defined (MemoryLRUDriver.Node.value nd)).
        by destruct (unwrap (MemoryLRUDriver.Node.value nd)).
      * cbn [fst snd]. unfold MemoryLRUDriver.del. cbn [foldl].
        unfold MemoryLRUDriver.del_step, MemoryLRUDriver.lookup_node.
        simpl. by rewrite lookup_delete_eq.
    + cbn [fst snd]. unfold MemoryLRUDriver.del. cbn [foldl].
      unfold MemoryLRUDriver.del_step.
      change (MemoryLRUDriver.lookup_node
                (MemoryLRUDriver.with_stats Stats.miss lst) (getFullKey o key))
        with (MemoryLRUDriver.lookup_node lst (getFullKey o key)).
      by rewrite Hl.
Qed.

(** An entry expired at one clock reading is read by [take] over a
    driver without prefix. *)
Lemma manager_take_is_get_then_del_witness :
  let o := driver_options (-1) true in
  let st := outcome_state
              (MemoryDriver.set o 0 (KStr "k") (JNumber 1) (Some 1)
                 MemoryDriver.init) in
  CacheManager.take (memory_driver o) 5000 (KStr "k") st
  = (fst (MemoryDriver.get o 5000 (KStr "k") st),
     snd (MemoryDriver.del o [KStr "k"]
            (snd (MemoryDriver.get o 5000 (KStr "k") st)))).
Proof.
  exact (proj1 (manager_take_is_get_then_del (driver_options (-1) true) 5000
                  (KStr "k")
                  (outcome_state
                     (MemoryDriver.set (driver_options (-1) true) 0 (KStr "k")
                        (JNumber 1) (Some 1) MemoryDriver.init))
                  MemoryLRUDriver.init) eq_refl).
Defined.

(** [fetch] of the [CacheManager] over a [MemoryDriver], with a fetcher
    that does not return [undefined] and a time to live that is not
    negative: whenever it returns, a [get] of the key at the same clock
    reading gives the value it returned, be it the cached one or the
    one it has just fetched and stored. *)
Theorem memory_fetch_then_get
    (o : MemoryDriverOptions) (now : Z) (key : Key) (fetched : JsValue)
    (ttl : option Z) (st st' : MemoryDriver.State) (x : JsValue) :
  fetched <> JUndefined ->
  ttl_not_negative o ttl ->
  CacheManager.fetch (memory_driver o) now key fetched ttl st = Returned x st' ->
  fst (MemoryDriver.get o now key st') = x.
Proof.
  intros Hdef Httl. unfold CacheManager.fetch, CacheManager.get, CacheManager.set.
  cbn [Driver.get Driver.set memory_driver].
  destruct (md_reads o now key st') as (-> & _).
  rewrite md_get_spec.
  assert (Hstored : forall st1 r st2,
            MemoryDriver.set o now key fetched ttl st1 = Returned r st2 ->
            match read_slot (MemoryDriver.data st2) (getFullKey o key) with
            | Own d => if served o now d then unwrap d else JUndefined
            | Inherited => JNull
            | Missing => JUndefined
            end = fetched).
  { intros st1 r st2 Hset.
    apply md_set_returned in Hset as (_ & Hdata & _).
    rewrite Hdata, read_slot_insert.
    rewrite served_when_written by done.
    unfold unwrap, wrap. cbn [v]. by destruct fetched. }
  destruct (read_slot (MemoryDriver.data st) (getFullKey o key))
    as [d| |] eqn:Hd.
  - destruct (served o now d) eqn:Hs.
    + pose proof (unwrap_defined d).
      destruct (unwrap d) eqn:Hu; try done; intros [= <- <-];
        simpl; by rewrite Hd, Hs, Hu.
    + destruct (MemoryDriver.set o now key fetched ttl _) as [r st2|e st2] eqn:Hset;
        [|done].
      intros [= <- <-]. by apply (Hstored _ _ _ Hset).
  - intros [= <- <-]. simpl. by rewrite Hd.
  - destruct (MemoryDriver.set o now key fetched ttl _) as [r st2|e st2] eqn:Hset;
      [|done].
    intros [= <- <-]. by apply (Hstored _ _ _ Hset).
Qed.

(** A fetch on an empty store, then a get. *)
Lemma memory_fetch_then_get_witness :
  fst (MemoryDriver.get (driver_options (-1) true) 0 (KStr "k")
         (outcome_state
            (CacheManager.fetch (memory_driver (driver_options (-1) true)) 0
               (KStr "k") (JNumber 7) (Some 60) MemoryDriver.init)))
  = JNumber 7.
Proof.
  apply (memory_fetch_then_get (driver_options (-1) true) 0 (KStr "k")
           (JNumber 7) (Some 60) MemoryDriver.init).
  - discriminate.
  - simpl. lia.
  - reflexivity.
Defined.

(** ** Tagged keys and the sweep of a MemoryDriver *)

Section MemoryDriverTags.
Context (o : MemoryDriverOptions) (now : Z).
Implicit Types (st : MemoryDriver.State) (d : WrappedValue) (key : Key).

(** The filter of [getKeysByTag] is the filter of [keys]. *)
Lemma md_tagged_filter_step_spec kept st fullKey :
  MemoryDriver.tagged_filter_step o now (kept, st) fullKey
  = MemoryDriver.keys_filter_step o now (kept, st) fullKey.
Proof.
  unfold MemoryDriver.tagged_filter_step, MemoryDriver.keys_filter_step,
    MemoryDriver.present.
  by destruct (read_slot (MemoryDriver.data st) fullKey).
Qed.

Lemma md_tagged_filter_fold l : forall kept st,
  foldl (MemoryDriver.tagged_filter_step o now) (kept, st) l
  = foldl (MemoryDriver.keys_filter_step o now) (kept, st) l.
Proof.
  induction l as [|fk l IH]; intros kept st; [done|].
  cbn [foldl]. rewrite md_tagged_filter_step_spec.
  destruct (MemoryDriver.keys_filter_step o now (kept, st) fk). apply IH.
Qed.

(** [getKeysByTag] over the set of a tag. *)
Lemma md_getKeysByTag_spec tagName keySet st :
  MemoryDriver.tags st !! tagName = Some keySet ->
  let r := MemoryDriver.getKeysByTag o now tagName st in
  fst r = stripPrefix o
            <$> filter (fun fullKey => md_found o now st fullKey = true)
                  (elements keySet)
  /\ (forall fullKey,
        MemoryDriver.data (snd r) !! fullKey
        = if bool_decide (fullKey ∈ keySet) then md_entry o now st fullKey
          else MemoryDriver.data st !! fullKey)
  /\ MemoryDriver.tags (snd r) = MemoryDriver.tags st.
Proof.
  intros Htag. cbv zeta. unfold MemoryDriver.getKeysByTag. rewrite Htag.
  rewrite md_tagged_filter_fold.
  destruct (md_keys_filter_fold o now st (elements keySet) [] st
              (NoDup_elements keySet) (fun _ _ => eq_refl))
    as (Hkept & Hdata & Htags).
  cbv zeta in *.
  destruct (foldl (MemoryDriver.keys_filter_step o now) ([], st)
              (elements keySet)) as [kept st1].
  cbn [fst snd] in *. split_and!; [by rewrite Hkept| |done].
  intros fullKey. rewrite Hdata.
  destruct (decide (fullKey ∈ keySet)) as [Hin|Hin].
  - rewrite !bool_decide_eq_true_2; [done|done|by apply elem_of_elements].
  - rewrite !bool_decide_eq_false_2; [done|done|by rewrite elem_of_elements].
Qed.

(** The sweep over a duplicate-free list of entries that are still
    stored. *)
Lemma md_sweep_fold (l : list (string * WrappedValue)) : forall st,
  NoDup l.*1 ->
  (forall k d, (k, d) ∈ l -> MemoryDriver.data st !! k = Some d) ->
  let st' := foldl (fun st1 '(key, d) =>
                      snd (MemoryDriver.checkExpiry o now key d st1)) st l in
  (forall k, MemoryDriver.data st' !! k
             = if bool_decide (k ∈ l.*1) then md_entry o now st k
               else MemoryDriver.data st !! k)
  /\ MemoryDriver.tags st' = MemoryDriver.tags st
  /\ Stats.hits (MemoryDriver.stats st') = Stats.hits (MemoryDriver.stats st)
  /\ Stats.misses (MemoryDriver.stats st') = Stats.misses (MemoryDriver.stats st)
  /\ Stats.ksize (MemoryDriver.stats st') = Stats.ksize (MemoryDriver.stats st)
  /\ Stats.vsize (MemoryDriver.stats st') = Stats.vsize (MemoryDriver.stats st).
Proof.
  induction l as [|[k d] l IH]; intros st Hnd Hl; cbv zeta.
  - cbn [foldl]. split_and!; try done.
  - cbn [foldl fmap list_fmap] in *. apply NoDup_cons in Hnd as [Hk Hnd].
    rewrite md_checkExpiry_spec.
    assert (Hd : MemoryDriver.data st !! k = Some d)
      by (apply Hl, elem_of_cons; by left).
    assert (Hin : forall x, x ∈ k :: l.*1 <-> x = k \/ x ∈ l.*1)
      by (intros x; apply elem_of_cons).
    assert (Hother : forall k' d', (k', d') ∈ l -> k' <> k).
    { intros k' d' Hin' ->. apply Hk. apply list_elem_of_fmap.
      by exists (k, d'). }
    destruct (served o now d) eqn:Hs; cbn [snd].
    + destruct (IH st Hnd) as (Hdata & Hrest).
      { intros k' d' Hin'. apply Hl, elem_of_cons. by right. }
      split; [|done]. intros x. rewrite Hdata.
      destruct (decide (x = k)) as [->|Hne].
      * rewrite (bool_decide_eq_true_2 (k ∈ k :: l.*1)) by (apply Hin; by left).
        rewrite bool_decide_eq_false_2 by done.
        unfold md_entry. by rewrite Hd, Hs.
      * case_bool_decide as Hr.
        -- by rewrite bool_decide_eq_true_2 by (apply Hin; by right).
        -- rewrite bool_decide_eq_false_2; [done|]. intros [?|?]%Hin; done.
    + destruct (IH (md_expire k st) Hnd)
        as (Hdata & Htags & Hhits & Hmiss & Hks & Hvs).
      { intros k' d' Hin'. simpl. rewrite lookup_delete_ne.
        - apply Hl, elem_of_cons. by right.
        - intros ->. by apply (Hother _ _ Hin'). }
      split_and!; try done. intros x. rewrite Hdata.
      destruct (decide (x = k)) as [->|Hne].
      * rewrite (bool_decide_eq_true_2 (k ∈ k :: l.*1)) by (apply Hin; by left).
        rewrite bool_decide_eq_false_2 by done.
        simpl. rewrite lookup_delete_eq. unfold md_entry. by rewrite Hd, Hs.
      * assert (Hent : md_entry o now (md_expire k st) x = md_entry o now st x).
        { unfold md_entry. simpl. by rewrite lookup_delete_ne. }
        rewrite Hent. simpl. rewrite lookup_delete_ne by done.
        case_bool_decide as Hr.
        -- by rewrite bool_decide_eq_true_2 by (apply Hin; by right).
        -- rewrite bool_decide_eq_false_2; [done|]. intros [?|?]%Hin; done.
Qed.

End MemoryDriverTags.

(** The periodic sweep of the [MemoryDriver], for every state: the
    entries left are exactly those the driver serves (the ones not past
    their expiry and, while [deleteOnExpire] is off, the others too);
    the tags, the hits, the misses and the two size counters are
    untouched, so the sizes of the entries it removes stay counted. *)
Theorem memory_sweep_keeps_served_entries
    (o : MemoryDriverOptions) (now : Z) (st : MemoryDriver.State) :
  let st' := MemoryDriver.checkAllData o now st in
  (forall fullKey,
      MemoryDriver.data st' !! fullKey = md_entry o now st fullKey)
  /\ MemoryDriver.tags st' = MemoryDriver.tags st
  /\ Stats.hits (MemoryDriver.stats st') = Stats.hits (MemoryDriver.stats st)
  /\ Stats.misses (MemoryDriver.stats st') = Stats.misses (MemoryDriver.stats st)
  /\ Stats.ksize (MemoryDriver.stats st') = Stats.ksize (MemoryDriver.stats st)
  /\ Stats.vsize (MemoryDriver.stats st') = Stats.vsize (MemoryDriver.stats st).
Proof.
  cbv zeta. unfold MemoryDriver.checkAllData.
  destruct (md_sweep_fold o now (map_to_list (MemoryDriver.data st)) st)
    as (Hdata & Hrest).
  - apply NoDup_fst_map_to_list.
  - intros k d Hin. by apply elem_of_map_to_list.
  - split; [|done]. intros fullKey. rewrite Hdata.
    case_bool_decide as Hin; [done|].
    unfold md_entry.
    destruct (MemoryDriver.data st !! fullKey) as [d|] eqn:Hd; [|done].
    exfalso. apply Hin. apply list_elem_of_fmap. exists (fullKey, d).
    split; [done|]. by apply elem_of_map_to_list.
Qed.

(** [getKeysByTag] of the [MemoryDriver] lists, prefix stripped, exactly
    the names of the tag's set that its test finds: those with an entry
    the driver serves and, where nothing is stored, the names inherited
    from [Object.prototype] (so that for names that are not inherited
    it lists exactly the tagged keys with a served entry); an unknown
    tag gives the empty list.  The tagged entries it finds expired are
    removed from the store (with [deleteOnExpire] on) but stay in the
    tag's set: the tags are never changed. *)
Theorem memory_getKeysByTag_lists_served_tagged_keys
    (o : MemoryDriverOptions) (now : Z) (tagName : string)
    (st : MemoryDriver.State) :
  let r := MemoryDriver.getKeysByTag o now tagName st in
  (forall s,
      s ∈ fst r
      <-> exists fullKey,
            tagged (MemoryDriver.tags st) tagName fullKey
            /\ md_found o now st fullKey = true
            /\ s = stripPrefix o fullKey)
  /\ (forall fullKey,
        inherited fullKey = false ->
        md_found o now st fullKey = true
        <-> is_Some (md_entry o now st fullKey))
  /\ (forall fullKey,
        tagged (MemoryDriver.tags st) tagName fullKey ->
        MemoryDriver.data (snd r) !! fullKey = md_entry o now st fullKey)
  /\ (forall fullKey,
        ~ tagged (MemoryDriver.tags st) tagName fullKey ->
        MemoryDriver.data (snd r) !! fullKey = MemoryDriver.data st !! fullKey)
  /\ MemoryDriver.tags (snd r) = MemoryDriver.tags st.
Proof.
  cbv zeta.
  destruct (MemoryDriver.tags st !! tagName) as [keySet|] eqn:Htag.
  - destruct (md_getKeysByTag_spec o now tagName keySet st Htag)
      as (Hkeys & Hdata & Htags).
    cbv zeta in *.
    assert (Htagged : forall fullKey,
               tagged (MemoryDriver.tags st) tagName fullKey <-> fullKey ∈ keySet).
    { intros fullKey. unfold tagged. rewrite Htag. split.
      - by intros (? & [= <-] & ?).
      - intros ?. by exists keySet. }
    split_and!; [|apply md_found_plain| | |done].
    + intros s. rewrite Hkeys, list_elem_of_fmap. split.
      * intros (fullKey & -> & Hin). apply list_elem_of_filter in Hin as [Hs Hin].
        exists fullKey. split_and!; [|done|done].
        apply Htagged. by apply elem_of_elements.
      * intros (fullKey & Ht & Hs & ->). exists fullKey. split; [done|].
        apply list_elem_of_filter. split; [done|].
        apply elem_of_elements. by apply Htagged.
    + intros fullKey Hin%Htagged.
      by rewrite Hdata, bool_decide_eq_true_2.
    + intros fullKey Hin. rewrite Htagged in Hin.
      by rewrite Hdata, bool_decide_eq_false_2.
  - unfold MemoryDriver.getKeysByTag. rewrite Htag. cbn [fst snd].
    assert (Hno : forall fullKey,
               ~ tagged (MemoryDriver.tags st) tagName fullKey).
    { intros fullKey (? & Hl & _). congruence. }
    split_and!; [|apply md_found_plain| |done|done].
    + intros s. split; [by intros ?%elem_of_nil|].
      intros (fullKey & Ht & _). by apply Hno in Ht.
    + intros fullKey Ht. by apply Hno in Ht.
Qed.

(** Two tagged keys, one of them expired when the tag is listed. *)
Lemma memory_getKeysByTag_lists_served_tagged_keys_witness :
  let o := driver_options (-1) true in
  let st0 := outcome_state
               (MemoryDriver.mset o 0 [(KStr "a", JNumber 1, Some 1);
                                       (KStr "b", JNumber 2, None)]
                  MemoryDriver.init) in
  let st := snd (MemoryDriver.tag o (KStr "b") ["t"%string]
                   (snd (MemoryDriver.tag o (KStr "a") ["t"%string] st0))) in
  md_found o 5000 st "b" = true <-> is_Some (md_entry o 5000 st "b").
Proof.
  intros o st0 st.
  exact (proj1 (proj2
                  (memory_getKeysByTag_lists_served_tagged_keys o 5000 "t" st))
           "b"%string eq_refl).
Defined.

(** Tagging a key and then deleting by one of the tags, in a
    [MemoryDriver] and whatever else the tag's set holds: once [tag] has
    returned true, [deleteByTag] leaves no entry under the key; and if
    the entry was still served, the tag itself is gone afterwards. *)
Theorem memory_tag_then_deleteByTag
    (o : MemoryDriverOptions) (now : Z) (key : Key) (tagNames : list string)
    (tagName : string) (st : MemoryDriver.State) :
  fst (MemoryDriver.tag o key tagNames st) = true ->
  tagName ∈ tagNames ->
  let st1 := snd (MemoryDriver.tag o key tagNames st) in
  let r := MemoryDriver.deleteByTag o now tagName st1 in
  MemoryDriver.data (snd r) !! getFullKey o key = None
  /\ (is_Some (md_entry o now st (getFullKey o key)) ->
      MemoryDriver.tags (snd r) !! tagName = None).
Proof.
  intros Hok Hin. cbv zeta.
  assert (Hst1 : snd (MemoryDriver.tag o key tagNames st)
                 = MemoryDriver.with_tags
                     (fun tg => foldl (tag_add (getFullKey o key)) tg tagNames)
                     st).
  { unfold MemoryDriver.tag in *.
    by destruct (read_slot (MemoryDriver.data st) (getFullKey o key)). }
  rewrite Hst1. clear Hok Hst1.
  set (st1 := MemoryDriver.with_tags _ st).
  set (F := getFullKey o key).
  assert (Htag : MemoryDriver.tags st1 !! tagName
                 = Some (default ∅ (MemoryDriver.tags st !! tagName) ∪ {[F]})).
  { subst st1. simpl. rewrite foldl_tag_add_lookup. by rewrite decide_True. }
  set (keySet := default ∅ (MemoryDriver.tags st !! tagName) ∪ {[F]}) in Htag.
  assert (HF : F ∈ keySet)
    by (apply elem_of_union; right; by apply elem_of_singleton).
  assert (Hent : forall k, md_entry o now st1 k = md_entry o now st k) by done.
  destruct (md_getKeysByTag_spec o now tagName keySet st1 Htag)
    as (Hkeys & Hdata & Htags).
  cbv zeta in *. unfold MemoryDriver.deleteByTag.
  destruct (MemoryDriver.getKeysByTag o now tagName st1) as [keys st2].
  cbn [fst snd] in *.
  assert (Hst2 : MemoryDriver.data st2 !! F = md_entry o now st F).
  { by rewrite Hdata, bool_decide_eq_true_2, Hent. }
  assert (Hlisted : is_Some (md_entry o now st F) -> key_toString key ∈ keys).
  { intros Hs. rewrite Hkeys. apply list_elem_of_fmap. exists F. split.
    - subst F. by rewrite getFullKey_full_key, stripPrefix_full_key.
    - apply list_elem_of_filter. split; [|by apply elem_of_elements].
      apply md_found_stored; [|by rewrite Hent].
      unfold md_entry in Hs. subst st1. simpl.
      destruct (MemoryDriver.data st !! F); [done|by destruct Hs]. }
  destruct keys as [|s keys].
  - cbn [snd]. split.
    + rewrite Hst2. destruct (md_entry o now st F) eqn:He; [|done].
      exfalso. eapply not_elem_of_nil. by apply Hlisted.
    + intros Hs. exfalso. eapply not_elem_of_nil. by apply Hlisted.
  - destruct (md_del_fold o (map KStr (s :: keys)) 0 st2) as (Hdel & _).
    cbv zeta in Hdel. unfold MemoryDriver.del.
    destruct (foldl (MemoryDriver.del_step o) (0, st2) (map KStr (s :: keys)))
      as [count st3].
    cbn [fst snd] in *. split.
    + rewrite Hdel. case_bool_decide as Hnamed; [done|].
      rewrite Hst2. destruct (md_entry o now st F) eqn:He; [|done].
      exfalso. apply Hnamed. unfold full_keys.
      apply list_elem_of_fmap. exists (KStr (key_toString key)). split.
      * subst F. by rewrite !getFullKey_full_key.
      * apply list_elem_of_fmap. exists (key_toString key). split; [done|].
        by apply Hlisted.
    + intros _. apply lookup_delete_eq.
Qed.

(** A key tagged and deleted by its tag. *)
Lemma memory_tag_then_deleteByTag_witness :
  let o := driver_options (-1) true in
  let st := outcome_state
              (MemoryDriver.set o 0 (KStr "a") (JNumber 1) None
                 MemoryDriver.init) in
  MemoryDriver.data
    (snd (MemoryDriver.deleteByTag o 1 "t"
            (snd (MemoryDriver.tag o (KStr "a") ["t"%string] st))))
  !! "a"%string = None.
Proof.
  refine (proj1 (memory_tag_then_deleteByTag (driver_options (-1) true) 1
                   (KStr "a") ["t"%string] "t"
                   (outcome_state
                      (MemoryDriver.set (driver_options (-1) true) 0 (KStr "a")
                         (JNumber 1) None MemoryDriver.init)) eq_refl _)).
  apply elem_of_cons. by left.
Defined.

(** ** Patterns without wildcards, and prefix patterns *)

Section GlobShapes.
Context (any : ascii -> bool).

Lemma glob_literal pattern : forall key,
  literal pattern = true ->
  glob_matches any pattern key <-> key = pattern.
Proof.
  induction pattern as [|c pattern IH]; intros key Hlit.
  - split; [by inversion 1|intros ->; constructor].
  - cbn [literal] in Hlit.
    apply andb_true_iff in Hlit as [[Hs Hq]%andb_true_iff Hlit].
    apply negb_true_iff, Ascii.eqb_neq in Hs, Hq.
    split.
    + inversion 1; subst; try congruence. f_equal. by apply IH.
    + intros ->. apply glob_same; [done|done|]. by apply IH.
Qed.

Lemma glob_star_only key :
  glob_matches any "*" key <-> all_chars any key = true.
Proof.
  induction key as [|c key IH].
  - split; [done|]. intros _. apply glob_star. constructor.
  - cbn [all_chars]. rewrite andb_true_iff, <-IH. split.
    + inversion 1; subst; try congruence; try done.
      match goal with H : glob_matches _ "" _ |- _ => inversion H end.
    + intros [? ?]. by apply glob_star_more.
Qed.

Lemma glob_literal_prefix pattern : forall key,
  literal pattern = true ->
  glob_matches any (pattern ++ "*") key
  <-> exists rest, key = (pattern ++ rest)%string /\ all_chars any rest = true.
Proof.
  induction pattern as [|c pattern IH]; intros key Hlit.
  - change ("" ++ "*")%string with "*"%string. rewrite glob_star_only.
    split; [by exists key|]. by intros (rest & -> & ?).
  - cbn [literal] in Hlit.
    apply andb_true_iff in Hlit as [[Hs Hq]%andb_true_iff Hlit].
    apply negb_true_iff, Ascii.eqb_neq in Hs, Hq.
    change (String c pattern ++ "*")%string
      with (String c (pattern ++ "*")%string).
    split.
    + inversion 1; subst; try congruence.
      match goal with H : glob_matches _ (_ ++ _)%string _ |- _ =>
        apply IH in H as (rest & -> & Hall); [|done] end.
      by exists rest.
    + intros (rest & -> & Hall).
      change (String c pattern ++ rest)%string
        with (String c (pattern ++ rest)%string).
      apply glob_same; [done|done|]. apply IH; [done|]. by exists rest.
Qed.

End GlobShapes.

(** The two shapes, for the regular expressions of the drivers. *)
Lemma glob_literal_and_prefix_shapes (p key : string) :
  literal p = true ->
  (Glob.test (Glob.patternToRegex p) key = true <-> key = p)
  /\ (Glob.test (Glob.patternToRegex (p ++ "*")) key = true
      <-> exists rest,
            key = (p ++ rest)%string
            /\ all_chars not_line_terminator rest = true).
Proof.
  intros Hlit. rewrite !patternToRegex_test. split.
  - by apply glob_literal.
  - by apply glob_literal_prefix.
Qed.

(** The regular expression [patternToRegex] builds, for a pattern
    [p] without [*] and [?], whatever other characters it has (the ones
    special in regular expressions are escaped): [p] itself matches the
    key [p] and no other, and [p*] matches exactly the keys that begin
    with [p] and go on without a line terminator. *)
Theorem glob_literal_and_prefix_patterns (p key : string) :
  literal p = true ->
  (Glob.test (Glob.patternToRegex p) key = true <-> key = p)
  /\ (Glob.test (Glob.patternToRegex (p ++ "*")) key = true
      <-> exists rest,
            key = (p ++ rest)%string
            /\ all_chars not_line_terminator rest = true).
Proof. apply glob_literal_and_prefix_shapes. Qed.

(** The pattern [a.b] matches [a.b] only: the dot is no wildcard. *)
Lemma glob_literal_and_prefix_patterns_witness :
  Glob.test (Glob.patternToRegex "a.b") "a.b" = true
  /\ ~ Glob.test (Glob.patternToRegex "a.b") "axb" = true.
Proof.
  pose proof (fun key =>
                proj1 (glob_literal_and_prefix_patterns "a.b" key eq_refl))
    as H.
  split.
  - by apply H.
  - intros Hm. apply H in Hm. discriminate.
Defined.

(** ** Writing to the Cache engine and reading back *)

Section CacheWrites.
Context (o : Cache.Options).
Implicit Types (st : Cache.State) (d : WrappedValue) (key : Key).

(** What [get] and [has] answer, from what the fast lookup finds. *)
Lemma cache_reads now key st :
  fst (Cache.get o now key st)
  = match Cache.fast_lookup st (key_toString key) with
    | Own d => if Cache._checkTTL o && expired now d then JUndefined
               else Cache.handed_copy o (v d)
    | Inherited | Missing => JUndefined
    end
  /\ Cache.has o now key st
     = match Cache.fast_lookup st (key_toString key) with
       | Own d => negb (Cache._checkTTL o && expired now d)
       | Inherited => negb (Cache._checkTTL o)
       | Missing => false
       end.
Proof.
  unfold Cache.get, Cache.has, expired.
  destruct (Cache.fast_lookup st (key_toString key)) as [d| |]; [|done..].
  rewrite <-andb_assoc. split.
  - by destruct (Cache._checkTTL o && _).
  - rewrite (not_expired_inline now d). unfold expired.
    by destruct (Cache._checkTTL o).
Qed.

(** What a [set] that returns leaves for the fast lookup and in the
    plain store. *)
Lemma cache_set_returned now key value ttl st r st1 :
  Cache.set o now key value ttl st = Returned r st1 ->
  exists copy,
    Cache.stored_copy o value = Some copy
    /\ let w := {| t := if Cache._checkTTL o
                        then Cache.livetime_of o now ttl else 0;
                   v := copy |} in
       (forall keyStr,
           Cache.fast_lookup st1 keyStr
           = if decide (keyStr = key_toString key) then Own w
             else Cache.fast_lookup st keyStr)
       /\ Cache.data st1
          = (if Cache.dataMap st is Some _ then Cache.data st
             else <[key_toString key := w]> (Cache.data st)).
Proof.
  unfold Cache.set. destruct (_ && _ && _ && _); [done|].
  destruct (Cache.stored_copy o value) as [copy|]; [|done].
  intros Hset. injection Hset as <- <-. exists copy. split; [done|].
  set (w := {| t := if Cache._checkTTL o then Cache.livetime_of o now ttl else 0;
               v := copy |}).
  cbv zeta.
  assert (Hl : forall (m : gmap string WrappedValue) keyStr,
             <[key_toString key := w]> m !! keyStr
             = if decide (keyStr = key_toString key) then Some w
               else m !! keyStr).
  { intros m keyStr. rewrite lookup_insert.
    destruct (decide (key_toString key = keyStr)) as [<-|Hne].
    - by rewrite decide_True.
    - by rewrite decide_False by congruence. }
  assert (Hs : forall (m : gmap string WrappedValue) keyStr,
             read_slot (<[key_toString key := w]> m) keyStr
             = if decide (keyStr = key_toString key) then Own w
               else read_slot m keyStr).
  { intros m keyStr. unfold read_slot. rewrite Hl. by case_decide. }
  unfold Cache.fast_lookup, Cache.fast_store.
  destruct st as [data [m|] stats]; cbn [Cache.dataMap Cache.data];
    destruct (Cache.enableStats o); cbn [andb];
    repeat match goal with
           | |- context [found ?x] => destruct (found x)
           end;
    simpl; (split; [|done]); intros keyStr; rewrite ?Hl, ?Hs;
    by case_decide.
Qed.

End CacheWrites.

(** [structuredClone] copies a copy it has made to an equal value. *)
Lemma structuredClone_copy :
  forall value copy,
    Cache.structuredClone value = Some copy ->
    Cache.structuredClone copy = Some copy.
Proof.
  fix structuredClone_copy 1.
  intros value.
  destruct value as [| |b|n|s|items|fields| |bytes|bytes];
    cbn [Cache.structuredClone]; intros copy Hc;
    try (injection Hc as <-; reflexivity); try discriminate.
  - apply fmap_Some in Hc as (items' & Hitems & ->).
    cbn [Cache.structuredClone].
    match goal with
    | |- _ <$> ?f items' = _ => enough (Hi : f items' = Some items')
                                  by (by rewrite Hi)
    end.
    revert items' Hitems.
    induction items as [|x rest IH]; intros items' Hitems.
    + by injection Hitems as <-.
    + destruct (Cache.structuredClone x) as [x'|] eqn:Hx; [|done].
      match type of Hitems with
      | match ?c with _ => _ end = _ => destruct c as [rest'|] eqn:Hrest
      end; [|done].
      injection Hitems as <-.
      rewrite (structuredClone_copy x x' Hx).
      by rewrite (IH rest' eq_refl).
  - apply fmap_Some in Hc as (fields' & Hfields & ->).
    cbn [Cache.structuredClone].
    match goal with
    | |- _ <$> ?f fields' = _ => enough (Hi : f fields' = Some fields')
                                   by (by rewrite Hi)
    end.
    revert fields' Hfields.
    induction fields as [|[name x] rest IH]; intros fields' Hfields.
    + by injection Hfields as <-.
    + destruct (Cache.structuredClone x) as [x'|] eqn:Hx; [|done].
      match type of Hfields with
      | match ?c with _ => _ end = _ => destruct c as [rest'|] eqn:Hrest
      end; [|done].
      injection Hfields as <-.
      rewrite (structuredClone_copy x x' Hx).
      by rewrite (IH rest' eq_refl).
Qed.

(** What is handed out of a copy that was stored is that copy. *)
Lemma handed_copy_stored (o : Cache.Options) (value copy : JsValue) :
  Cache.stored_copy o value = Some copy -> Cache.handed_copy o copy = copy.
Proof.
  unfold Cache.stored_copy, Cache.handed_copy, Cache.fastClone.
  destruct (Cache.useClones o); [|done].
  intros Hc. by rewrite (structuredClone_copy value copy Hc).
Qed.

(** A [set] of the [Cache] engine (built with [forceString] off) that
    returns, under a key other than ["__proto__"], then a read of the
    same key at a later clock reading, with or without
    [maxPerformance]: the copy [set] has stored is the value itself
    when [useClones] is off and its structured clone otherwise (in
    which a [Buffer] has become a [Uint8Array]); until the entry
    expires [get] gives that copy and [has] is true, afterwards [get]
    gives [undefined] and [has] is false; the reads of a key with
    another string form are what they were.  Under [maxPerformance] the
    entry goes to the map of the fast path and the plain store, which
    [keys], [mget], [del], [ttl] and [getTtl] read, is left as it
    was. *)
Theorem cache_set_then_read
    (o : Cache.Options) (now now' : Z) (key key' : Key) (value : JsValue)
    (ttl : option Z) (st st1 : Cache.State) (r : bool) :
  Cache.set o now key value ttl st = Returned r st1 ->
  key_toString key <> "__proto__"%string ->
  exists copy,
    Cache.stored_copy o value = Some copy
    /\ (Cache.useClones o = false -> copy = value)
    /\ let w := {| t := if Cache._checkTTL o
                        then Cache.livetime_of o now ttl else 0;
                   v := copy |} in
       (fst (Cache.get o now' key st1)
        = (if expired now' w then JUndefined else copy)
        /\ Cache.has o now' key st1 = negb (expired now' w))
       /\ (key_toString key' <> key_toString key ->
           fst (Cache.get o now' key' st1) = fst (Cache.get o now' key' st)
           /\ Cache.has o now' key' st1 = Cache.has o now' key' st)
       /\ Cache.data st1
          = (if Cache.dataMap st is Some _ then Cache.data st
             else <[key_toString key := w]> (Cache.data st)).
Proof.
  intros Hset _.
  destruct (cache_set_returned o now key value ttl st r st1 Hset)
    as (copy & Hcopy & Hlookup & Hdata).
  exists copy. split_and!; [done| |].
  { intros Hoff. unfold Cache.stored_copy in Hcopy. rewrite Hoff in Hcopy.
    congruence. }
  intros w. cbv zeta in Hlookup, Hdata. fold w in Hlookup, Hdata.
  split; [|split; [|done]].
  - destruct (cache_reads o now' key st1) as (-> & ->).
    rewrite Hlookup, decide_True by done.
    assert (Hw : Cache._checkTTL o && expired now' w = expired now' w).
    { subst w. unfold expired. cbn [t]. by destruct (Cache._checkTTL o). }
    rewrite Hw. subst w. cbn [v]. rewrite (handed_copy_stored o value copy Hcopy).
    by destruct (expired now' _).
  - intros Hne.
    destruct (cache_reads o now' key' st1) as (-> & ->).
    destruct (cache_reads o now' key' st) as (-> & ->).
    by rewrite Hlookup, decide_False.
Qed.

(** A value stored for one second under the default options, read half
    a second and two seconds later. *)
Lemma cache_set_then_read_witness :
  let o := Cache.DEFAULT_OPTIONS in
  let st1 := outcome_state
               (Cache.set o 0 (KStr "a") (JString "x") (Some 1) (Cache.init o)) in
  fst (Cache.get o 500 (KStr "a") st1) = JString "x"
  /\ fst (Cache.get o 2000 (KStr "a") st1) = JUndefined.
Proof.
  cbv zeta.
  assert (Hkey : key_toString (KStr "a") <> "__proto__"%string) by discriminate.
  split.
  - destruct (cache_set_then_read Cache.DEFAULT_OPTIONS 0 500
                (KStr "a") (KStr "a") (JString "x") (Some 1)
                (Cache.init Cache.DEFAULT_OPTIONS) _ true eq_refl Hkey)
      as (copy & Hcopy & _ & (Hget & _) & _).
    injection Hcopy as <-. exact Hget.
  - destruct (cache_set_then_read Cache.DEFAULT_OPTIONS 0 2000
                (KStr "a") (KStr "a") (JString "x") (Some 1)
                (Cache.init Cache.DEFAULT_OPTIONS) _ true eq_refl Hkey)
      as (copy & Hcopy & _ & (Hget & _) & _).
    injection Hcopy as <-. exact Hget.
Defined.

(** ** Lists of nodes *)

Section NodeLists.
Context {A : Type} `{EqDecision A}.
Implicit Types (l : list A) (x y : A).

Lemma elem_of_without x y l : y ∈ without x l <-> y ∈ l /\ y <> x.
Proof.
  induction l as [|a l IH]; cbn [without].
  - split; [by intros ?%elem_of_nil|by intros [?%elem_of_nil _]].
  - destruct (decide (a = x)) as [->|Hne].
    + rewrite IH, elem_of_cons. split.
      * intros [? ?]. split; [by right|done].
      * intros [[->|?] ?]; done.
    + rewrite !elem_of_cons, IH. split.
      * intros [->|[? ?]]; split; try done; [by left|by right].
      * intros [[->|?] ?]; [by left|by right].
Qed.

Lemma without_notin x l : x ∉ l -> without x l = l.
Proof.
  induction l as [|a l IH]; cbn [without]; intros Hn; [done|].
  apply not_elem_of_cons in Hn as [Hne Hn].
  rewrite decide_False by done. f_equal. by apply IH.
Qed.

Lemma NoDup_without x l : NoDup l -> NoDup (without x l).
Proof.
  induction 1 as [|a l Ha Hnd IH]; cbn [without]; [constructor|].
  case_decide; [done|]. constructor; [|done].
  rewrite elem_of_without. by intros [? _].
Qed.

Lemma length_without x l :
  NoDup l -> x ∈ l -> S (length (without x l)) = length l.
Proof.
  induction 1 as [|a l Ha Hnd IH]; [by intros ?%elem_of_nil|].
  cbn [without length]. intros [->|Hin]%elem_of_cons.
  - rewrite decide_True by done. by rewrite without_notin.
  - rewrite decide_False by (intros ->; done). cbn [length]. by rewrite IH.
Qed.

Lemma fmap_without {B : Type} `{EqDecision B} (f : A -> B) x l :
  (forall y, y ∈ l -> f y = f x -> y = x) ->
  f <$> without x l = without (f x) (f <$> l).
Proof.
  induction l as [|a l IH]; intros Hinj; [done|].
  assert (Hl : forall y, y ∈ l -> f y = f x -> y = x)
    by (intros y Hy; apply Hinj, elem_of_cons; by right).
  cbn [without fmap list_fmap]. destruct (decide (a = x)) as [->|Hne].
  - rewrite decide_True by done. by apply IH.
  - rewrite decide_False.
    + cbn [fmap list_fmap]. f_equal. by apply IH.
    + intros Heq. apply Hne, Hinj; [|done]. apply elem_of_cons. by left.
Qed.

Lemma without_last x l :
  NoDup l -> last l = Some x -> without x l = removelast l.
Proof.
  induction 1 as [|a l Ha Hnd IH]; [done|].
  destruct l as [|b l].
  - intros [= ->]. cbn. by rewrite decide_True.
  - rewrite last_cons_cons. intros Hlast. cbn [without].
    rewrite decide_False.
    + change (removelast (a :: b :: l)) with (a :: removelast (b :: l)).
      f_equal. by apply IH.
    + intros ->. by apply last_Some_elem_of in Hlast.
Qed.

End NodeLists.

Section NodeOrder.
Implicit Types (l : list nat) (n m x : nat).

Lemma node_after_elem l m x : node_after l m = Some x -> m ∈ l /\ x ∈ l.
Proof.
  induction l as [|a l IH]; cbn [node_after]; [done|].
  case_decide as Ha.
  - subst. intros Hh%head_Some_elem_of.
    split; apply elem_of_cons; [by left|by right].
  - intros [? ?]%IH. split; apply elem_of_cons; by right.
Qed.

Lemma node_after_ne l m x : NoDup l -> node_after l m = Some x -> m <> x.
Proof.
  induction 1 as [|a l Ha Hnd IH]; cbn [node_after]; [done|].
  case_decide; [|done]. subst. by intros Hh%head_Some_elem_of ->.
Qed.

Lemma node_after_not_head l m x :
  NoDup l -> node_after l m = Some x -> head l <> Some x.
Proof.
  destruct 1 as [|a l Ha Hnd]; cbn [node_after]; [done|].
  case_decide.
  - subst. by intros Hh%head_Some_elem_of [= ->].
  - by intros [_ Hx]%node_after_elem [= ->].
Qed.

Lemma node_after_inj l a b x :
  NoDup l -> node_after l a = Some x -> node_after l b = Some x -> a = b.
Proof.
  induction 1 as [|c l Hc Hnd IH]; cbn [node_after]; [done|].
  destruct (decide (c = a)) as [Ha|Ha], (decide (c = b)) as [Hb|Hb];
    [congruence| | |done].
  - intros Hh Hb'. by apply node_after_not_head in Hb'.
  - intros Ha' Hh. by apply node_after_not_head in Ha'.
Qed.

Lemma head_without l n :
  NoDup l ->
  head (without n l)
  = if decide (head l = Some n) then node_after l n else head l.
Proof.
  destruct 1 as [|a l Ha Hnd]; [done|]. cbn [without node_after head hd_error].
  destruct (decide (a = n)) as [->|Hne].
  - rewrite decide_True by done. by rewrite without_notin.
  - by rewrite decide_False by congruence.
Qed.

Lemma node_after_without l n m :
  NoDup l -> m <> n ->
  node_after (without n l) m
  = if decide (node_after l m = Some n) then node_after l n
    else node_after l m.
Proof.
  induction 1 as [|a l Ha Hnd IH]; intros Hmn; cbn [without node_after];
    [by case_decide|].
  destruct (decide (a = n)) as [->|Han].
  - rewrite (decide_False (P := n = m)) by congruence.
    rewrite without_notin by done.
    case_decide as Hin; [|done]. by apply node_after_elem in Hin as [_ ?].
  - cbn [node_after]. destruct (decide (a = m)) as [->|Ham].
    + by apply head_without.
    + by apply IH.
Qed.

Lemma node_after_alone l n : head l = Some n -> node_after l n = None -> l = [n].
Proof.
  destruct l as [|a l]; [done|]. cbn [node_after head hd_error].
  intros [= ->]. rewrite decide_True by done. by destruct l.
Qed.

Lemma node_after_middle pre n suf :
  n ∉ pre -> node_after (pre ++ n :: suf) n = head suf.
Proof.
  induction pre as [|a pre IH]; cbn [node_after app].
  - intros _. by rewrite decide_True.
  - intros [? ?]%not_elem_of_cons. rewrite decide_False by done. by apply IH.
Qed.

(** The end of a list is its last node. *)
Lemma ends_last l tl : NoDup l -> ends l tl -> tl = last l.
Proof.
  destruct tl as [t|]; cbn [ends]; [|by intros _ ->].
  induction 1 as [|a l Ha Hnd IH]; [by intros [?%elem_of_nil _]|].
  cbn [node_after]. intros [Hin Hafter].
  destruct (decide (a = t)) as [->|Hne].
  - by destruct l.
  - apply elem_of_cons in Hin as [->|Hin]; [done|].
    rewrite last_cons, <-IH by done. done.
Qed.

(** Following the [next] fields of a linked list gives the list. *)
Lemma walk_next (h : gmap nat MemoryLRUDriver.Node.LRUNode) l :
  NoDup l ->
  (forall n, n ∈ l -> h !! n ≫= MemoryLRUDriver.Node.next = node_after l n) ->
  forall pre suf, l = pre ++ suf -> walk h (length suf) (head suf) = suf.
Proof.
  intros Hnd Hnext pre suf. revert pre.
  induction suf as [|n suf IH]; intros pre ->; [done|].
  cbn [length head hd_error walk].
  rewrite Hnext by (apply elem_of_app; right; apply elem_of_cons; by left).
  rewrite node_after_middle.
  - f_equal. apply (IH (pre ++ [n])). by rewrite <-app_assoc.
  - apply NoDup_app in Hnd as (_ & Hdisj & _). intros Hin.
    apply (Hdisj n Hin). apply elem_of_cons. by left.
Qed.

(** What precedes a node of a list is the last of the nodes before
    it. *)
Lemma precedes_last pre n suf p :
  NoDup (pre ++ n :: suf) -> precedes (pre ++ n :: suf) p n -> p = last pre.
Proof.
  intros Hnd. destruct p as [m|]; cbn [precedes].
  - induction pre as [|a pre IH]; cbn [app] in *.
    + intros Hm. by apply node_after_not_head in Hm.
    + apply NoDup_cons in Hnd as [Ha Hnd]. cbn [node_after].
      destruct (decide (a = m)) as [->|Hne].
      * destruct pre as [|b pre]; [done|]. cbn. intros [= ->].
        exfalso. apply NoDup_cons in Hnd as [Hb _]. apply Hb.
        apply elem_of_app. right. apply elem_of_cons. by left.
      * intros Hm. rewrite last_cons, <-(IH Hnd Hm). done.
  - destruct pre as [|a pre]; [done|]. cbn. intros [= ->].
    exfalso. apply NoDup_cons in Hnd as [Ha _]. apply Ha.
    apply elem_of_app. right. apply elem_of_cons. by left.
Qed.

(** Following the [prev] fields of a linked list from its end gives the
    list reversed. *)
Lemma walk_back_prev (h : gmap nat MemoryLRUDriver.Node.LRUNode) l :
  NoDup l ->
  (forall n, n ∈ l ->
     precedes l (h !! n ≫= MemoryLRUDriver.Node.prev) n) ->
  forall pre suf,
    l = pre ++ suf -> walk_back h (length pre) (last pre) = reverse pre.
Proof.
  intros Hnd Hprev pre.
  induction pre as [|n pre IH] using rev_ind; intros suf ->; [done|].
  rewrite length_app, last_snoc, reverse_snoc. cbn [length].
  rewrite Nat.add_1_r. cbn [walk_back]. f_equal.
  rewrite <-app_assoc in Hnd, Hprev. cbn [app] in Hnd, Hprev.
  rewrite (precedes_last pre n suf _ Hnd)
    by (apply Hprev, elem_of_app; right; apply elem_of_cons; by left).
  apply (IH (n :: suf)). by rewrite <-app_assoc.
Qed.

End NodeOrder.

(** ** The linked list of the LRU driver *)

Section LRULinks.
Import MemoryLRUDriver.
Implicit Types (st : State) (l : list nat) (n m : nat) (nd : LRUNode).

(** What [removeNode] leaves, field by field. *)
Lemma removeNode_parts n nd st :
  heap st !! n = Some nd ->
  heap (removeNode n st)
  = from_option (alter (Node.set_prev (Node.prev nd))) id (Node.next nd)
      (from_option (alter (Node.set_next (Node.next nd))) id (Node.prev nd)
         (heap st))
  /\ head (removeNode n st)
     = (if Node.prev nd is Some _ then head st else Node.next nd)
  /\ tail (removeNode n st)
     = (if Node.next nd is Some _ then tail st else Node.prev nd)
  /\ fresh (removeNode n st) = fresh st.
Proof.
  intros Hn. unfold removeNode. rewrite Hn.
  by destruct (Node.prev nd), (Node.next nd).
Qed.

(** What [addToHead] leaves, field by field. *)
Lemma addToHead_parts n st :
  heap (addToHead n st)
  = from_option (alter (Node.set_prev (Some n))) id (head st)
      (alter (fun nd => Node.set_prev None (Node.set_next (head st) nd)) n
         (heap st))
  /\ head (addToHead n st) = Some n
  /\ tail (addToHead n st) = (if tail st is Some t then Some t else Some n)
  /\ fresh (addToHead n st) = fresh st.
Proof.
  destruct st as [d h f [hd|] [tl|] s tg]; by cbv.
Qed.

(** Relinking changes no key. *)
Lemma alter_keeps_key (f : LRUNode -> LRUNode) n (h : gmap nat LRUNode) m :
  (forall nd, Node.key (f nd) = Node.key nd) ->
  Node.key <$> alter f n h !! m = Node.key <$> h !! m.
Proof.
  intros Hf. rewrite lookup_alter. case_decide as Hnm; [subst|done].
  rewrite <-option_fmap_compose. apply option_fmap_ext. intros nd. apply Hf.
Qed.

Lemma node_key_removeNode n st m :
  node_key (removeNode n st) m = node_key st m.
Proof.
  unfold node_key, removeNode.
  destruct (heap st !! n) as [nd|]; [|done].
  destruct (Node.prev nd), (Node.next nd); simpl;
    by rewrite ?alter_keeps_key.
Qed.

Lemma node_key_addToHead n st m :
  node_key (addToHead n st) m = node_key st m.
Proof.
  unfold node_key. destruct (addToHead_parts n st) as (-> & _).
  destruct (head st); simpl; by rewrite ?alter_keeps_key.
Qed.

(** Unlinking a node of the list. *)
Lemma links_removeNode n st l :
  lru_links st l -> n ∈ l -> lru_links (removeNode n st) (without n l).
Proof.
  intros (Hnd & Hhead & Hends & Hnodes & Hfresh) Hin.
  destruct (Hnodes n Hin) as (nd & Hn & Hnext & Hprev).
  destruct (removeNode_parts n nd st Hn) as (Hheap' & Hhead' & Htail' & Hfresh').
  (* the node before [n], if any, is the only one whose [next] is [n] *)
  assert (Hbefore : forall m, node_after l m = Some n <-> Node.prev nd = Some m).
  { intros m. split.
    - intros Hm. destruct (Node.prev nd) as [p|] eqn:Hp; cbn [precedes] in Hprev.
      + f_equal. by apply (node_after_inj l p m n).
      + by apply node_after_not_head in Hm.
    - intros Hp. by rewrite Hp in Hprev. }
  unfold lru_links. rewrite Hhead', Htail', Hfresh'. split_and!.
  - by apply NoDup_without.
  - rewrite head_without by done. rewrite <-Hhead.
    destruct (Node.prev nd) as [p|] eqn:Hp; cbn [precedes] in Hprev.
    + rewrite decide_False; [done|]. rewrite Hhead.
      by apply (node_after_not_head l p n).
    + by rewrite decide_True by congruence.
  - destruct (Node.next nd) as [x|] eqn:Hx.
    + destruct (tail st) as [t|]; cbn [ends] in *;
        [|subst l; by apply elem_of_nil in Hin].
      destruct Hends as [Ht Hafter].
      assert (t <> n) by (intros ->; congruence).
      split; [by apply elem_of_without|].
      rewrite node_after_without by done.
      rewrite decide_False by congruence. done.
    + destruct (Node.prev nd) as [p|] eqn:Hp; cbn [precedes ends] in *.
      * pose proof (node_after_ne l p n Hnd Hprev).
        split; [apply elem_of_without; split; [|done];
                by apply (node_after_elem l p n)|].
        rewrite node_after_without by done.
        rewrite decide_True by done. congruence.
      * rewrite (node_after_alone l n) by congruence.
        cbn [without]. by rewrite decide_True.
  - intros m [Hm Hmn]%elem_of_without.
    destruct (Hnodes m Hm) as (ndm & Hmnd & Hmnext & Hmprev).
    set (f := fun x : LRUNode =>
                (if decide (Node.next nd = Some m)
                 then Node.set_prev (Node.prev nd) else id)
                  ((if decide (Node.prev nd = Some m)
                    then Node.set_next (Node.next nd) else id) x)).
    assert (Hlook : heap (removeNode n st) !! m = Some (f ndm)).
    { rewrite Hheap'. subst f.
      destruct (Node.next nd) as [x|], (Node.prev nd) as [p|];
        cbn [from_option id]; rewrite ?lookup_alter;
        repeat case_decide; simplify_eq; rewrite ?Hmnd; try done. }
    exists (f ndm). split; [done|]. subst f. split.
    + rewrite node_after_without by done.
      destruct (decide (Node.prev nd = Some m)) as [Hpm|Hpm].
      * rewrite (decide_True (P := node_after l m = Some n))
          by (by apply Hbefore).
        by destruct (decide (Node.next nd = Some m)).
      * rewrite (decide_False (P := node_after l m = Some n))
          by (by rewrite Hbefore).
        by destruct (decide (Node.next nd = Some m)).
    + destruct (decide (Node.next nd = Some m)) as [Hnm|Hnm].
      * assert (Hpr : Node.prev
                        (Node.set_prev (Node.prev nd)
                           ((if decide (Node.prev nd = Some m)
                             then Node.set_next (Node.next nd) else id) ndm))
                      = Node.prev nd) by done.
        rewrite Hpr.
        destruct (Node.prev nd) as [p|] eqn:Hp; cbn [precedes] in *.
        -- pose proof (node_after_ne l p n Hnd Hprev).
           rewrite node_after_without by done.
           rewrite decide_True by done. congruence.
        -- rewrite head_without by done.
           rewrite decide_True by done. congruence.
      * assert (Hpr : Node.prev
                        (id ((if decide (Node.prev nd = Some m)
                              then Node.set_next (Node.next nd) else id) ndm))
                      = Node.prev ndm)
          by (by destruct (decide (Node.prev nd = Some m))).
        rewrite Hpr.
        destruct (Node.prev ndm) as [p|] eqn:Hp; cbn [precedes] in *.
        -- assert (p <> n) by (intros ->; congruence).
           rewrite node_after_without by done.
           rewrite decide_False by congruence. done.
        -- rewrite head_without by done.
           rewrite decide_False by congruence. done.
  - intros m [Hm _]%elem_of_without. by apply Hfresh.
Qed.

(** Linking a node that is not in the list in front of it. *)
Lemma links_addToHead n nd st l :
  lru_links st l -> n ∉ l -> heap st !! n = Some nd ->
  (n < fresh st)%nat ->
  lru_links (addToHead n st) (n :: l).
Proof.
  intros (Hnd & Hhead & Hends & Hnodes & Hfresh) Hnot Hn Hlt.
  destruct (addToHead_parts n st) as (Hheap' & Hhead' & Htail' & Hfresh').
  unfold lru_links. rewrite Hhead', Htail', Hfresh'. split_and!.
  - by constructor.
  - done.
  - destruct (tail st) as [t|]; cbn [ends] in *.
    + destruct Hends as [Ht Hafter].
      split; [apply elem_of_cons; by right|].
      cbn [node_after]. rewrite decide_False by (intros ->; done). done.
    + subst l. split; [apply elem_of_cons; by left|].
      cbn [node_after]. by rewrite decide_True.
  - intros m [->|Hm]%elem_of_cons.
    + exists (Node.set_prev None (Node.set_next (head st) nd)).
      split_and!.
      * rewrite Hheap'. destruct (head st) as [h|] eqn:Hh; cbn [from_option id].
        -- rewrite lookup_alter_ne, lookup_alter_eq, Hn; [done|].
           intros ->. apply Hnot. apply head_Some_elem_of. by rewrite <-Hhead.
        -- by rewrite lookup_alter_eq, Hn.
      * cbn [node_after]. by rewrite decide_True.
      * done.
    + assert (m <> n) by (intros ->; done).
      destruct (Hnodes m Hm) as (ndm & Hmnd & Hmnext & Hmprev).
      set (f := fun x : LRUNode =>
                  if decide (head st = Some m)
                  then Node.set_prev (Some n) x else x).
      assert (Hlook : heap (addToHead n st) !! m = Some (f ndm)).
      { rewrite Hheap'. subst f.
        destruct (head st) as [h|]; cbn [from_option id];
          rewrite ?lookup_alter; repeat case_decide; simplify_eq;
          rewrite ?Hmnd; done. }
      exists (f ndm). split; [done|]. subst f. split.
      * cbn [node_after]. rewrite (decide_False (P := n = m)) by congruence.
        by destruct (decide (head st = Some m)).
      * destruct (decide (head st = Some m)) as [Hhm|Hhm]; cbn [precedes].
        -- simpl. rewrite decide_True by done. congruence.
        -- destruct (Node.prev ndm) as [p|] eqn:Hp; cbn [precedes] in *.
           ++ cbn [node_after]. rewrite decide_False; [done|].
              intros ->. by apply node_after_elem in Hmprev as [? _].
           ++ congruence.
  - intros m [->|Hm]%elem_of_cons; [done|by apply Hfresh].
Qed.

End LRULinks.

(** ** The representation of the LRU driver by its list *)

Section LRURep.
Import MemoryLRUDriver.
Context (o : MemoryDriverOptions).
Implicit Types (st : State) (l : list nat) (n m : nat) (nd : LRUNode)
  (k : string).

(** The links look at the heap, the two ends and the allocator. *)
Lemma lru_links_ext st st' l :
  heap st' = heap st -> head st' = head st -> tail st' = tail st ->
  fresh st' = fresh st ->
  lru_links st l -> lru_links st' l.
Proof. unfold lru_links. by intros -> -> -> ->. Qed.

(** The representation looks, besides, at the store and at the key
    counter. *)
Lemma lru_rep_ext st st' l :
  data st' = data st -> heap st' = heap st -> head st' = head st ->
  tail st' = tail st -> fresh st' = fresh st ->
  Stats.keys (stats st') = Stats.keys (stats st) ->
  lru_rep o st l -> lru_rep o st' l.
Proof.
  unfold lru_rep, lru_links, lru_index, node_key.
  by intros -> -> -> -> -> ->.
Qed.

Lemma removeNode_with_stats f n st :
  removeNode n (with_stats f st) = with_stats f (removeNode n st).
Proof.
  unfold removeNode. cbn [heap with_stats].
  destruct (heap st !! n) as [nd|]; [|done].
  by destruct (Node.prev nd), (Node.next nd).
Qed.

Lemma addToHead_with_stats f n st :
  addToHead n (with_stats f st) = with_stats f (addToHead n st).
Proof. destruct st as [d h fr [hd|] [tl|] s tg]; by cbv. Qed.

Lemma moveToHead_with_stats f n st :
  moveToHead n (with_stats f st) = with_stats f (moveToHead n st).
Proof.
  unfold moveToHead. by rewrite removeNode_with_stats, addToHead_with_stats.
Qed.

(** A node the store names is in the list and carries the key. *)
Lemma lookup_node_rep st l k n nd :
  lru_index st l -> lookup_node st k = Some (n, nd) ->
  n ∈ l /\ node_key st n = Some k /\ heap st !! n = Some nd
  /\ data st !! k = Some n.
Proof.
  intros Hindex. unfold lookup_node.
  destruct (data st !! k) as [n'|] eqn:Hk; [|done].
  destruct (heap st !! n') as [nd'|] eqn:Hn; [|done].
  intros [= <- <-]. by destruct (proj1 (Hindex k n') Hk).
Qed.

Lemma lookup_node_None_rep st l k :
  lru_links st l -> lru_index st l -> lookup_node st k = None ->
  data st !! k = None.
Proof.
  intros (_ & _ & _ & Hnodes & _) Hindex. unfold lookup_node.
  destruct (data st !! k) as [n|] eqn:Hk; [|done].
  destruct (proj1 (Hindex k n) Hk) as [Hin _].
  destruct (Hnodes n Hin) as (nd & -> & _). done.
Qed.

(** Two nodes of the list do not carry the same key. *)
Lemma node_key_inj st l n m k :
  lru_index st l -> n ∈ l -> m ∈ l ->
  node_key st n = Some k -> node_key st m = Some k -> n = m.
Proof.
  intros Hindex Hn Hm Hkn Hkm.
  assert (data st !! k = Some n) as H1 by (by apply Hindex).
  assert (data st !! k = Some m) as H2 by (by apply Hindex).
  congruence.
Qed.

(** Unlinking a node and dropping its key: what the lazy expiry, [del]
    and the eviction do. *)
Lemma lru_rep_detach st l n k :
  lru_rep o st l -> n ∈ l -> node_key st n = Some k ->
  lru_rep o (with_stats (Stats.add_keys (-1))
               (with_data (delete k) (removeNode n st)))
    (without n l).
Proof.
  intros (Hlinks & Hindex & Hsize & Hkeys & Hbound) Hin Hkey.
  unfold lru_index in Hindex.
  pose proof Hlinks as (Hnd & _).
  pose proof (length_without n l Hnd Hin) as Hlen.
  destruct (removeNode_frame n st) as (Hdata & Hstats & _).
  assert (Hk : data st !! k = Some n) by (by apply Hindex).
  unfold lru_rep. split_and!.
  - eapply lru_links_ext; [..|by apply links_removeNode]; done.
  - intros k' m. cbn [data with_stats with_data]. rewrite Hdata.
    change (node_key (with_stats (Stats.add_keys (-1))
                        (with_data (delete k) (removeNode n st))) m)
      with (node_key (removeNode n st) m).
    rewrite node_key_removeNode, elem_of_without, lookup_delete.
    destruct (decide (k = k')) as [<-|Hne].
    + split; [done|]. intros [[Hm Hmn] Hkm]. exfalso. apply Hmn.
      by apply (node_key_inj st l m n k).
    + rewrite Hindex. split.
      * intros [Hm Hkm]. split_and!; [done| |done]. intros ->. congruence.
      * by intros [[Hm _] Hkm].
  - cbn [data with_stats with_data]. rewrite Hdata.
    rewrite map_size_delete_Some by done. lia.
  - cbn [stats with_stats with_data Stats.add_keys Stats.keys].
    rewrite Hstats. lia.
  - intros Hmax. specialize (Hbound Hmax). lia.
Qed.

(** Moving a node of the list to the front. *)
Lemma lru_rep_moveToHead st l n :
  lru_rep o st l -> n ∈ l -> lru_rep o (moveToHead n st) (n :: without n l).
Proof.
  intros (Hlinks & Hindex & Hsize & Hkeys & Hbound) Hin.
  unfold lru_index in Hindex.
  pose proof Hlinks as (Hnd & _ & _ & Hnodes & Hfresh).
  pose proof (length_without n l Hnd Hin) as Hlen.
  destruct (moveToHead_frame n st) as (Hdata & Hstats & _).
  assert (Hkeys' : forall m, node_key (moveToHead n st) m = node_key st m).
  { intros m. unfold moveToHead.
    by rewrite node_key_addToHead, node_key_removeNode. }
  destruct (Hnodes n Hin) as (nd & Hn & _).
  assert (Hn' : is_Some (heap (removeNode n st) !! n)).
  { pose proof (node_key_removeNode n st n) as Hk. unfold node_key in Hk.
    rewrite Hn in Hk. by destruct (heap (removeNode n st) !! n). }
  destruct Hn' as [nd' Hn'].
  unfold lru_rep. split_and!.
  - unfold moveToHead. apply links_addToHead with nd'.
    + by apply links_removeNode.
    + rewrite elem_of_without. by intros [_ ?].
    + done.
    + destruct (removeNode_parts n nd st Hn) as (_ & _ & _ & ->).
      by apply Hfresh.
  - intros k m. rewrite Hdata, Hkeys', Hindex, elem_of_cons, elem_of_without.
    split.
    + intros [Hm Hkm]. split; [|done].
      destruct (decide (m = n)); [by left|by right].
    + intros [[->|[Hm _]] Hkm]; done.
  - rewrite Hdata. cbn [length]. lia.
  - rewrite Hstats. cbn [length]. lia.
  - intros Hmax. specialize (Hbound Hmax). cbn [length]. lia.
Qed.

(** Creating a node for the key [k], which no node of the list carries,
    linking it in front and naming it in the store. *)
Lemma lru_push st l k w :
  lru_links st l ->
  (forall k' m, k' <> k ->
     data st !! k' = Some m <-> m ∈ l /\ node_key st m = Some k') ->
  (forall m, m ∈ l -> node_key st m <> Some k) ->
  let nd := {| Node.key := k; Node.value := w;
               Node.prev := None; Node.next := None |} in
  let st' := with_data <[k := fresh st]> (addToHead (fresh st) (snd (alloc nd st))) in
  lru_links st' (fresh st :: l) /\ lru_index st' (fresh st :: l)
  /\ data st' = <[k := fresh st]> (data st) /\ stats st' = stats st.
Proof.
  intros Hlinks Hindex Hnone nd st'.
  pose proof Hlinks as (Hnd & Hhead & Hends & Hnodes & Hfresh).
  assert (Hnew : fresh st ∉ l).
  { intros Hin. apply Hfresh in Hin. lia. }
  assert (Hkeys : forall m,
             node_key st' m
             = if decide (m = fresh st) then Some k else node_key st m).
  { intros m. subst st'.
    change (node_key (with_data <[k:=fresh st]> ?s) m) with (node_key s m).
    rewrite node_key_addToHead. unfold node_key. cbn [alloc snd heap].
    rewrite lookup_insert.
    destruct (decide (fresh st = m)) as [<-|Hne].
    - by rewrite decide_True.
    - by rewrite decide_False by congruence. }
  split_and!.
  - subst st'. eapply lru_links_ext; [..|apply links_addToHead with nd]; try done.
    + unfold lru_links. cbn [alloc snd heap head tail fresh]. split_and!; try done.
      * intros m Hm. destruct (Hnodes m Hm) as (ndm & Hmnd & Hrest).
        exists ndm. split; [|done].
        rewrite lookup_insert_ne; [done|]. intros <-. done.
      * intros m Hm. apply Hfresh in Hm. lia.
    + cbn [alloc snd heap]. apply lookup_insert_eq.
    + cbn [alloc snd fresh]. lia.
  - intros k' m. rewrite Hkeys, elem_of_cons.
    subst st'. cbn [data with_data].
    destruct (addToHead_frame (fresh st) (snd (alloc nd st))) as (-> & _).
    cbn [alloc snd data]. rewrite lookup_insert.
    destruct (decide (k = k')) as [<-|Hne].
    + split.
      * intros [= <-]. split; [by left|]. by rewrite decide_True.
      * intros [[->|Hm] Hkm]; [done|]. exfalso.
        rewrite decide_False in Hkm by (intros ->; done).
        by apply (Hnone m).
    + rewrite Hindex by congruence. split.
      * intros [Hm Hkm]. split; [by right|].
        rewrite decide_False; [done|]. intros ->. done.
      * intros [[->|Hm] Hkm].
        -- rewrite decide_True in Hkm by done. congruence.
        -- rewrite decide_False in Hkm by (intros ->; done). done.
  - subst st'. cbn [data with_data].
    by destruct (addToHead_frame (fresh st) (snd (alloc nd st))) as (-> & _).
  - subst st'. cbn [stats with_data].
    by destruct (addToHead_frame (fresh st) (snd (alloc nd st))) as (_ & -> & _).
Qed.

End LRURep.

(** ** The operations of the LRU driver on the represented list *)

Section LRUOperations.
Import MemoryLRUDriver.
Context (o : MemoryDriverOptions).
Implicit Types (st : State) (l : list nat) (n m : nat) (nd : LRUNode)
  (k : string) (key : Key).

Lemma lru_rep_stats f st l :
  (forall s, Stats.keys (f s) = Stats.keys s) ->
  lru_rep o st l -> lru_rep o (with_stats f st) l.
Proof. intros Hf. apply lru_rep_ext; try done. apply Hf. Qed.

Lemma lru_rep_tags f st l : lru_rep o st l -> lru_rep o (with_tags f st) l.
Proof. by apply lru_rep_ext. Qed.

(** The lazy check of an entry: the list loses the node of an entry it
    removes. *)
Lemma lru_rep_present now fullKey st l :
  lru_rep o st l ->
  lru_rep o (snd (present o now fullKey st))
    match lookup_node st fullKey with
    | Some (n, nd) =>
        if served o now (Node.value nd) then l else without n l
    | None => l
    end.
Proof.
  intros Hrep. rewrite lru_present_spec.
  destruct (lookup_node st fullKey) as [[n nd]|] eqn:Hl; [|done].
  destruct (served o now (Node.value nd)); [done|].
  destruct Hrep as (Hlinks & Hindex & Hrest).
  destruct (lookup_node_rep st l fullKey n nd Hindex Hl) as (Hin & Hkey & _).
  by apply lru_rep_detach.
Qed.

Lemma lru_rep_checkExpiry now fullKey d st l :
  lru_rep o st l ->
  exists l', lru_rep o (snd (checkExpiry o now fullKey d st)) l'.
Proof.
  intros Hrep. unfold checkExpiry.
  destruct (expired now d); [|by exists l].
  destruct (deleteOnExpire o); [|by exists l].
  destruct (lookup_node st fullKey) as [[n nd]|] eqn:Hl; [|by exists l].
  destruct Hrep as (Hlinks & Hindex & Hrest).
  destruct (lookup_node_rep st l fullKey n nd Hindex Hl) as (Hin & Hkey & _).
  exists (without n l). by apply lru_rep_detach.
Qed.

(** [get] moves the node of a served entry to the front and unlinks the
    node of an entry it finds expired. *)
Lemma lru_rep_get now key st l :
  lru_rep o st l ->
  lru_rep o (snd (get o now key st))
    match lookup_node st (getFullKey o key) with
    | Some (n, nd) =>
        if served o now (Node.value nd) then n :: without n l else without n l
    | None => l
    end.
Proof.
  intros Hrep. rewrite lru_get_spec.
  destruct (lookup_node st (getFullKey o key)) as [[n nd]|] eqn:Hl;
    [|by apply lru_rep_stats].
  pose proof Hrep as (Hlinks & Hindex & Hrest).
  destruct (lookup_node_rep st l _ n nd Hindex Hl) as (Hin & Hkey & _).
  destruct (served o now (Node.value nd)); cbn [snd].
  - rewrite moveToHead_with_stats. apply lru_rep_stats; [done|].
    by apply lru_rep_moveToHead.
  - apply lru_rep_stats; [done|]. by apply lru_rep_detach.
Qed.

(** The eviction unlinks the node at the end of the list. *)
Lemma lru_rep_evictLRU st l :
  lru_rep o st l ->
  lru_rep o (evictLRU st)
    match tail st with Some t => without t l | None => l end.
Proof.
  intros Hrep. unfold evictLRU, removeTail.
  destruct (tail st) as [t|] eqn:Ht; [|done].
  pose proof Hrep as ((_ & _ & Hends & Hnodes & _) & Hindex & _).
  rewrite Ht in Hends. destruct Hends as [Hin _].
  destruct (Hnodes t Hin) as (nd & Hn & _). rewrite Hn.
  eapply lru_rep_ext; [..|apply (lru_rep_detach o st l t (Node.key nd))];
    try done.
  unfold node_key. by rewrite Hn.
Qed.

(** [set], with the state before the new node is created named. *)
Lemma lru_set_spec now key value ttl st :
  let F := getFullKey o key in
  let st1 :=
    match lookup_node st F with
    | Some (n, nd) =>
        removeNode n
          (with_stats
             (Stats.add_vsize (- getValueSize (unwrap (Node.value nd)))) st)
    | None =>
        if (maxKeys o >? 0) && (Stats.keys (stats st) >=? maxKeys o)
        then evictLRU st else st
    end in
  let st' :=
    with_data <[F := fresh st1]>
      (addToHead (fresh st1)
         (snd (alloc {| Node.key := F; Node.value := wrap o now value ttl;
                        Node.prev := None; Node.next := None |} st1))) in
  snd (set o now key value ttl st)
  = match lookup_node st F with
    | Some _ => with_stats (Stats.add_vsize (getValueSize value)) st'
    | None =>
        with_stats (Stats.add_keys 1)
          (with_stats (Stats.add_ksize (getKeySize (key_toString key)))
             (with_stats (Stats.add_vsize (getValueSize value)) st'))
    end.
Proof.
  unfold set. by destruct (lookup_node st (getFullKey o key)) as [[n nd]|].
Qed.

(** [set] links a new node in front; the node the key had is unlinked,
    and so is the last node when a new key finds the driver full. *)
Lemma lru_rep_set now key value ttl st l :
  lru_rep o st l ->
  lru_rep o (snd (set o now key value ttl st))
    (fresh st ::
     match lookup_node st (getFullKey o key) with
     | Some (n, _) => without n l
     | None =>
         if (maxKeys o >? 0) && (Stats.keys (stats st) >=? maxKeys o)
         then match tail st with Some t => without t l | None => l end
         else l
     end).
Proof.
  intros Hrep. rewrite lru_set_spec. cbv zeta.
  set (F := getFullKey o key). set (w := wrap o now value ttl).
  pose proof Hrep as (Hlinks & Hindex & Hsize & Hkeys & Hbound).
  pose proof Hlinks as (Hnd & _ & Hends & Hnodes & _).
  unfold lru_index in Hindex.
  destruct (lookup_node st F) as [[n nd]|] eqn:Hl.
  - destruct (lookup_node_rep st l F n nd Hindex Hl) as (Hin & Hkey & _ & Hk).
    pose proof (length_without n l Hnd Hin) as Hlen.
    rewrite removeNode_with_stats.
    set (st1 := with_stats _ (removeNode n st)).
    destruct (removeNode_frame n st) as (Hdata & Hstats & _).
    assert (Hfresh1 : fresh st1 = fresh st).
    { destruct (Hnodes n Hin) as (nd' & Hn' & _).
      change (fresh st1) with (fresh (removeNode n st)).
      by destruct (removeNode_parts n nd' st Hn') as (_ & _ & _ & ->). }
    assert (Hkeys1 : forall m, node_key st1 m = node_key st m)
      by (intros m; apply node_key_removeNode).
    destruct (lru_push st1 (without n l) F w)
      as (Hlinks' & Hindex' & Hdata' & Hstats').
    + eapply lru_links_ext; [..|by apply (links_removeNode n st l)]; done.
    + intros k' m Hne. rewrite Hkeys1, elem_of_without.
      change (data st1) with (data (removeNode n st)). rewrite Hdata, Hindex.
      split; [|by intros [[? _] ?]].
      intros [Hm Hkm]. split_and!; [done| |done]. intros ->. congruence.
    + intros m [Hm Hmn]%elem_of_without Hkm. rewrite Hkeys1 in Hkm.
      apply Hmn. by apply (node_key_inj st l m n F).
    + cbv zeta in Hlinks', Hindex', Hdata', Hstats'. rewrite <-Hfresh1.
      apply lru_rep_stats; [done|].
      unfold lru_rep. split_and!; [done|done| | |].
      * rewrite Hdata'. change (data st1) with (data (removeNode n st)).
        rewrite Hdata, map_size_insert_Some by done. cbn [length]. lia.
      * rewrite Hstats'. subst st1.
        cbn [stats with_stats Stats.keys Stats.add_vsize].
        rewrite Hstats. cbn [length]. lia.
      * intros Hmax. specialize (Hbound Hmax). cbn [length]. lia.
  - pose proof (lookup_node_None_rep st l F Hlinks Hindex Hl) as Hnone.
    set (full := (maxKeys o >? 0) && (Stats.keys (stats st) >=? maxKeys o)).
    set (st1 := if full then evictLRU st else st).
    set (l1 := if full
               then match tail st with Some t => without t l | None => l end
               else l).
    assert (Hrep1 : lru_rep o st1 l1).
    { subst st1 l1. destruct full; [by apply lru_rep_evictLRU|done]. }
    assert (Hfresh1 : fresh st1 = fresh st).
    { subst st1. destruct full; [|done]. unfold evictLRU, removeTail.
      destruct (tail st) as [t|]; [|done].
      destruct (heap st !! t) as [ndt|] eqn:Hn; [|done].
      cbn [fresh with_stats with_data].
      by destruct (removeNode_parts t ndt st Hn) as (_ & _ & _ & ->). }
    assert (Hnone1 : data st1 !! F = None).
    { subst st1. destruct full; [|done]. unfold evictLRU, removeTail.
      destruct (tail st) as [t|]; [|done].
      destruct (heap st !! t) as [ndt|] eqn:Hn; [|done].
      cbn [data with_stats with_data].
      destruct (removeNode_frame t st) as (-> & _).
      rewrite lookup_delete. by case_decide. }
    assert (Hroom : 0 < maxKeys o -> Z.of_nat (S (length l1)) <= maxKeys o).
    { intros Hmax. specialize (Hbound Hmax). subst l1 full.
      destruct (Z.gtb_spec (maxKeys o) 0); [|lia]. cbn [andb].
      destruct (Z.geb_spec (Stats.keys (stats st)) (maxKeys o)) as [Hfull|Hfull];
        [|lia].
      destruct (tail st) as [t|]; cbn [ends] in Hends.
      - destruct Hends as [Hin _].
        pose proof (length_without t l Hnd Hin). lia.
      - subst l. cbn [length] in *. lia. }
    pose proof Hrep1 as (Hlinks1 & Hindex1 & Hsize1 & Hkeys1 & _).
    unfold lru_index in Hindex1.
    destruct (lru_push st1 l1 F w) as (Hlinks' & Hindex' & Hdata' & Hstats');
      [done| | |].
    + intros k' m _. apply Hindex1.
    + intros m Hm Hkm.
      assert (data st1 !! F = Some m) by (by apply Hindex1). congruence.
    + cbv zeta in Hlinks', Hindex', Hdata', Hstats'. rewrite <-Hfresh1.
      unfold lru_rep. split_and!; [done|done| | |done].
      * cbn [data with_stats]. rewrite Hdata'.
        rewrite map_size_insert_None by done. cbn [length]. lia.
      * cbn [stats with_stats Stats.keys Stats.add_vsize
             Stats.add_ksize Stats.add_keys].
        rewrite Hstats'. cbn [length]. lia.
Qed.

End LRUOperations.

(** ** Well-formedness of the LRU driver is kept by every operation *)

Section LRUInvariant.
Import MemoryLRUDriver.
Context (o : MemoryDriverOptions).
Implicit Types (st : State) (l : list nat) (n m : nat) (nd : LRUNode)
  (k : string) (key : Key).

Lemma lru_ok_init : lru_ok o init.
Proof.
  exists []. unfold lru_rep, lru_links, lru_index. cbn.
  split_and!; try done; try lia.
  - constructor.
  - intros n Hn. by apply elem_of_nil in Hn.
  - intros n Hn. by apply elem_of_nil in Hn.
  - intros k n. rewrite lookup_empty. split; [done|].
    intros [Hn _]. by apply elem_of_nil in Hn.
Qed.

Lemma lru_ok_flush st : lru_ok o (flush st).
Proof.
  exists []. unfold lru_rep, lru_links, lru_index. cbn.
  split_and!; try done; try lia.
  - constructor.
  - intros n Hn. by apply elem_of_nil in Hn.
  - intros n Hn. by apply elem_of_nil in Hn.
  - intros k n. rewrite lookup_empty. split; [done|].
    intros [Hn _]. by apply elem_of_nil in Hn.
Qed.

Lemma lru_ok_stats f st :
  (forall s, Stats.keys (f s) = Stats.keys s) ->
  lru_ok o st -> lru_ok o (with_stats f st).
Proof. intros Hf [l Hrep]. exists l. by apply lru_rep_stats. Qed.

Lemma lru_ok_present now fullKey st :
  lru_ok o st -> lru_ok o (snd (present o now fullKey st)).
Proof. intros [l Hrep]. eexists. by apply lru_rep_present. Qed.

Lemma lru_ok_checkExpiry now fullKey d st :
  lru_ok o st -> lru_ok o (snd (checkExpiry o now fullKey d st)).
Proof. intros [l Hrep]. by apply (lru_rep_checkExpiry o now fullKey d st l). Qed.

Lemma lru_ok_get now key st : lru_ok o st -> lru_ok o (snd (get o now key st)).
Proof. intros [l Hrep]. eexists. by apply lru_rep_get. Qed.

Lemma lru_ok_set now key value ttl st :
  lru_ok o st -> lru_ok o (snd (set o now key value ttl st)).
Proof. intros [l Hrep]. eexists. by apply lru_rep_set. Qed.

Lemma lru_ok_mget now keys st :
  lru_ok o st -> lru_ok o (snd (mget o now keys st)).
Proof.
  unfold mget. rewrite lru_mget_state_as_gets. revert st.
  induction keys as [|key keys IH]; intros st Hok; [done|].
  cbn [foldl]. by apply IH, lru_ok_get.
Qed.

Lemma lru_ok_mset now entries st :
  lru_ok o st -> lru_ok o (snd (mset o now entries st)).
Proof.
  unfold mset. cbn [snd]. revert st.
  induction entries as [|[[key value] ttl] entries IH]; intros st Hok; [done|].
  cbn [foldl]. by apply IH, lru_ok_set.
Qed.

Lemma lru_ok_del_step (acc : Z * State) key :
  lru_ok o (snd acc) -> lru_ok o (snd (del_step o acc key)).
Proof.
  destruct acc as [c st]. cbn [snd]. intros [l Hrep]. unfold del_step.
  destruct (lookup_node st (getFullKey o key)) as [[n nd]|] eqn:Hl;
    [|by exists l].
  pose proof Hrep as (_ & Hindex & _).
  destruct (lookup_node_rep st l _ n nd Hindex Hl) as (Hin & Hkey & _).
  exists (without n l). cbn [snd]. apply lru_rep_tags.
  rewrite !removeNode_with_stats.
  eapply lru_rep_ext;
    [..|apply (lru_rep_detach o st l n (getFullKey o key) Hrep Hin Hkey)];
    done.
Qed.

Lemma lru_ok_del keys st : lru_ok o st -> lru_ok o (snd (del o keys st)).
Proof.
  unfold del. generalize 0. revert st.
  induction keys as [|key keys IH]; intros st c Hok; [done|].
  cbn [foldl].
  pose proof (lru_ok_del_step (c, st) key Hok) as Hstep.
  destruct (del_step o (c, st) key) as [c1 st1]. by apply IH.
Qed.

Lemma lru_ok_has now key st : lru_ok o st -> lru_ok o (snd (has o now key st)).
Proof.
  intros Hok. unfold has.
  pose proof (lru_ok_present now (getFullKey o key) st Hok) as Hp.
  by destruct (present o now (getFullKey o key) st) as [[?|] st1].
Qed.

Lemma lru_ok_getTtl now key st :
  lru_ok o st -> lru_ok o (snd (getTtl o now key st)).
Proof.
  intros Hok. unfold getTtl.
  pose proof (lru_ok_present now (getFullKey o key) st Hok) as Hp.
  by destruct (present o now (getFullKey o key) st) as [[[? ?]|] st1].
Qed.

(** Replacing the value of a node changes neither links nor keys. *)
Lemma lru_rep_set_value w n st l :
  lru_rep o st l -> lru_rep o (with_heap (alter (Node.set_value w) n) st) l.
Proof.
  intros ((Hnd & Hhead & Hends & Hnodes & Hfresh) & Hindex & Hrest).
  unfold lru_rep, lru_links. split_and!; try done.
  - intros m Hm. destruct (Hnodes m Hm) as (ndm & Hmnd & Hmnext & Hmprev).
    cbn [heap with_heap]. rewrite lookup_alter.
    destruct (decide (n = m)) as [->|Hne].
    + exists (Node.set_value w ndm). by rewrite Hmnd.
    + by exists ndm.
  - intros k m. unfold node_key. cbn [heap with_heap data].
    rewrite alter_keeps_key by done. apply Hindex.
  - apply Hrest.
  - apply Hrest.
  - apply Hrest.
Qed.

Lemma lru_ok_ttl now key ttlv st :
  lru_ok o st -> lru_ok o (snd (ttl o now key ttlv st)).
Proof.
  intros [l Hrep]. unfold ttl.
  pose proof (lru_rep_present o now (getFullKey o key) st l Hrep) as Hp.
  rewrite lru_present_spec in *.
  destruct (lookup_node st (getFullKey o key)) as [[n nd]|] eqn:Hl;
    [|by exists l].
  destruct (served o now (Node.value nd)); cbn [snd] in *; [|by eexists].
  pose proof Hrep as (_ & Hindex & _).
  destruct (lookup_node_rep st l _ n nd Hindex Hl) as (Hin & _).
  eexists. apply lru_rep_moveToHead; [|done]. by apply lru_rep_set_value.
Qed.

Lemma lru_ok_keys now pattern st :
  lru_ok o st -> lru_ok o (snd (keys o now pattern st)).
Proof.
  intros Hok. unfold keys.
  assert (Hfold : forall nodes kept st0,
             lru_ok o st0 ->
             lru_ok o (snd (foldl (keys_filter_step o now) (kept, st0) nodes))).
  { induction nodes as [|n nodes IH]; intros kept st0 Hok0; [done|].
    cbn [foldl]. unfold keys_filter_step at 2.
    destruct (heap st0 !! n) as [nd|]; [|by apply IH].
    pose proof (lru_ok_checkExpiry now (Node.key nd) (Node.value nd) st0 Hok0)
      as Hc.
    destruct (checkExpiry o now (Node.key nd) (Node.value nd) st0) as [ok st1].
    destruct ok; by apply IH. }
  specialize (Hfold (map snd (map_to_list (data st))) [] st Hok).
  destruct (foldl _ _ _) as [kept st1].
  destruct pattern as [p|]; [destruct (String.eqb p "")|]; done.
Qed.

Lemma lru_ok_getKeysByTag now tagName st :
  lru_ok o st -> lru_ok o (snd (getKeysByTag o now tagName st)).
Proof.
  intros Hok. unfold getKeysByTag.
  destruct (tags st !! tagName) as [keySet|]; [|done].
  generalize (@nil string). revert st Hok.
  induction (elements keySet) as [|fk fks IH]; intros st Hok kept; [done|].
  cbn [foldl]. unfold tagged_filter_step at 2.
  pose proof (lru_ok_present now fk st Hok) as Hp.
  destruct (present o now fk st) as [[?|] st1]; by apply IH.
Qed.

Lemma lru_ok_deleteByTag now tagName st :
  lru_ok o st -> lru_ok o (snd (deleteByTag o now tagName st)).
Proof.
  intros Hok. unfold deleteByTag.
  pose proof (lru_ok_getKeysByTag now tagName st Hok) as Hk.
  destruct (getKeysByTag o now tagName st) as [ks st1]. cbn [snd] in Hk.
  destruct ks as [|s ks]; [done|].
  pose proof (lru_ok_del (map KStr (s :: ks)) st1 Hk) as Hd.
  destruct (del o (map KStr (s :: ks)) st1) as [c st2]. cbn [snd] in *.
  destruct Hd as [l Hrep]. exists l. by apply lru_rep_tags.
Qed.

Lemma lru_ok_tag key tagNames st :
  lru_ok o st -> lru_ok o (snd (tag o key tagNames st)).
Proof.
  intros [l Hrep]. unfold tag.
  destruct (data st !! getFullKey o key); [|by exists l].
  exists l. by apply lru_rep_tags.
Qed.

Lemma lru_ok_checkAllData now st : lru_ok o st -> lru_ok o (checkAllData o now st).
Proof.
  unfold checkAllData. generalize (map_to_list (data st)). intros entries.
  revert st. induction entries as [|[k n] entries IH]; intros st Hok; [done|].
  cbn [foldl]. apply IH.
  destruct (heap st !! n) as [nd|]; [|done]. by apply lru_ok_checkExpiry.
Qed.

Lemma lru_ok_call now c st :
  lru_ok o st ->
  lru_ok o (manager_call (memory_lru_driver o) (checkAllData o) now c st).
Proof.
  intros Hok.
  destruct c as [key|ks|key value ttlo|entries|ks|key|pattern|key|key ttlv
                |key|key fetched ttlo| |key tagNames|tagName|tagName| ];
    cbn [manager_call].
  - by apply lru_ok_get.
  - by apply lru_ok_mget.
  - unfold CacheManager.set. cbn [Driver.set memory_lru_driver].
    pose proof (lru_ok_set now key value ttlo st Hok).
    by destruct (set o now key value ttlo st).
  - unfold CacheManager.mset. cbn [Driver.mset memory_lru_driver].
    pose proof (lru_ok_mset now entries st Hok).
    by destruct (mset o now entries st).
  - by apply lru_ok_del.
  - by apply lru_ok_has.
  - by apply lru_ok_keys.
  - by apply lru_ok_getTtl.
  - by apply lru_ok_ttl.
  - unfold CacheManager.take. cbn [Driver.get Driver.del memory_lru_driver].
    pose proof (lru_ok_get now key st Hok) as Hg.
    destruct (get o now key st) as [value st1]. cbn [snd] in Hg.
    destruct value; cbn [snd]; try done; by apply lru_ok_del.
  - unfold CacheManager.fetch, CacheManager.get, CacheManager.set.
    cbn [Driver.get Driver.set memory_lru_driver].
    pose proof (lru_ok_get now key st Hok) as Hg.
    destruct (get o now key st) as [value st1]. cbn [snd] in Hg.
    pose proof (lru_ok_set now key fetched ttlo st1 Hg) as Hs.
    destruct (set o now key fetched ttlo st1) as [r st2].
    by destruct value.
  - apply lru_ok_flush.
  - by apply lru_ok_tag.
  - by apply lru_ok_getKeysByTag.
  - by apply lru_ok_deleteByTag.
  - by apply lru_ok_checkAllData.
Qed.

Lemma lru_ok_after calls : lru_ok o (lru_after o calls).
Proof.
  unfold lru_after. induction calls as [|[now c] calls IH] using rev_ind.
  - apply lru_ok_init.
  - rewrite foldl_snoc. by apply lru_ok_call.
Qed.

End LRUInvariant.

(** ** The recency order of the LRU driver *)

Section LRURecency.
Import MemoryLRUDriver.
Context (o : MemoryDriverOptions).
Implicit Types (st : State) (l : list nat) (n m : nat) (nd : LRUNode)
  (k : string) (key : Key).

Lemma node_key_at st l n :
  lru_rep o st l -> n ∈ l -> node_key st n = Some (key_at st n).
Proof.
  intros ((_ & _ & _ & Hnodes & _) & _) Hin.
  destruct (Hnodes n Hin) as (nd & Hn & _).
  unfold key_at, node_key. by rewrite Hn.
Qed.

Lemma key_at_inj st l n m :
  lru_rep o st l -> n ∈ l -> m ∈ l -> key_at st n = key_at st m -> n = m.
Proof.
  intros Hrep Hn Hm Heq. pose proof Hrep as (_ & Hindex & _).
  apply (node_key_inj st l n m (key_at st n)); try done.
  - by apply (node_key_at st l).
  - rewrite Heq. by apply (node_key_at st l).
Qed.

(** Reading the list from [head] gives the keys of the represented
    list. *)
Lemma recency_rep st l : lru_rep o st l -> recency st = key_at st <$> l.
Proof.
  intros Hrep.
  pose proof Hrep as ((Hnd & Hhead & _ & Hnodes & _) & _ & Hsize & _).
  unfold recency. rewrite Hsize, Hhead.
  rewrite (walk_next (heap st) l Hnd) with (pre := []) by
    (try done; intros n Hn; destruct (Hnodes n Hn) as (nd & -> & <- & _); done).
  assert (Hall : forall n, n ∈ l -> node_key st n = Some (key_at st n))
    by (intros n Hn; by apply (node_key_at st l)).
  clear -Hall. induction l as [|n l IH]; [done|].
  cbn [omap list_omap fmap list_fmap].
  rewrite Hall by (apply elem_of_cons; by left).
  f_equal. apply IH. intros m Hm. apply Hall, elem_of_cons. by right.
Qed.

Lemma recency_facts st l :
  lru_rep o st l ->
  NoDup (recency st)
  /\ (forall k, k ∈ recency st <-> is_Some (data st !! k))
  /\ length (recency st) = size (data st)
  /\ head st ≫= node_key st = hd_error (recency st)
  /\ tail st ≫= node_key st = last (recency st).
Proof.
  intros Hrep. rewrite (recency_rep st l Hrep).
  pose proof Hrep as ((Hnd & Hhead & Hends & Hnodes & _) & Hindex & Hsize & _).
  unfold lru_index in Hindex. split_and!.
  - apply NoDup_fmap_2_strong; [|done]. intros x y. by apply key_at_inj.
  - intros k. rewrite list_elem_of_fmap. split.
    + intros (n & -> & Hn). exists n. apply Hindex. split; [done|].
      by apply (node_key_at st l).
    + intros [n Hk]. apply Hindex in Hk as [Hn Hkey]. exists n.
      split; [|done]. rewrite (node_key_at st l n Hrep Hn) in Hkey. congruence.
  - by rewrite length_fmap.
  - rewrite Hhead. destruct l as [|n l]; [done|]. cbn.
    apply (node_key_at st (n :: l)); [done|]. apply elem_of_cons. by left.
  - rewrite (ends_last l (tail st) Hnd Hends), fmap_last.
    destruct (last l) as [n|] eqn:Hlast; [|done]. cbn.
    apply (node_key_at st l); [done|]. by apply last_Some_elem_of.
Qed.

(** Reading the list from [tail] gives the same keys, reversed. *)
Lemma recency_back_rep st l :
  lru_rep o st l -> recency_back st = reverse (recency st).
Proof.
  intros Hrep. rewrite (recency_rep st l Hrep).
  pose proof Hrep as ((Hnd & _ & Hends & Hnodes & _) & _ & Hsize & _).
  unfold recency_back. rewrite Hsize, (ends_last l (tail st) Hnd Hends).
  rewrite (walk_back_prev (heap st) l Hnd) with (suf := []);
    [| |by rewrite app_nil_r].
  - assert (Hall : forall n, n ∈ reverse l ->
               node_key st n = Some (key_at st n)).
    { intros n Hn. apply (node_key_at st l); [done|].
      by apply (elem_of_reverse n l). }
    rewrite <-fmap_reverse. revert Hall. generalize (reverse l). clear.
    intros l' Hall. induction l' as [|n l' IH]; [done|].
    cbn [omap list_omap fmap list_fmap].
    rewrite Hall by (apply elem_of_cons; by left).
    f_equal. apply IH. intros m Hm. apply Hall, elem_of_cons. by right.
  - intros n Hn. by destruct (Hnodes n Hn) as (nd & -> & _ & ?).
Qed.

(** The keys of a list that lost a node. *)
Lemma recency_without st l n :
  lru_rep o st l -> n ∈ l ->
  key_at st <$> without n l = without (key_at st n) (recency st).
Proof.
  intros Hrep Hn. rewrite (recency_rep st l Hrep).
  apply fmap_without. intros m Hm Heq. by apply (key_at_inj st l).
Qed.

Lemma fresh_removeNode n st : fresh (removeNode n st) = fresh st.
Proof.
  destruct (heap st !! n) as [nd|] eqn:Hn.
  - by destruct (removeNode_parts n nd st Hn) as (_ & _ & _ & ->).
  - unfold removeNode. by rewrite Hn.
Qed.

Lemma node_key_moveToHead n st m :
  node_key (moveToHead n st) m = node_key st m.
Proof.
  unfold moveToHead. by rewrite node_key_addToHead, node_key_removeNode.
Qed.

(** [get] changes no key of a node. *)
Lemma key_at_get now key st m :
  key_at (snd (get o now key st)) m = key_at st m.
Proof.
  unfold key_at. f_equal. rewrite lru_get_spec.
  destruct (lookup_node st (getFullKey o key)) as [[n nd]|]; [|done].
  destruct (served o now (Node.value nd)); cbn [snd].
  - rewrite moveToHead_with_stats. apply node_key_moveToHead.
  - apply node_key_removeNode.
Qed.

(** The recency order after [get]. *)
Lemma lru_get_recency now key st l :
  lru_rep o st l ->
  recency (snd (get o now key st))
  = if bool_decide (is_Some (lru_entry o now st (getFullKey o key)))
    then getFullKey o key :: without (getFullKey o key) (recency st)
    else without (getFullKey o key) (recency st).
Proof.
  intros Hrep. set (F := getFullKey o key).
  pose proof (lru_rep_get o now key st l Hrep) as Hrep'.
  rewrite (recency_rep _ _ Hrep'). fold F in Hrep' |- *.
  assert (Hkeys : forall l', key_at (snd (get o now key st)) <$> l'
                             = key_at st <$> l').
  { intros l'. apply list_fmap_ext. intros _ m _. apply key_at_get. }
  rewrite Hkeys. unfold lru_entry, lru_value.
  pose proof Hrep as (Hlinks & Hindex & _).
  destruct (lookup_node st F) as [[n nd]|] eqn:Hl.
  - destruct (lookup_node_rep st l F n nd Hindex Hl) as (Hin & Hkey & _).
    assert (HkF : key_at st n = F) by (unfold key_at; by rewrite Hkey).
    destruct (served o now (Node.value nd)).
    + rewrite bool_decide_eq_true_2 by done.
      cbn [fmap list_fmap]. by rewrite recency_without, HkF.
    + rewrite bool_decide_eq_false_2 by (by intros [? ?]).
      by rewrite recency_without, HkF.
  - rewrite bool_decide_eq_false_2 by (by intros [? ?]).
    rewrite <-(recency_rep st l Hrep). symmetry. apply without_notin.
    destruct (recency_facts st l Hrep) as (_ & Hmem & _).
    rewrite Hmem, (lookup_node_None_rep st l F Hlinks Hindex Hl).
    by intros [? ?].
Qed.

End LRURecency.

(** ** What set leaves in the LRU driver *)

Section LRUSet.
Import MemoryLRUDriver.
Context (o : MemoryDriverOptions).
Implicit Types (st : State) (l : list nat) (n m : nat) (nd : LRUNode)
  (k : string) (key : Key).

(** What the eviction leaves, field by field. *)
Lemma evictLRU_parts st :
  fresh (evictLRU st) = fresh st
  /\ (forall m, node_key (evictLRU st) m = node_key st m)
  /\ (forall m, Node.value <$> heap (evictLRU st) !! m
                = Node.value <$> heap st !! m)
  /\ data (evictLRU st)
     = match tail st with
       | Some t =>
           match heap st !! t with
           | Some nd => delete (Node.key nd) (data st)
           | None => data st
           end
       | None => data st
       end.
Proof.
  unfold evictLRU, removeTail.
  destruct (tail st) as [t|]; [|done].
  destruct (heap st !! t) as [nd|] eqn:Hn; [|done].
  cbn [fresh data heap with_stats with_data]. split_and!.
  - apply fresh_removeNode.
  - intros m. apply node_key_removeNode.
  - intros m. apply removeNode_values.
  - by destruct (removeNode_frame t st) as (-> & _).
Qed.

(** The state in which [set] creates its node: the old node of the key
    unlinked, or the least recently used entry evicted. *)
Lemma lru_set_parts now key value ttl st :
  let F := getFullKey o key in
  let st' := snd (set o now key value ttl st) in
  let before :=
    match lookup_node st F with
    | Some _ => data st
    | None =>
        if (maxKeys o >? 0) && (Stats.keys (stats st) >=? maxKeys o)
        then data (evictLRU st) else data st
    end in
  data st' = <[F := fresh st]> before
  /\ (forall m,
        node_key st' m
        = if decide (m = fresh st) then Some F else node_key st m)
  /\ (forall m,
        Node.value <$> heap st' !! m
        = if decide (m = fresh st) then Some (wrap o now value ttl)
          else Node.value <$> heap st !! m).
Proof.
  intros F st'. subst st'. rewrite lru_set_spec. cbv zeta. fold F.
  set (st1 := match lookup_node st F with
              | Some (n, nd) => removeNode n (with_stats _ st)
              | None => _
              end).
  set (nd0 := {| Node.key := F; Node.value := wrap o now value ttl;
                 Node.prev := None; Node.next := None |}).
  assert (Hst1 : fresh st1 = fresh st
                 /\ (forall m, node_key st1 m = node_key st m)
                 /\ (forall m, Node.value <$> heap st1 !! m
                               = Node.value <$> heap st !! m)
                 /\ data st1
                    = match lookup_node st F with
                      | Some _ => data st
                      | None =>
                          if (maxKeys o >? 0)
                             && (Stats.keys (stats st) >=? maxKeys o)
                          then data (evictLRU st) else data st
                      end).
  { subst st1. destruct (lookup_node st F) as [[n nd]|].
    - rewrite removeNode_with_stats. cbn [fresh data heap with_stats].
      split_and!.
      + apply fresh_removeNode.
      + intros m. apply node_key_removeNode.
      + intros m. apply removeNode_values.
      + by destruct (removeNode_frame n st) as (-> & _).
    - destruct (_ && _); [|done].
      by destruct (evictLRU_parts st) as (? & ? & ? & _). }
  destruct Hst1 as (Hfresh & Hkeys & Hvalues & Hdata).
  destruct (addToHead_frame (fresh st1) (snd (alloc nd0 st1))) as (Hd & _).
  assert (Hgoal :
    data (with_data <[F := fresh st1]> (addToHead (fresh st1) (snd (alloc nd0 st1))))
    = <[F := fresh st]> (data st1)
    /\ (forall m,
          node_key (addToHead (fresh st1) (snd (alloc nd0 st1))) m
          = if decide (m = fresh st) then Some F else node_key st m)
    /\ (forall m,
          Node.value <$> heap (addToHead (fresh st1) (snd (alloc nd0 st1))) !! m
          = if decide (m = fresh st) then Some (wrap o now value ttl)
            else Node.value <$> heap st !! m)).
  { split_and!.
    - cbn [data with_data]. rewrite Hd. cbn [alloc snd data]. by rewrite Hfresh.
    - intros m. rewrite node_key_addToHead. unfold node_key.
      cbn [alloc snd heap]. rewrite lookup_insert, Hfresh.
      destruct (decide (fresh st = m)) as [<-|Hne].
      + by rewrite decide_True.
      + rewrite decide_False by congruence. apply Hkeys.
    - intros m. rewrite addToHead_values.
      cbn [alloc snd heap]. rewrite lookup_insert, Hfresh.
      destruct (decide (fresh st = m)) as [<-|Hne].
      + by rewrite decide_True.
      + rewrite decide_False by congruence. apply Hvalues. }
  destruct Hgoal as (Hdata' & Hkeys' & Hvalues'). rewrite Hdata in Hdata'.
  by destruct (lookup_node st F) as [[n nd]|].
Qed.

(** The recency order after [set]. *)
Lemma lru_set_recency now key value ttl st l :
  lru_rep o st l ->
  recency (snd (set o now key value ttl st))
  = getFullKey o key
    :: (if bool_decide (is_Some (data st !! getFullKey o key))
        then without (getFullKey o key) (recency st)
        else if lru_full o st then removelast (recency st)
             else recency st).
Proof.
  intros Hrep. set (F := getFullKey o key).
  pose proof (lru_rep_set o now key value ttl st l Hrep) as Hrep'.
  rewrite (recency_rep _ _ _ Hrep'). fold F in Hrep' |- *.
  destruct (lru_set_parts now key value ttl st) as (_ & Hkeys & _).
  cbv zeta in Hkeys. fold F in Hkeys.
  pose proof Hrep as (Hlinks & Hindex & Hsize & Hcount & _).
  pose proof Hlinks as (Hnd & _ & Hends & _ & Hfresh).
  assert (Hold : forall l', (forall m, m ∈ l' -> m ∈ l) ->
             key_at (snd (set o now key value ttl st)) <$> l'
             = key_at st <$> l').
  { intros l' Hsub. apply list_fmap_ext. intros i m Hm.
    unfold key_at. rewrite Hkeys, decide_False; [done|].
    intros ->. apply list_elem_of_lookup_2, Hsub, Hfresh in Hm. lia. }
  cbn [fmap list_fmap]. f_equal.
  { unfold key_at. by rewrite Hkeys, decide_True. }
  destruct (recency_facts o st l Hrep) as (Hnodup & _ & _ & _ & Hlast).
  destruct (lookup_node st F) as [[n nd]|] eqn:Hl.
  - destruct (lookup_node_rep st l F n nd Hindex Hl) as (Hin & Hkey & _ & Hk).
    rewrite bool_decide_eq_true_2 by (by rewrite Hk).
    rewrite Hold by (by intros m [? _]%elem_of_without).
    rewrite (recency_without o st l n Hrep Hin).
    unfold key_at. by rewrite Hkey.
  - rewrite (lookup_node_None_rep st l F Hlinks Hindex Hl).
    rewrite bool_decide_eq_false_2 by (by intros [? ?]).
    unfold lru_full. rewrite Hsize, <-Hcount.
    destruct ((maxKeys o >? 0) && (Stats.keys (stats st) >=? maxKeys o)).
    + destruct (tail st) as [t|] eqn:Ht; cbn [ends] in Hends.
      * destruct Hends as [Hin _].
        rewrite Hold by (by intros m [? _]%elem_of_without).
        rewrite (recency_without o st l t Hrep Hin).
        apply without_last; [done|]. rewrite <-Hlast. cbn.
        by apply (node_key_at o st l).
      * subst l. by rewrite (recency_rep o st [] Hrep).
    + rewrite Hold by done. by rewrite (recency_rep o st l Hrep).
Qed.

(** What [get] answers, from the entry the driver serves. *)
Lemma lru_get_answer now key st :
  fst (get o now key st) = lru_answer (lru_entry o now st (getFullKey o key)).
Proof.
  rewrite lru_get_spec. unfold lru_entry, lru_value.
  destruct (lookup_node st (getFullKey o key)) as [[n nd]|]; [|done].
  by destruct (served o now (Node.value nd)).
Qed.

(** The value stored under the key of a [set], in every state. *)
Lemma lru_value_set_same now key value ttl st :
  lru_value (snd (set o now key value ttl st)) (getFullKey o key)
  = Some (wrap o now value ttl).
Proof.
  destruct (lru_set_parts now key value ttl st) as (Hdata & _ & Hvalues).
  cbv zeta in *. rewrite lru_value_alt, Hdata, lookup_insert_eq, Hvalues.
  by rewrite decide_True.
Qed.

(** The values stored under the other keys: all as before, but the one
    of the entry [set] evicts. *)
Lemma lru_value_set_other now key value ttl st l other :
  lru_rep o st l -> other <> getFullKey o key ->
  lru_value (snd (set o now key value ttl st)) other
  = if lru_evicts o st (getFullKey o key) other then None
    else lru_value st other.
Proof.
  intros Hrep Hne. set (F := getFullKey o key) in *.
  destruct (lru_set_parts now key value ttl st) as (Hdata & _ & Hvalues).
  cbv zeta in *. fold F in Hdata.
  pose proof Hrep as (Hlinks & Hindex & Hsize & Hcount & _).
  pose proof Hlinks as (Hnd & _ & Hends & Hnodes & Hfresh).
  destruct (recency_facts o st l Hrep) as (_ & _ & _ & _ & Hlast).
  assert (Hsame : forall n, data st !! other = Some n ->
            Node.value <$> heap (snd (set o now key value ttl st)) !! n
            = Node.value <$> heap st !! n).
  { intros n Hn. rewrite Hvalues, decide_False; [done|].
    intros ->. apply Hindex in Hn as [Hin _]. apply Hfresh in Hin. lia. }
  rewrite !lru_value_alt, Hdata, lookup_insert_ne by done.
  unfold lru_evicts, lru_full. rewrite Hsize, <-Hcount.
  destruct (lookup_node st F) as [[n nd]|] eqn:Hl.
  - destruct (lookup_node_rep st l F n nd Hindex Hl) as (_ & _ & _ & Hk).
    rewrite (bool_decide_eq_false_2 (data st !! F = None)) by congruence.
    cbn [andb]. destruct (data st !! other) as [m|] eqn:Hm; [|done].
    by apply Hsame.
  - rewrite (lookup_node_None_rep st l F Hlinks Hindex Hl).
    rewrite bool_decide_eq_true_2 by done. cbn [andb].
    destruct ((maxKeys o >? 0) && (Stats.keys (stats st) >=? maxKeys o));
      cbn [andb].
    + destruct (evictLRU_parts st) as (_ & _ & _ & ->).
      destruct (tail st) as [t|] eqn:Ht; cbn [ends] in Hends.
      * destruct Hends as [Hin _].
        destruct (Hnodes t Hin) as (ndt & Hnt & _). rewrite Hnt.
        assert (Hkt : last (recency st) = Some (Node.key ndt)).
        { rewrite <-Hlast. cbn. unfold node_key. by rewrite Hnt. }
        rewrite Hkt, lookup_delete.
        destruct (decide (Node.key ndt = other)) as [->|Hno].
        -- by rewrite bool_decide_eq_true_2.
        -- rewrite bool_decide_eq_false_2 by congruence.
           destruct (data st !! other) as [m|] eqn:Hm; [|done].
           by apply Hsame.
      * subst l. rewrite (recency_rep o st [] Hrep).
        rewrite bool_decide_eq_false_2 by done.
        destruct (data st !! other) as [m|] eqn:Hm; [|done].
        by apply Hsame.
    + destruct (data st !! other) as [m|] eqn:Hm; [|done].
      by apply Hsame.
Qed.

End LRUSet.

(** The doubly linked list of the [MemoryLRUDriver] after any sequence
    of calls made through the [CacheManager] (get, mget, set, mset, del,
    has, keys, getTtl, ttl, take, fetch, flush, tag, getKeysByTag,
    deleteByTag and the periodic sweep), for every option setting:
    read from [head] along the [next] fields it holds exactly the
    stored keys, each once; read from [tail] along the [prev] fields it
    holds the same keys in the reverse order; its first key is the key
    of the node [head] names and its last key the key of the node
    [tail] names; and the key counter is the number of stored
    entries. *)
Theorem lru_list_holds_the_stored_keys
    (o : MemoryDriverOptions) (calls : list (Z * ManagerCall)) :
  let st := lru_after o calls in
  NoDup (recency st)
  /\ (forall k, k ∈ recency st <-> is_Some (MemoryLRUDriver.data st !! k))
  /\ recency_back st = reverse (recency st)
  /\ MemoryLRUDriver.head st ≫= node_key st = head (recency st)
  /\ MemoryLRUDriver.tail st ≫= node_key st = last (recency st)
  /\ Stats.keys (MemoryLRUDriver.stats st)
     = Z.of_nat (size (MemoryLRUDriver.data st)).
Proof.
  cbv zeta. destruct (lru_ok_after o calls) as [l Hrep].
  destruct (recency_facts o _ l Hrep) as (Hnodup & Hmem & _ & Hhead & Htail).
  pose proof (recency_back_rep o _ l Hrep) as Hback.
  destruct Hrep as (_ & _ & Hsize & Hkeys & _).
  split_and!; try done. by rewrite Hkeys, Hsize.
Qed.

(** A [MemoryLRUDriver] with a positive [maxKeys] never stores more
    than [maxKeys] entries, whatever sequence of calls is made through
    the [CacheManager]. *)
Theorem lru_store_within_maxKeys
    (o : MemoryDriverOptions) (calls : list (Z * ManagerCall)) :
  0 < maxKeys o ->
  Z.of_nat (size (MemoryLRUDriver.data (lru_after o calls))) <= maxKeys o.
Proof.
  intros Hmax. destruct (lru_ok_after o calls) as [l Hrep].
  destruct Hrep as (_ & _ & Hsize & _ & Hbound).
  rewrite Hsize. by apply Hbound.
Qed.

(** Three keys set in a driver bounded to two. *)
Lemma lru_store_within_maxKeys_witness :
  Z.of_nat (size (MemoryLRUDriver.data
                    (lru_after (driver_options 2 true)
                       [(0, MSet (KStr "a") (JNumber 1) None);
                        (1, MSet (KStr "b") (JNumber 2) None);
                        (2, MSet (KStr "c") (JNumber 3) None)]))) <= 2.
Proof.
  apply (lru_store_within_maxKeys (driver_options 2 true)
           [(0, MSet (KStr "a") (JNumber 1) None);
            (1, MSet (KStr "b") (JNumber 2) None);
            (2, MSet (KStr "c") (JNumber 3) None)]).
  simpl. lia.
Defined.

(** [get] of the [MemoryLRUDriver], in any state reached by calls
    through the [CacheManager]: a served key becomes the most recently
    used, the order of the other keys being kept; a key whose entry is
    found expired leaves the list; a key that is not stored changes
    nothing. *)
Theorem lru_get_moves_key_to_front
    (o : MemoryDriverOptions) (calls : list (Z * ManagerCall)) (now : Z)
    (key : Key) :
  let st := lru_after o calls in
  let fullKey := getFullKey o key in
  recency (snd (MemoryLRUDriver.get o now key st))
  = if bool_decide (is_Some (lru_entry o now st fullKey))
    then fullKey :: without fullKey (recency st)
    else without fullKey (recency st).
Proof.
  cbv zeta. destruct (lru_ok_after o calls) as [l Hrep].
  by apply (lru_get_recency o now key _ l).
Qed.

(** [set] of the [MemoryLRUDriver], in any state reached by calls
    through the [CacheManager]: the key becomes the most recently used;
    if it was stored the other keys keep their order; if it is new and
    the driver is full ([maxKeys] positive and reached) the least
    recently used key, the last of the list, is the one that is
    dropped; otherwise no key is dropped. *)
Theorem lru_set_evicts_least_recently_used
    (o : MemoryDriverOptions) (calls : list (Z * ManagerCall)) (now : Z)
    (key : Key) (value : JsValue) (ttl : option Z) :
  let st := lru_after o calls in
  let fullKey := getFullKey o key in
  recency (snd (MemoryLRUDriver.set o now key value ttl st))
  = fullKey
    :: (if bool_decide (is_Some (MemoryLRUDriver.data st !! fullKey))
        then without fullKey (recency st)
        else if lru_full o st then removelast (recency st)
             else recency st).
Proof.
  cbv zeta. destruct (lru_ok_after o calls) as [l Hrep].
  by apply (lru_set_recency o now key value ttl _ l).
Qed.

(** A [set] of the [MemoryLRUDriver], in any state reached by calls
    through the [CacheManager], then a [get] at a later clock reading:
    the key of the [set] gives its value back while the entry is served
    (with [null] for a stored [undefined]) and [undefined] afterwards;
    a key with another string form gives what it gave before the
    [set], unless it was the least recently used key of a full driver
    and the [set] brought a new key: then it is gone. *)
Theorem lru_set_then_get
    (o : MemoryDriverOptions) (calls : list (Z * ManagerCall)) (now now' : Z)
    (key key' : Key) (value : JsValue) (ttl : option Z) :
  let st := lru_after o calls in
  let st' := snd (MemoryLRUDriver.set o now key value ttl st) in
  let w := wrap o now value ttl in
  fst (MemoryLRUDriver.get o now' key st')
  = (if served o now' w then unwrap w else JUndefined)
  /\ (key_toString key' <> key_toString key ->
      fst (MemoryLRUDriver.get o now' key' st')
      = if lru_evicts o st (getFullKey o key) (getFullKey o key')
        then JUndefined
        else fst (MemoryLRUDriver.get o now' key' st)).
Proof.
  cbv zeta. destruct (lru_ok_after o calls) as [l Hrep]. split.
  - rewrite lru_get_answer. unfold lru_entry.
    rewrite lru_value_set_same.
    by destruct (served o now' (wrap o now value ttl)).
  - intros Hne.
    assert (Hfull : getFullKey o key' <> getFullKey o key).
    { intros Heq. by apply Hne, (stripPrefix_getFullKey_inj o). }
    rewrite !lru_get_answer. unfold lru_entry.
    rewrite (lru_value_set_other o now key value ttl _ l) by done.
    by destruct (lru_evicts o _ (getFullKey o key) (getFullKey o key')).
Qed.

(** In a driver bounded to two keys that holds [a] and [b], [a] the
    older: a [set] of [c] evicts [a] and keeps [b]. *)
Lemma lru_set_then_get_witness :
  let o := driver_options 2 true in
  let st := lru_after o [(0, MSet (KStr "a") (JNumber 1) None);
                         (1, MSet (KStr "b") (JNumber 2) None)] in
  let st' := snd (MemoryLRUDriver.set o 2 (KStr "c") (JNumber 3) None st) in
  fst (MemoryLRUDriver.get o 3 (KStr "a") st') = JUndefined
  /\ fst (MemoryLRUDriver.get o 3 (KStr "b") st') = JNumber 2.
Proof.
  cbv zeta. split.
  - refine (proj2 (lru_set_then_get (driver_options 2 true)
                     [(0, MSet (KStr "a") (JNumber 1) None);
                      (1, MSet (KStr "b") (JNumber 2) None)]
                     2 3 (KStr "c") (KStr "a") (JNumber 3) None) _).
    discriminate.
  - refine (proj2 (lru_set_then_get (driver_options 2 true)
                     [(0, MSet (KStr "a") (JNumber 1) None);
                      (1, MSet (KStr "b") (JNumber 2) None)]
                     2 3 (KStr "c") (KStr "b") (JNumber 3) None) _).
    discriminate.
Defined.

(** ** flushAll of the Cache engine *)

(** [flushAll] of the [Cache] engine empties the plain store and
    zeroes the five counters, and it does not touch the map of the fast
    path.  So in a cache on the plain store [get] misses every key
    afterwards and [has] is false, except that [has] is true for a name
    inherited from [Object.prototype] in a cache that checks no expiry;
    while under [maxPerformance] [get] and [has] answer after
    [flushAll] what they answered before it. *)
Theorem cache_flushAll_clears_plain_store_only
    (o : Cache.Options) (now now' : Z) (key : Key) (st : Cache.State) :
  let st' := Cache.flushAll o now st in
  Cache.data st' = ∅
  /\ Cache.stats st' = Stats.zero
  /\ Cache.dataMap st' = Cache.dataMap st
  /\ fst (Cache.get o now' key st')
     = (if Cache.dataMap st is Some _ then fst (Cache.get o now' key st)
        else JUndefined)
  /\ Cache.has o now' key st'
     = (if Cache.dataMap st is Some _ then Cache.has o now' key st
        else inherited (key_toString key) && negb (Cache._checkTTL o)).
Proof.
  cbv zeta.
  assert (Hflush : Cache.flushAll o now st
                   = {| Cache.data := ∅; Cache.dataMap := Cache.dataMap st;
                        Cache.stats := Stats.zero |}).
  { unfold Cache.flushAll, Cache._checkData. cbn [Cache.data].
    by rewrite map_to_list_empty. }
  rewrite Hflush. split_and!; try done.
  - destruct (cache_reads o now' key
                {| Cache.data := ∅; Cache.dataMap := Cache.dataMap st;
                   Cache.stats := Stats.zero |}) as (-> & _).
    destruct (cache_reads o now' key st) as (-> & _).
    unfold Cache.fast_lookup. cbn [Cache.dataMap Cache.data].
    destruct (Cache.dataMap st); [done|]. unfold read_slot.
    rewrite lookup_empty. by destruct (inherited (key_toString key)).
  - destruct (cache_reads o now' key
                {| Cache.data := ∅; Cache.dataMap := Cache.dataMap st;
                   Cache.stats := Stats.zero |}) as (_ & ->).
    destruct (cache_reads o now' key st) as (_ & ->).
    unfold Cache.fast_lookup. cbn [Cache.dataMap Cache.data].
    destruct (Cache.dataMap st); [done|]. unfold read_slot.
    rewrite lookup_empty. by destruct (inherited (key_toString key)).
Qed.

(** ** CacheLock over the in-memory drivers *)

Section LockFacts.
Context (o : MemoryDriverOptions).

(** [has] of the [MemoryDriver] right after a [set] of the key. *)
Lemma md_has_after_set now now' key value ttl st r st1 :
  MemoryDriver.set o now key value ttl st = Returned r st1 ->
  fst (MemoryDriver.has o now' key st1) = served o now' (wrap o now value ttl).
Proof.
  intros (_ & Hdata & _)%md_set_returned.
  destruct (md_reads o now' key st1) as (_ & -> & _).
  unfold md_found. by rewrite Hdata, read_slot_insert.
Qed.

(** [has] of the [MemoryDriver] right after a [del] of the key, when
    its full key is no inherited name. *)
Lemma md_has_after_del now key st :
  inherited (getFullKey o key) = false ->
  fst (MemoryDriver.has o now key (snd (MemoryDriver.del o [key] st))) = false.
Proof.
  intros Hplain.
  destruct (md_reads o now key (snd (MemoryDriver.del o [key] st)))
    as (_ & -> & _).
  destruct (md_del_fold o [key] 0 st) as (Hdata & _). cbv zeta in Hdata.
  unfold md_found, MemoryDriver.del. rewrite read_slot_plain, Hdata by done.
  by rewrite (bool_decide_eq_true_2 (_ ∈ _)) by (apply elem_of_cons; by left).
Qed.

(** The key of a lock has a colon in it: its full key is no inherited
    name. *)
Lemma lockKey_plain resource :
  inherited (getFullKey o (CacheLock.lockKey resource)) = false.
Proof.
  apply inherited_getFullKey_plain.
  apply (inherited_prefixed "lock" resource).
Qed.

(** [has] of the LRU driver, from the entry it serves. *)
Lemma lru_has_answer now key st :
  fst (MemoryLRUDriver.has o now key st)
  = bool_decide (is_Some (lru_entry o now st (getFullKey o key))).
Proof.
  unfold MemoryLRUDriver.has. rewrite lru_present_spec.
  unfold lru_entry, lru_value.
  destruct (MemoryLRUDriver.lookup_node st (getFullKey o key)) as [[n nd]|];
    [|done].
  by destruct (served o now (MemoryLRUDriver.Node.value nd)).
Qed.

(** No node is found for a key right after its [del]. *)
Lemma lru_lookup_after_del key st :
  MemoryLRUDriver.lookup_node (snd (MemoryLRUDriver.del o [key] st))
    (getFullKey o key) = None.
Proof.
  unfold MemoryLRUDriver.del. cbn [foldl]. unfold MemoryLRUDriver.del_step.
  destruct (MemoryLRUDriver.lookup_node st (getFullKey o key))
    as [[n nd]|] eqn:Hl; [|done].
  unfold MemoryLRUDriver.lookup_node. simpl. by rewrite lookup_delete_eq.
Qed.

End LockFacts.

(** A lock of [CacheLock], over either in-memory driver and as long as
    the calls do not interleave: once [acquire] has returned true, a
    further [acquire] of the same resource is refused exactly while the
    entry of the lock is served, that is until the time to live it was
    given has passed, and for ever when that is 0 or [deleteOnExpire] is
    off; after [release] it is not refused. *)
Theorem lock_is_held_until_released_or_expired
    (o : MemoryDriverOptions) (lockTimeout now now' : Z) (resource : string)
    (ttl ttl' : option Z) (st st1 : MemoryDriver.State)
    (lst lst1 : MemoryLRUDriver.State) :
  let w := wrap o now (JNumber now) (Some (default lockTimeout ttl)) in
  (CacheLock.acquire (memory_driver o) lockTimeout now resource ttl st
   = Returned true st1 ->
   refused (CacheLock.acquire (memory_driver o) lockTimeout now' resource ttl' st1)
   = served o now' w
   /\ refused (CacheLock.acquire (memory_driver o) lockTimeout now' resource ttl'
                 (CacheLock.release (memory_driver o) resource st1))
      = false)
  /\ (CacheLock.acquire (memory_lru_driver o) lockTimeout now resource ttl lst
      = Returned true lst1 ->
      refused (CacheLock.acquire (memory_lru_driver o) lockTimeout now' resource
                 ttl' lst1)
      = served o now' w
      /\ refused (CacheLock.acquire (memory_lru_driver o) lockTimeout now'
                    resource ttl'
                    (CacheLock.release (memory_lru_driver o) resource lst1))
         = false).
Proof.
  cbv zeta. split.
  - intros Hacq. unfold CacheLock.acquire, CacheLock.release, CacheManager.has,
      CacheManager.set, CacheManager.del in *.
    cbn [Driver.has Driver.set Driver.del memory_driver] in *.
    set (key := CacheLock.lockKey resource) in *.
    destruct (MemoryDriver.has o now key st) as [[] st0]; [done|].
    destruct (MemoryDriver.set o now key (JNumber now)
                (Some (default lockTimeout ttl)) st0) as [r st2|e st2] eqn:Hset;
      [|done].
    injection Hacq as <-. split.
    + pose proof (md_has_after_set o now now' key _ _ st0 r st2 Hset) as Hhas.
      destruct (MemoryDriver.has o now' key st2) as [h st3]. cbn [fst] in Hhas.
      rewrite <-Hhas. destruct h; [done|].
      by destruct (MemoryDriver.set o now' key _ _ st3) as [[]|].
    + pose proof (md_has_after_del o now' key st2 (lockKey_plain o resource))
        as Hhas.
      destruct (MemoryDriver.has o now' key _) as [h st3]. cbn [fst] in Hhas.
      subst h. by destruct (MemoryDriver.set o now' key _ _ st3) as [[]|].
  - intros Hacq. unfold CacheLock.acquire, CacheLock.release, CacheManager.has,
      CacheManager.set, CacheManager.del in *.
    cbn [Driver.has Driver.set Driver.del memory_lru_driver] in *.
    set (key := CacheLock.lockKey resource) in *.
    destruct (MemoryLRUDriver.has o now key lst) as [[] st0]; [done|].
    destruct (MemoryLRUDriver.set o now key (JNumber now)
                (Some (default lockTimeout ttl)) st0) as [r st2] eqn:Hset.
    injection Hacq as <-.
    assert (Hst2 : st2 = snd (MemoryLRUDriver.set o now key (JNumber now)
                                (Some (default lockTimeout ttl)) st0))
      by (by rewrite Hset).
    split.
    + pose proof (lru_has_answer o now' key st2) as Hhas.
      unfold lru_entry in Hhas. rewrite Hst2, lru_value_set_same in Hhas.
      rewrite <-Hst2 in Hhas.
      destruct (MemoryLRUDriver.has o now' key st2) as [h st3].
      cbn [fst] in Hhas. subst h.
      destruct (served o now' _); [done|].
      rewrite bool_decide_eq_false_2 by (by intros [? ?]).
      by destruct (MemoryLRUDriver.set o now' key _ _ st3) as [[] ?].
    + pose proof (lru_has_answer o now' key
                    (snd (MemoryLRUDriver.del o [key] st2))) as Hhas.
      unfold lru_entry, lru_value in Hhas.
      rewrite lru_lookup_after_del in Hhas.
      rewrite bool_decide_eq_false_2 in Hhas by (by intros [? ?]).
      destruct (MemoryLRUDriver.has o now' key _) as [h st3].
      cbn [fst] in Hhas. subst h.
      by destruct (MemoryLRUDriver.set o now' key _ _ st3) as [[] ?].
Qed.

(** A lock taken for thirty seconds on the empty driver: refused ten
    seconds later, granted again after release. *)
Lemma lock_is_held_until_released_or_expired_witness :
  let o := driver_options (-1) true in
  let st1 := outcome_state
               (CacheLock.acquire (memory_driver o) 30 0 "r" None
                  MemoryDriver.init) in
  refused (CacheLock.acquire (memory_driver o) 30 10000 "r" None st1) = true
  /\ refused (CacheLock.acquire (memory_driver o) 30 10000 "r" None
                (CacheLock.release (memory_driver o) "r" st1)) = false.
Proof.
  exact (proj1 (lock_is_held_until_released_or_expired
                  (driver_options (-1) true) 30 0 10000 "r" None None
                  MemoryDriver.init _ MemoryLRUDriver.init MemoryLRUDriver.init)
           eq_refl).
Defined.

(** ** Invalidation by pattern over a MemoryDriver *)

Section Invalidation.
Context (o : MemoryDriverOptions) (now : Z).
Implicit Types (st : MemoryDriver.State) (pattern : string).




End Invalidation.



(** ** Deleting in batches *)

Section BatchFacts.
Context {St : Type} (driver : CacheDriver St) (batchSize : Z).
Hypothesis (Hdel_nil : forall st, Driver.del driver [] st = (0, st)).
Hypothesis (Hdel_app : forall l1 l2 st,
  Driver.del driver (l1 ++ l2) st
  = let '(n1, st1) := Driver.del driver l1 st in
    let '(n2, st2) := Driver.del driver l2 st1 in
    (n1 + n2, st2)).

(** The batch that begins at a key of the list. *)
Lemma slice_array_batch (keys : list Key) (k : nat) :
  0 < batchSize -> (k < length keys)%nat ->
  BatchOperations.slice_array (Z.of_nat k) (Z.of_nat k + batchSize) keys
  = take (Z.to_nat batchSize) (drop k keys).
Proof.
  intros Hpos Hk. unfold BatchOperations.slice_array.
  destruct (Z.ltb_spec (Z.of_nat k) 0); [lia|].
  destruct (Z.ltb_spec (Z.of_nat k + batchSize) 0); [lia|].
  rewrite (Z.min_l (Z.of_nat k)) by lia. rewrite Nat2Z.id.
  destruct (Z.le_gt_cases (Z.of_nat k + batchSize) (Z.of_nat (length keys))).
  - rewrite Z.min_l by lia. f_equal. lia.
  - rewrite Z.min_r by lia.
    rewrite !take_ge; [done| |]; rewrite length_drop; lia.
Qed.

(** With a positive batch size and fuel for every key, the loop deletes
    what is left of the list. *)
Lemma deleteBatch_loop_returns (keys : list Key) :
  0 < batchSize ->
  forall fuel k total st,
    (length keys - k <= fuel)%nat ->
    BatchOperations.deleteBatch_loop driver batchSize fuel keys
      (Z.of_nat k) total st
    = Some (let '(n, st1) := Driver.del driver (drop k keys) st in
            (total + n, st1)).
Proof.
  intros Hpos. induction fuel as [|fuel IH]; intros k total st Hfuel;
    cbn [BatchOperations.deleteBatch_loop]; unfold len;
    (destruct (Z.ltb_spec (Z.of_nat k) (Z.of_nat (length keys))) as [Hk|Hk];
     [|rewrite drop_ge by lia; rewrite Hdel_nil; do 2 f_equal; lia]).
  - lia.
  - rewrite slice_array_batch by lia. unfold CacheManager.del.
    set (b := Z.to_nat batchSize).
    rewrite <-(take_drop b (drop k keys)) at 2. rewrite Hdel_app.
    destruct (Driver.del driver (take b (drop k keys)) st) as [n st1].
    replace (Z.of_nat k + batchSize) with (Z.of_nat (k + b)) by lia.
    rewrite IH by lia. rewrite drop_drop.
    destruct (Driver.del driver (drop (k + b) keys) st1) as [n2 st2].
    do 2 f_equal. lia.
Qed.

(** With a batch size that is not positive the counter never passes
    the first key. *)
Lemma deleteBatch_loop_diverges (keys : list Key) :
  batchSize <= 0 -> keys <> [] ->
  forall fuel i total st,
    i <= 0 ->
    BatchOperations.deleteBatch_loop driver batchSize fuel keys i total st
    = None.
Proof.
  intros Hneg Hkeys. induction fuel as [|fuel IH]; intros i total st Hi;
    cbn [BatchOperations.deleteBatch_loop]; unfold len;
    (destruct (Z.ltb_spec i (Z.of_nat (length keys))) as [Hlt|Hge];
     [|destruct keys; [done|cbn [length] in Hge; lia]]).
  - done.
  - destruct (CacheManager.del driver _ st) as [n st1]. apply IH. lia.
Qed.

End BatchFacts.

Section BatchDrivers.
Context (o : MemoryDriverOptions).

Lemma md_del_shift keys : forall (a b : Z) st,
  foldl (MemoryDriver.del_step o) (a + b, st) keys
  = (a + fst (foldl (MemoryDriver.del_step o) (b, st) keys),
     snd (foldl (MemoryDriver.del_step o) (b, st) keys)).
Proof.
  induction keys as [|key keys IH]; intros a b st; [done|].
  cbn [foldl]. rewrite !md_del_step_spec.
  destruct (read_slot (MemoryDriver.data st) (getFullKey o key));
    [rewrite <-Z.add_assoc; apply IH..|apply IH].
Qed.

Lemma md_del_app l1 l2 st :
  MemoryDriver.del o (l1 ++ l2) st
  = let '(n1, st1) := MemoryDriver.del o l1 st in
    let '(n2, st2) := MemoryDriver.del o l2 st1 in
    (n1 + n2, st2).
Proof.
  unfold MemoryDriver.del. rewrite foldl_app.
  destruct (foldl (MemoryDriver.del_step o) (0, st) l1) as [n1 st1].
  replace n1 with (n1 + 0) at 1 by lia. rewrite md_del_shift.
  by destruct (foldl (MemoryDriver.del_step o) (0, st1) l2).
Qed.

Lemma lru_del_shift keys : forall (a b : Z) st,
  foldl (MemoryLRUDriver.del_step o) (a + b, st) keys
  = (a + fst (foldl (MemoryLRUDriver.del_step o) (b, st) keys),
     snd (foldl (MemoryLRUDriver.del_step o) (b, st) keys)).
Proof.
  induction keys as [|key keys IH]; intros a b st; [done|].
  cbn [foldl]. unfold MemoryLRUDriver.del_step at 2 4 6.
  destruct (MemoryLRUDriver.lookup_node st (getFullKey o key)) as [[n nd]|];
    [|apply IH].
  rewrite <-Z.add_assoc. apply IH.
Qed.

Lemma lru_del_app l1 l2 st :
  MemoryLRUDriver.del o (l1 ++ l2) st
  = let '(n1, st1) := MemoryLRUDriver.del o l1 st in
    let '(n2, st2) := MemoryLRUDriver.del o l2 st1 in
    (n1 + n2, st2).
Proof.
  unfold MemoryLRUDriver.del. rewrite foldl_app.
  destruct (foldl (MemoryLRUDriver.del_step o) (0, st) l1) as [n1 st1].
  replace n1 with (n1 + 0) at 1 by lia. rewrite lru_del_shift.
  by destruct (foldl (MemoryLRUDriver.del_step o) (0, st1) l2).
Qed.

End BatchDrivers.

(** [deleteBatch] of [BatchOperations] over either in-memory driver.
    With a positive batch size it returns, given fuel for one round per
    key, and it is [del] of the whole list: the same state and the same
    number of deleted keys, whatever the batch size.  With a batch size
    of 0 or less and a list that is not empty it never returns: its
    counter does not advance. *)
Theorem deleteBatch_is_del
    (o : MemoryDriverOptions) (batchSize : Z) (fuel : nat) (keys : list Key)
    (st : MemoryDriver.State) (lst : MemoryLRUDriver.State) :
  (0 < batchSize -> (length keys <= fuel)%nat ->
   BatchOperations.deleteBatch (memory_driver o) batchSize fuel keys st
   = Some (MemoryDriver.del o keys st)
   /\ BatchOperations.deleteBatch (memory_lru_driver o) batchSize fuel keys lst
      = Some (MemoryLRUDriver.del o keys lst))
  /\ (batchSize <= 0 -> keys <> [] ->
      BatchOperations.deleteBatch (memory_driver o) batchSize fuel keys st = None
      /\ BatchOperations.deleteBatch (memory_lru_driver o) batchSize fuel keys lst
         = None).
Proof.
  unfold BatchOperations.deleteBatch. split.
  - intros Hpos Hfuel. split.
    + pose proof (deleteBatch_loop_returns (memory_driver o) batchSize
                    (fun _ => eq_refl) (md_del_app o) keys Hpos fuel 0%nat 0 st
                    ltac:(lia)) as Hloop.
      change (Z.of_nat 0) with 0 in Hloop. rewrite Hloop, drop_0.
      cbn [Driver.del memory_driver].
      destruct (MemoryDriver.del o keys st) as [n st1].
      by rewrite Z.add_0_l.
    + pose proof (deleteBatch_loop_returns (memory_lru_driver o) batchSize
                    (fun _ => eq_refl) (lru_del_app o) keys Hpos fuel 0%nat 0
                    lst ltac:(lia)) as Hloop.
      change (Z.of_nat 0) with 0 in Hloop. rewrite Hloop, drop_0.
      cbn [Driver.del memory_lru_driver].
      destruct (MemoryLRUDriver.del o keys lst) as [n st1].
      by rewrite Z.add_0_l.
  - intros Hneg Hkeys. split; by apply deleteBatch_loop_diverges.
Qed.

(** Five keys deleted in batches of two. *)
Lemma deleteBatch_is_del_witness :
  let o := driver_options (-1) true in
  let keys := [KStr "a"; KStr "b"; KStr "c"; KStr "d"; KStr "e"] in
  BatchOperations.deleteBatch (memory_driver o) 2 5 keys MemoryDriver.init
  = Some (MemoryDriver.del o keys MemoryDriver.init).
Proof.
  refine (proj1 (proj1 (deleteBatch_is_del (driver_options (-1) true) 2 5
                          [KStr "a"; KStr "b"; KStr "c"; KStr "d"; KStr "e"]
                          MemoryDriver.init MemoryLRUDriver.init) _ _)).
  - lia.
  - simpl. lia.
Defined.

(** ** Deleting from the Cache engine, and its sweep *)

Section CacheDeletes.
Context (o : Cache.Options).
Implicit Types (st : Cache.State) (d : WrappedValue) (key : Key).

Lemma cache_del_step_spec (n : Z) st key :
  Cache.del_step o (n, st) key
  = match read_slot (Cache.data st) (key_toString key) with
    | Own d => (n + 1, Cache.del_found o (key_toString key) (v d) st)
    | Inherited => (n + 1, Cache.del_found o (key_toString key) JUndefined st)
    | Missing => (n, st)
    end.
Proof. reflexivity. Qed.

(** The loop of [del]. *)
Lemma cache_del_fold keys : forall (n : Z) st,
  let r := foldl (Cache.del_step o) (n, st) keys in
  (forall keyStr,
      Cache.data (snd r) !! keyStr
      = if bool_decide (keyStr ∈ key_toString <$> keys) then None
        else Cache.data st !! keyStr)
  /\ n + (Z.of_nat (size (Cache.data st))
          - Z.of_nat (size (Cache.data (snd r)))) <= fst r
  /\ (plain_keys keys ->
      fst r = n + (Z.of_nat (size (Cache.data st))
                   - Z.of_nat (size (Cache.data (snd r)))))
  /\ Stats.keys (Cache.stats (snd r))
     = Stats.keys (Cache.stats st) - (fst r - n)
  /\ Cache.dataMap (snd r) = Cache.dataMap st
  /\ Stats.hits (Cache.stats (snd r)) = Stats.hits (Cache.stats st)
  /\ Stats.misses (Cache.stats (snd r)) = Stats.misses (Cache.stats st).
Proof.
  unfold plain_keys.
  induction keys as [|key keys IH]; intros n st; cbv zeta.
  - cbn [foldl fst snd fmap list_fmap]. split_and!; try done; lia.
  - cbn [foldl]. rewrite cache_del_step_spec.
    assert (Hin : forall k, k ∈ key_toString <$> (key :: keys)
                            <-> k = key_toString key \/ k ∈ key_toString <$> keys)
      by (intros k; apply elem_of_cons).
    assert (Hfound : forall old,
      (inherited (key_toString key) = false ->
       is_Some (Cache.data st !! key_toString key)) ->
      let r := foldl (Cache.del_step o)
                 (n + 1, Cache.del_found o (key_toString key) old st) keys in
      (forall keyStr,
          Cache.data (snd r) !! keyStr
          = if bool_decide (keyStr ∈ key_toString <$> (key :: keys)) then None
            else Cache.data st !! keyStr)
      /\ n + (Z.of_nat (size (Cache.data st))
              - Z.of_nat (size (Cache.data (snd r)))) <= fst r
      /\ (Forall (fun key => inherited (key_toString key) = false)
                 (key :: keys) ->
          fst r = n + (Z.of_nat (size (Cache.data st))
                       - Z.of_nat (size (Cache.data (snd r)))))
      /\ Stats.keys (Cache.stats (snd r))
         = Stats.keys (Cache.stats st) - (fst r - n)
      /\ Cache.dataMap (snd r) = Cache.dataMap st
      /\ Stats.hits (Cache.stats (snd r)) = Stats.hits (Cache.stats st)
      /\ Stats.misses (Cache.stats (snd r)) = Stats.misses (Cache.stats st)).
    { intros old Hstored. cbv zeta.
      destruct (IH (n + 1) (Cache.del_found o (key_toString key) old st))
        as (Hdata & Hlow & Hcount & Hkeys & Hmap & Hhits & Hmiss).
      destruct (foldl (Cache.del_step o)
                  (n + 1, Cache.del_found o (key_toString key) old st) keys)
        as [count st'] eqn:Hfold.
      cbn [fst snd] in *.
      simpl in Hdata, Hlow, Hcount, Hkeys, Hmap, Hhits, Hmiss.
      assert (Hsize : (size (Cache.data st) <=
                       S (size (delete (key_toString key) (Cache.data st))))%nat).
      { destruct (Cache.data st !! key_toString key) as [d|] eqn:Hd.
        - rewrite map_size_delete_Some by done. lia.
        - rewrite delete_id by done. lia. }
      split_and!; try done; try lia.
      - intros keyStr. rewrite Hdata, lookup_delete.
        destruct (decide (key_toString key = keyStr)) as [<-|Hne].
        + rewrite (bool_decide_eq_true_2 (_ ∈ key_toString <$> (key :: keys)))
            by (apply Hin; by left).
          by case_bool_decide.
        + case_bool_decide as Hr.
          * by rewrite bool_decide_eq_true_2 by (apply Hin; by right).
          * rewrite bool_decide_eq_false_2; [done|].
            intros [?|?]%Hin; done.
      - intros Hplain. apply Forall_cons in Hplain as [Hkey Hplain].
        specialize (Hcount Hplain). destruct (Hstored Hkey) as [d Hd].
        assert (size (Cache.data st) <> 0%nat).
        { apply map_size_ne_0_lookup_2 with (key_toString key). by rewrite Hd. }
        rewrite map_size_delete_Some in Hcount by done. lia. }
    destruct (read_slot (Cache.data st) (key_toString key))
      as [d| |] eqn:Hslot.
    + apply Hfound. intros _. apply read_slot_Own in Hslot. by rewrite Hslot.
    + apply Hfound. apply read_slot_Inherited in Hslot as [_ Hslot].
      congruence.
    + apply read_slot_Missing in Hslot as [Hd Hplain].
      destruct (IH n st) as (Hdata & Hlow & Hcount & Hrest).
      destruct (foldl (Cache.del_step o) (n, st) keys) as [count st'] eqn:Hfold.
      cbn [fst snd] in *. split_and!; try done.
      * intros keyStr. rewrite Hdata.
        destruct (decide (keyStr = key_toString key)) as [->|Hne].
        -- rewrite (bool_decide_eq_true_2 (_ ∈ key_toString <$> (key :: keys)))
             by (apply Hin; by left).
           rewrite Hd. by case_bool_decide.
        -- case_bool_decide as Hr.
           ++ by rewrite bool_decide_eq_true_2 by (apply Hin; by right).
           ++ rewrite bool_decide_eq_false_2; [done|].
              intros [?|?]%Hin; done.
      * intros Hp. apply Forall_cons in Hp as [_ Hp]. by apply Hcount.
      * apply Hrest.
      * apply Hrest.
      * apply Hrest.
      * apply Hrest.
Qed.

(** One check of the sweep. *)
Lemma cache_check_spec now keyStr d st :
  Cache.data st !! keyStr = Some d ->
  snd (Cache._check o now keyStr d st)
  = if expired now d && Cache.deleteOnExpire o
    then cache_remove o keyStr d st else st.
Proof.
  intros Hd. unfold Cache._check.
  destruct (expired now d); [|done].
  destruct (Cache.deleteOnExpire o); [|done].
  cbn [andb snd]. rewrite cache_del_one. cbn [key_toString].
  by rewrite (read_slot_own _ _ _ Hd).
Qed.

(** The sweep over a duplicate-free list of entries that are still
    stored. *)
Lemma cache_sweep_fold now (l : list (string * WrappedValue)) : forall st,
  NoDup l.*1 ->
  (forall k d, (k, d) ∈ l -> Cache.data st !! k = Some d) ->
  let st' := foldl (fun st1 '(key, d) => snd (Cache._check o now key d st1))
               st l in
  (forall k, Cache.data st' !! k
             = if bool_decide (k ∈ l.*1) && Cache.deleteOnExpire o
               then cache_entry now st k
               else Cache.data st !! k)
  /\ Cache.dataMap st' = Cache.dataMap st
  /\ Stats.hits (Cache.stats st') = Stats.hits (Cache.stats st)
  /\ Stats.misses (Cache.stats st') = Stats.misses (Cache.stats st).
Proof.
  induction l as [|[k d] l IH]; intros st Hnd Hl; cbv zeta.
  - cbn [foldl]. split_and!; try done.
  - cbn [foldl fmap list_fmap] in *. apply NoDup_cons in Hnd as [Hk Hnd].
    assert (Hd : Cache.data st !! k = Some d)
      by (apply Hl, elem_of_cons; by left).
    rewrite (cache_check_spec now k d st Hd).
    assert (Hin : forall x, x ∈ k :: l.*1 <-> x = k \/ x ∈ l.*1)
      by (intros x; apply elem_of_cons).
    assert (Hother : forall k' d', (k', d') ∈ l -> k' <> k).
    { intros k' d' Hin' ->. apply Hk. apply list_elem_of_fmap.
      by exists (k, d'). }
    destruct (expired now d && Cache.deleteOnExpire o) eqn:Hx.
    + apply andb_true_iff in Hx as [Hexp Hdel]. rewrite Hdel.
      destruct (IH (cache_remove o k d st) Hnd)
        as (Hdata & Hmap & Hhits & Hmiss).
      { intros k' d' Hin'. simpl. rewrite lookup_delete_ne.
        - apply Hl, elem_of_cons. by right.
        - intros ->. by apply (Hother _ _ Hin'). }
      rewrite Hdel in Hdata. split_and!; try done.
      intros x. rewrite Hdata, !andb_true_r.
      destruct (decide (x = k)) as [->|Hne].
      * rewrite (bool_decide_eq_true_2 (k ∈ k :: l.*1)) by (apply Hin; by left).
        rewrite bool_decide_eq_false_2 by done.
        simpl. rewrite lookup_delete_eq. unfold cache_entry.
        by rewrite Hd, Hexp.
      * assert (Hent : cache_entry now (cache_remove o k d st) x
                       = cache_entry now st x).
        { unfold cache_entry. simpl. by rewrite lookup_delete_ne. }
        rewrite Hent. simpl. rewrite lookup_delete_ne by done.
        case_bool_decide as Hr.
        -- by rewrite bool_decide_eq_true_2 by (apply Hin; by right).
        -- rewrite bool_decide_eq_false_2; [done|]. intros [?|?]%Hin; done.
    + destruct (IH st Hnd) as (Hdata & Hrest).
      { intros k' d' Hin'. apply Hl, elem_of_cons. by right. }
      split; [|done]. intros x. rewrite Hdata.
      destruct (Cache.deleteOnExpire o) eqn:Hdel; rewrite ?andb_false_r;
        [|done].
      rewrite !andb_true_r. rewrite andb_true_r in Hx.
      destruct (decide (x = k)) as [->|Hne].
      * rewrite (bool_decide_eq_true_2 (k ∈ k :: l.*1)) by (apply Hin; by left).
        rewrite bool_decide_eq_false_2 by done.
        unfold cache_entry. by rewrite Hd, Hx.
      * case_bool_decide as Hr.
        -- by rewrite bool_decide_eq_true_2 by (apply Hin; by right).
        -- rewrite bool_decide_eq_false_2; [done|]. intros [?|?]%Hin; done.
Qed.

End CacheDeletes.

(** [del] of the [Cache] engine, for every list of keys and every
    state: afterwards no named key is in the plain store and every
    other entry is as it was; the key counter drops by the number
    returned, which is at least the number of entries removed and is
    that number when no key of the list is a name inherited from
    [Object.prototype] (for such a name with nothing stored under it
    [del] counts a deletion all the same); hits and misses are
    untouched.  The map of the fast path is untouched too, so under
    [maxPerformance] [del] does not remove what [set] has stored. *)
Theorem cache_del_removes_named_keys
    (o : Cache.Options) (keys : list Key) (st : Cache.State) :
  let r := Cache.del o keys st in
  (forall keyStr,
      Cache.data (snd r) !! keyStr
      = if bool_decide (keyStr ∈ key_toString <$> keys) then None
        else Cache.data st !! keyStr)
  /\ Z.of_nat (size (Cache.data st))
     - Z.of_nat (size (Cache.data (snd r))) <= fst r
  /\ (plain_keys keys ->
      fst r = Z.of_nat (size (Cache.data st))
              - Z.of_nat (size (Cache.data (snd r))))
  /\ Stats.keys (Cache.stats (snd r)) = Stats.keys (Cache.stats st) - fst r
  /\ Cache.dataMap (snd r) = Cache.dataMap st
  /\ Stats.hits (Cache.stats (snd r)) = Stats.hits (Cache.stats st)
  /\ Stats.misses (Cache.stats (snd r)) = Stats.misses (Cache.stats st).
Proof.
  cbv zeta. unfold Cache.del.
  destruct (cache_del_fold o keys 0 st)
    as (Hdata & Hlow & Hcount & Hkeys & Hrest).
  cbv zeta in *. split_and!; try done; try lia; try by apply Hrest.
Qed.

(** Two stored keys and a key that is not stored are deleted: the
    number returned is two, the number of entries removed. *)
Lemma cache_del_removes_named_keys_witness :
  let o := Cache.DEFAULT_OPTIONS in
  let st := outcome_state
              (Cache.mset o 0 [(KStr "a", JNumber 1, None);
                               (KStr "b", JNumber 2, None)] (Cache.init o)) in
  let r := Cache.del o [KStr "a"; KStr "c"; KStr "b"] st in
  fst r = Z.of_nat (size (Cache.data st))
          - Z.of_nat (size (Cache.data (snd r))).
Proof.
  intros o st r.
  assert (Hplain : plain_keys [KStr "a"; KStr "c"; KStr "b"])
    by (repeat constructor).
  exact (proj1 (proj2 (proj2
                  (cache_del_removes_named_keys o
                     [KStr "a"; KStr "c"; KStr "b"] st))) Hplain).
Defined.

(** The periodic sweep of the [Cache] engine, for every state: with
    [deleteOnExpire] on the entries left in the plain store are exactly
    those not past their expiry, and with it off the store is
    untouched; the map of the fast path, the hits and the misses are as
    before. *)
Theorem cache_sweep_keeps_live_entries
    (o : Cache.Options) (now : Z) (st : Cache.State) :
  let st' := Cache._checkData o now st in
  (forall keyStr,
      Cache.data st' !! keyStr
      = if Cache.deleteOnExpire o then cache_entry now st keyStr
        else Cache.data st !! keyStr)
  /\ Cache.dataMap st' = Cache.dataMap st
  /\ Stats.hits (Cache.stats st') = Stats.hits (Cache.stats st)
  /\ Stats.misses (Cache.stats st') = Stats.misses (Cache.stats st).
Proof.
  cbv zeta. unfold Cache._checkData.
  destruct (cache_sweep_fold o now (map_to_list (Cache.data st)) st)
    as (Hdata & Hrest).
  - apply NoDup_fst_map_to_list.
  - intros k d Hin. by apply elem_of_map_to_list.
  - split; [|done]. intros keyStr. rewrite Hdata.
    destruct (Cache.deleteOnExpire o); rewrite ?andb_false_r; [|done].
    rewrite andb_true_r. case_bool_decide as Hin; [done|].
    unfold cache_entry.
    destruct (Cache.data st !! keyStr) as [d|] eqn:Hd; [|done].
    exfalso. apply Hin. apply list_elem_of_fmap. exists (keyStr, d).
    split; [done|]. by apply elem_of_map_to_list.
Qed.

(** ** What del and ttl leave in the list of the LRU driver *)

Section LRUDelTtl.
Import MemoryLRUDriver.
Context (o : MemoryDriverOptions).
Implicit Types (st : State) (l : list nat) (n m : nat) (nd : LRUNode)
  (k : string) (key : Key).

(** Dropping the keys of a list one after the other. *)
Lemma filter_without (ks : list string) k (l : list string) :
  filter (fun x => x ∉ ks) (without k l) = filter (fun x => x ∉ k :: ks) l.
Proof.
  induction l as [|a l IH]; [done|]. cbn [without].
  destruct (decide (a = k)) as [->|Hne].
  - rewrite IH. rewrite (filter_cons_False (fun x => x ∉ k :: ks)); [done|].
    intros Hn. apply Hn, elem_of_cons. by left.
  - rewrite !filter_cons, IH.
    destruct (decide (a ∉ ks)) as [Ha|Ha].
    + rewrite decide_True; [done|]. by intros [?|?]%elem_of_cons.
    + rewrite decide_False; [done|]. intros Hn. apply Ha. intros Hin.
      apply Hn, elem_of_cons. by right.
Qed.

Lemma foldl_without (ks : list string) : forall (l : list string),
  foldl (fun acc k => without k acc) l ks = filter (fun x => x ∉ ks) l.
Proof.
  induction ks as [|k ks IH]; intros l; cbn [foldl].
  - induction l as [|a l IHl]; [done|].
    rewrite filter_cons_True by (by intros ?%elem_of_nil). by f_equal.
  - by rewrite IH, filter_without.
Qed.

(** One iteration of [del] on a represented state. *)
Lemma lru_del_step_recency (c : Z) key st l :
  lru_rep o st l ->
  let r := del_step o (c, st) key in
  (exists l', lru_rep o (snd r) l')
  /\ recency (snd r) = without (getFullKey o key) (recency st)
  /\ fst r - c
     = Z.of_nat (length (recency st)) - Z.of_nat (length (recency (snd r))).
Proof.
  intros Hrep. cbv zeta. set (F := getFullKey o key).
  pose proof Hrep as (Hlinks & Hindex & _).
  pose proof Hlinks as (Hnd & _).
  assert (Hstep :
    del_step o (c, st) key
    = match lookup_node st F with
      | Some (n, nd) =>
          (c + 1,
           with_tags (untag_everywhere F)
             (with_data (delete F)
                (removeNode n
                   (with_stats (Stats.add_keys (-1))
                      (with_stats
                         (Stats.add_ksize (- getKeySize (key_toString key)))
                         (with_stats
                            (Stats.add_vsize
                               (- getValueSize (unwrap (Node.value nd))))
                            st))))))
      | None => (c, st)
      end) by reflexivity.
  rewrite Hstep. clear Hstep.
  destruct (lookup_node st F) as [[n nd]|] eqn:Hl; cbn [fst snd].
  - destruct (lookup_node_rep st l F n nd Hindex Hl) as (Hin & Hkey & _).
    assert (HkF : key_at st n = F) by (unfold key_at; by rewrite Hkey).
    match goal with
    | |- context [with_tags ?f ?s] =>
        assert (Hrep' : lru_rep o (with_tags f s) (without n l))
    end.
    { apply lru_rep_tags. rewrite !removeNode_with_stats.
      eapply lru_rep_ext;
        [..|apply (lru_rep_detach o st l n F Hrep Hin Hkey)]; done. }
    split; [by eexists|].
    rewrite (recency_rep o _ _ Hrep'), (recency_rep o st l Hrep).
    match goal with
    | |- context [key_at ?s <$> without n l] =>
        assert (Hkeys : key_at s <$> without n l = key_at st <$> without n l)
    end.
    { apply list_fmap_ext. intros _ m _. unfold key_at. f_equal.
      unfold node_key. cbn [heap with_tags with_data].
      rewrite !removeNode_with_stats. cbn [heap with_stats].
      apply node_key_removeNode. }
    rewrite Hkeys, (recency_without o st l n Hrep Hin), HkF.
    split; [by rewrite (recency_rep o st l Hrep)|].
    rewrite <-HkF, <-(recency_without o st l n Hrep Hin), !length_fmap.
    pose proof (length_without n l Hnd Hin). lia.
  - split; [by exists l|]. split; [|lia]. symmetry. apply without_notin.
    destruct (recency_facts o st l Hrep) as (_ & Hmem & _).
    rewrite Hmem, (lookup_node_None_rep st l F Hlinks Hindex Hl).
    by intros [? ?].
Qed.

(** The loop of [del] on a represented state. *)
Lemma lru_del_recency keys : forall (c : Z) st l,
  lru_rep o st l ->
  let r := foldl (del_step o) (c, st) keys in
  recency (snd r)
  = foldl (fun acc k => without k acc) (recency st) (getFullKey o <$> keys)
  /\ fst r - c
     = Z.of_nat (length (recency st)) - Z.of_nat (length (recency (snd r))).
Proof.
  induction keys as [|key keys IH]; intros c st l Hrep; cbv zeta.
  - cbn [foldl fst snd fmap list_fmap]. split; [done|lia].
  - cbn [foldl fmap list_fmap].
    destruct (lru_del_step_recency c key st l Hrep)
      as ([l' Hrep'] & Hrec & Hcount).
    destruct (del_step o (c, st) key) as [c1 st1].
    cbn [fst snd] in *. destruct (IH c1 st1 l' Hrep') as (Hrec' & Hcount').
    cbv zeta in *. split; [by rewrite Hrec', Hrec|lia].
Qed.

(** [ttl] on a represented state. *)
Lemma lru_ttl_spec now key ttlv st :
  ttl o now key ttlv st
  = match lookup_node st (getFullKey o key) with
    | Some (n, nd) =>
        if served o now (Node.value nd)
        then (true,
              moveToHead n
                (with_heap
                   (alter
                      (Node.set_value
                         (wrap o now (v (Node.value nd)) (Some ttlv))) n) st))
        else (false, lru_expire n (getFullKey o key) st)
    | None => (false, st)
    end.
Proof.
  unfold ttl. rewrite lru_present_spec.
  destruct (lookup_node st (getFullKey o key)) as [[n nd]|]; [|done].
  by destruct (served o now (Node.value nd)).
Qed.

Lemma lru_ttl_recency now key ttlv st l :
  lru_rep o st l ->
  let F := getFullKey o key in
  let r := ttl o now key ttlv st in
  fst r = bool_decide (is_Some (lru_entry o now st F))
  /\ recency (snd r)
     = (if fst r then [F] else []) ++ without F (recency st)
  /\ (forall d, lru_entry o now st F = Some d ->
        lru_value (snd r) F = Some (wrap o now (v d) (Some ttlv)))
  /\ (forall other, other <> F ->
        lru_value (snd r) other = lru_value st other).
Proof.
  intros Hrep. cbv zeta. set (F := getFullKey o key).
  rewrite lru_ttl_spec. fold F. unfold lru_entry.
  pose proof Hrep as (Hlinks & Hindex & _).
  assert (Hv : lru_value st F
               = (fun p => Node.value (snd p)) <$> lookup_node st F)
    by (unfold lru_value; by destruct (lookup_node st F) as [[? ?]|]).
  rewrite Hv. clear Hv.
  destruct (lookup_node st F) as [[n nd]|] eqn:Hl; cbn [fmap option_fmap option_map snd].
  - destruct (lookup_node_rep st l F n nd Hindex Hl) as (Hin & Hkey & Hn & Hk).
    assert (HkF : key_at st n = F) by (unfold key_at; by rewrite Hkey).
    destruct (served o now (Node.value nd)) eqn:Hs; cbn [fst snd].
    + set (w := wrap o now (v (Node.value nd)) (Some ttlv)).
      set (st1 := with_heap (alter (Node.set_value w) n) st).
      assert (Hrep1 : lru_rep o st1 l) by (by apply lru_rep_set_value).
      assert (Hrep' : lru_rep o (moveToHead n st1) (n :: without n l))
        by (by apply lru_rep_moveToHead).
      assert (Hkeys : forall m, key_at (moveToHead n st1) m = key_at st m).
      { intros m. unfold key_at. f_equal. rewrite node_key_moveToHead.
        unfold node_key, st1. cbn [heap with_heap].
        by rewrite alter_keeps_key. }
      destruct (moveToHead_frame n st1) as (Hdata & _).
      split_and!.
      * by rewrite bool_decide_eq_true_2.
      * rewrite (recency_rep o _ _ Hrep').
        rewrite (list_fmap_ext (key_at (moveToHead n st1)) (key_at st)
                   (n :: without n l)) by (intros _ m _; apply Hkeys).
        cbn [fmap list_fmap app]. by rewrite (recency_without o st l n Hrep Hin), HkF.
      * intros d [= <-]. rewrite lru_value_alt, Hdata.
        unfold st1 at 1. cbn [data with_heap]. rewrite Hk.
        rewrite moveToHead_values. unfold st1. cbn [heap with_heap].
        by rewrite lookup_alter_eq, Hn.
      * intros other Hne. rewrite !lru_value_alt, Hdata.
        unfold st1 at 1. cbn [data with_heap].
        destruct (data st !! other) as [m|] eqn:Hm; [|done].
        rewrite moveToHead_values. unfold st1. cbn [heap with_heap].
        rewrite lookup_alter_ne; [done|]. intros ->.
        apply Hne. unfold lru_index in Hindex.
        apply Hindex in Hm as [_ Hm]. congruence.
    + pose proof (lru_rep_detach o st l n F Hrep Hin Hkey) as Hrep'.
      fold (lru_expire n F st) in Hrep'. split_and!.
      * by rewrite bool_decide_eq_false_2 by (by intros [? ?]).
      * rewrite (recency_rep o _ _ Hrep').
        rewrite (list_fmap_ext (key_at (lru_expire n F st)) (key_at st)
                   (without n l)).
        -- cbn [app]. by rewrite (recency_without o st l n Hrep Hin), HkF.
        -- intros _ m _. unfold key_at. f_equal. apply node_key_removeNode.
      * done.
      * intros other Hne. rewrite !lru_value_alt. unfold lru_expire.
        cbn [data with_stats with_data heap].
        destruct (removeNode_frame n st) as (-> & _).
        rewrite lookup_delete_ne by done.
        destruct (data st !! other); [|done]. apply removeNode_values.
  - cbn [fst snd app]. split_and!; try done.
    symmetry. apply without_notin.
    destruct (recency_facts o st l Hrep) as (_ & Hmem & _).
    rewrite Hmem, (lookup_node_None_rep st l F Hlinks Hindex Hl).
    by intros [? ?].
Qed.

End LRUDelTtl.

(** [del] of the [MemoryLRUDriver], in any state reached by calls
    through the manager and for every list of keys: the list keeps
    exactly the keys that were not named, in their order, and the number
    returned is the number of keys that left the list. *)
Theorem lru_del_unlinks_named_keys
    (o : MemoryDriverOptions) (calls : list (Z * ManagerCall))
    (keys : list Key) :
  let st := lru_after o calls in
  let r := MemoryLRUDriver.del o keys st in
  recency (snd r)
  = filter (fun k => k ∉ getFullKey o <$> keys) (recency st)
  /\ fst r
     = Z.of_nat (length (recency st)) - Z.of_nat (length (recency (snd r))).
Proof.
  cbv zeta. destruct (lru_ok_after o calls) as [l Hrep].
  destruct (lru_del_recency o keys 0 _ l Hrep) as (Hrec & Hcount).
  cbv zeta in *. unfold MemoryLRUDriver.del.
  rewrite <-foldl_without. split; [done|lia].
Qed.

(** [ttl] of the [MemoryLRUDriver], in any state reached by calls
    through the manager: it answers whether the key is served; a served
    key becomes the most recently used, keeps its value and gets the
    expiry of the new time to live; an entry found expired leaves the
    list; the other keys keep their order and their entries. *)
Theorem lru_ttl_refreshes_and_moves_to_front
    (o : MemoryDriverOptions) (calls : list (Z * ManagerCall)) (now : Z)
    (key : Key) (ttlv : Z) :
  let st := lru_after o calls in
  let fullKey := getFullKey o key in
  let r := MemoryLRUDriver.ttl o now key ttlv st in
  fst r = bool_decide (is_Some (lru_entry o now st fullKey))
  /\ recency (snd r)
     = (if fst r then [fullKey] else []) ++ without fullKey (recency st)
  /\ (forall d, lru_entry o now st fullKey = Some d ->
        lru_value (snd r) fullKey = Some (wrap o now (v d) (Some ttlv)))
  /\ (forall other, other <> fullKey ->
        lru_value (snd r) other = lru_value st other).
Proof.
  cbv zeta. destruct (lru_ok_after o calls) as [l Hrep].
  by apply (lru_ttl_recency o now key ttlv _ l).
Qed.

(** ** The sweep of the LRU driver *)

Section LRUSweep.
Import MemoryLRUDriver.
Context (o : MemoryDriverOptions) (now : Z).
Implicit Types (st : State) (l : list nat) (n m : nat) (nd : LRUNode)
  (k : string) (key : Key).

Lemma filter_all {A : Type} (P : A -> Prop) `{forall x, Decision (P x)}
    (xs : list A) :
  (forall x, x ∈ xs -> P x) -> filter P xs = xs.
Proof.
  induction xs as [|a xs IH]; intros Hall; [done|].
  rewrite filter_cons_True by (apply Hall, elem_of_cons; by left).
  f_equal. apply IH. intros x Hx. apply Hall, elem_of_cons. by right.
Qed.

Lemma filter_without_out (P : string -> Prop) `{forall x, Decision (P x)}
    k (xs : list string) :
  ~ P k -> filter P (without k xs) = filter P xs.
Proof.
  intros Hk. induction xs as [|a xs IH]; [done|]. cbn [without].
  destruct (decide (a = k)) as [->|Hne].
  - by rewrite filter_cons_False.
  - by rewrite !filter_cons, IH.
Qed.

(** Every key of the list has a node with a value. *)
Lemma lru_value_listed st l k :
  lru_rep o st l -> k ∈ recency st -> is_Some (lru_value st k).
Proof.
  intros Hrep Hk. destruct (recency_facts o st l Hrep) as (_ & Hmem & _).
  apply Hmem in Hk as [n Hn].
  pose proof Hrep as ((_ & _ & _ & Hnodes & _) & Hindex & _).
  unfold lru_index in Hindex. destruct (proj1 (Hindex k n) Hn) as [Hin _].
  destruct (Hnodes n Hin) as (nd & Hnd & _).
  rewrite lru_value_alt, Hn, Hnd. by eexists.
Qed.

(** The sweep over a duplicate-free list of entries that are still
    stored. *)
Lemma lru_sweep_fold (entries : list (string * nat)) : forall st l,
  lru_rep o st l ->
  NoDup entries.*1 ->
  (forall k n, (k, n) ∈ entries -> data st !! k = Some n) ->
  let st' :=
    foldl (fun st1 '(key, n) =>
             match heap st1 !! n with
             | Some nd => snd (checkExpiry o now key (Node.value nd) st1)
             | None => st1
             end) st entries in
  (exists l', lru_rep o st' l')
  /\ (forall k, lru_value st' k
                = if bool_decide (k ∈ entries.*1) then lru_entry o now st k
                  else lru_value st k)
  /\ recency st' = filter (fun k => is_Some (lru_value st' k)) (recency st).
Proof.
  induction entries as [|[k n] entries IH]; intros st l Hrep Hnd Hl; cbv zeta.
  - cbn [foldl]. split; [by exists l|]. split; [done|].
    symmetry. apply filter_all. intros x Hx. by apply (lru_value_listed st l).
  - cbn [foldl fmap list_fmap] in *. apply NoDup_cons in Hnd as [Hk Hnd].
    assert (Hkn : data st !! k = Some n) by (apply Hl, elem_of_cons; by left).
    pose proof Hrep as ((_ & _ & _ & Hnodes & _) & Hindex & _).
    unfold lru_index in Hindex.
    destruct (proj1 (Hindex k n) Hkn) as [Hin Hkey].
    destruct (Hnodes n Hin) as (nd & Hn & _).
    assert (Hlook : lookup_node st k = Some (n, nd))
      by (unfold lookup_node; by rewrite Hkn, Hn).
    rewrite Hn, (lru_checkExpiry_spec o now k n nd st Hlook).
    assert (Hmem : forall x, x ∈ k :: entries.*1 <-> x = k \/ x ∈ entries.*1)
      by (intros x; apply elem_of_cons).
    assert (Hother : forall k' n', (k', n') ∈ entries -> k' <> k).
    { intros k' n' Hin' ->. apply Hk. apply list_elem_of_fmap.
      by exists (k, n'). }
    assert (Hvk : lru_value st k = Some (Node.value nd))
      by (unfold lru_value; by rewrite Hlook).
    destruct (served o now (Node.value nd)) eqn:Hs; cbn [snd].
    + destruct (IH st l Hrep Hnd) as (Hrep' & Hval & Hrec).
      { intros k' n' Hin'. apply Hl, elem_of_cons. by right. }
      cbv zeta in *. split; [done|]. split; [|done].
      intros x. rewrite Hval.
      destruct (decide (x = k)) as [->|Hne].
      * rewrite (bool_decide_eq_true_2 (k ∈ k :: entries.*1))
          by (apply Hmem; by left).
        rewrite bool_decide_eq_false_2 by done.
        unfold lru_entry. by rewrite Hvk, Hs.
      * case_bool_decide as Hr.
        -- by rewrite bool_decide_eq_true_2 by (apply Hmem; by right).
        -- rewrite bool_decide_eq_false_2; [done|]. intros [?|?]%Hmem; done.
    + pose proof (lru_rep_detach o st l n k Hrep Hin Hkey) as Hrep1.
      fold (lru_expire n k st) in Hrep1.
      assert (Hval1 : forall x, lru_value (lru_expire n k st) x
                                = if decide (x = k) then None
                                  else lru_value st x).
      { intros x. rewrite !lru_value_alt. unfold lru_expire.
        cbn [data with_stats with_data heap].
        destruct (removeNode_frame n st) as (-> & _).
        rewrite lookup_delete. destruct (decide (k = x)) as [->|Hne].
        - by rewrite decide_True.
        - rewrite decide_False by done.
          destruct (data st !! x); [|done]. apply removeNode_values. }
      assert (Hrec1 : recency (lru_expire n k st) = without k (recency st)).
      { rewrite (recency_rep o _ _ Hrep1).
        rewrite (list_fmap_ext (key_at (lru_expire n k st)) (key_at st)
                   (without n l)).
        - rewrite (recency_without o st l n Hrep Hin). unfold key_at.
          by rewrite Hkey.
        - intros _ m _. unfold key_at. f_equal. apply node_key_removeNode. }
      destruct (IH (lru_expire n k st) (without n l) Hrep1 Hnd)
        as (Hrep' & Hval & Hrec).
      { intros k' n' Hin'. unfold lru_expire.
        cbn [data with_stats with_data].
        destruct (removeNode_frame n st) as (-> & _).
        rewrite lookup_delete_ne.
        - apply Hl, elem_of_cons. by right.
        - intros ->. by apply (Hother _ _ Hin'). }
      cbv zeta in *. split; [done|].
      assert (Hval' : forall x,
        lru_value
          (foldl (fun st1 '(key, n0) =>
                    match heap st1 !! n0 with
                    | Some nd0 =>
                        snd (checkExpiry o now key (Node.value nd0) st1)
                    | None => st1
                    end) (lru_expire n k st) entries) x
        = if bool_decide (x ∈ k :: entries.*1) then lru_entry o now st x
          else lru_value st x).
      { intros x. rewrite Hval.
        destruct (decide (x = k)) as [->|Hne].
        - rewrite (bool_decide_eq_true_2 (k ∈ k :: entries.*1))
            by (apply Hmem; by left).
          rewrite bool_decide_eq_false_2 by done.
          rewrite Hval1, decide_True by done.
          unfold lru_entry. by rewrite Hvk, Hs.
        - assert (Hent : lru_entry o now (lru_expire n k st) x
                         = lru_entry o now st x).
          { unfold lru_entry. by rewrite Hval1, decide_False. }
          rewrite Hent, Hval1, decide_False by done.
          case_bool_decide as Hr.
          + by rewrite bool_decide_eq_true_2 by (apply Hmem; by right).
          + rewrite bool_decide_eq_false_2; [done|].
            intros [?|?]%Hmem; done. }
      split; [done|]. rewrite Hrec, Hrec1. apply filter_without_out.
      rewrite Hval'.
      rewrite (bool_decide_eq_true_2 (k ∈ k :: entries.*1))
        by (apply Hmem; by left).
      unfold lru_entry. rewrite Hvk, Hs. by intros [? ?].
Qed.

End LRUSweep.

(** The periodic sweep of the [MemoryLRUDriver], in any state reached by
    calls through the manager: the list keeps exactly the keys whose
    entry is served, in their order, and each of them keeps its entry;
    so with [deleteOnExpire] off nothing leaves. *)
Theorem lru_sweep_keeps_served_entries
    (o : MemoryDriverOptions) (calls : list (Z * ManagerCall)) (now : Z) :
  let st := lru_after o calls in
  let st' := MemoryLRUDriver.checkAllData o now st in
  recency st' = filter (fun k => is_Some (lru_entry o now st k)) (recency st)
  /\ (forall fullKey, lru_value st' fullKey = lru_entry o now st fullKey)
  /\ (deleteOnExpire o = false -> recency st' = recency st).
Proof.
  cbv zeta. destruct (lru_ok_after o calls) as [l Hrep].
  set (st := lru_after o calls) in *.
  destruct (lru_sweep_fold o now (map_to_list (MemoryLRUDriver.data st)) st l
              Hrep)
    as (_ & Hval & Hrec).
  - apply NoDup_fst_map_to_list.
  - intros k n Hin. by apply elem_of_map_to_list.
  - cbv zeta in *. fold (MemoryLRUDriver.checkAllData o now st) in Hval, Hrec.
    assert (Hval' : forall fullKey,
      lru_value (MemoryLRUDriver.checkAllData o now st) fullKey
      = lru_entry o now st fullKey).
    { intros k. rewrite Hval. case_bool_decide as Hin; [done|].
      unfold lru_entry. destruct (lru_value st k) as [d|] eqn:Hd; [|done].
      exfalso. apply Hin. rewrite lru_value_alt in Hd.
      destruct (MemoryLRUDriver.data st !! k) as [n|] eqn:Hn; [|done].
      apply list_elem_of_fmap. exists (k, n). split; [done|].
      by apply elem_of_map_to_list. }
    assert (Hfilter :
      recency (MemoryLRUDriver.checkAllData o now st)
      = filter (fun k => is_Some (lru_entry o now st k)) (recency st)).
    { rewrite Hrec. apply list_filter_iff. intros k. by rewrite Hval'. }
    split_and!; [done|done|].
    intros Hoff. rewrite Hfilter. apply filter_all. intros k Hk.
    destruct (lru_value_listed o st l k Hrep Hk) as [d Hd].
    unfold lru_entry, served. rewrite Hd, Hoff, orb_true_r. by eexists.
Qed.

(** ** Names inherited from Object.prototype *)


